(** * Origin-control toolkit: workspace, backup recorder and dispatcher

    A shallow embedding of [toolkit/workspace.py], [toolkit/utils.py],
    [toolkit/backup_manager.py], [toolkit/codeartifact_client.py] and of the
    task-processing part of [apply_package_configurations.py], followed by
    the properties proved about them.

    Conventions of the embedding.
    - Python code that mutates the file system, reads standard input or
      calls the remote registry is written in a state-and-exception monad:
      a computation takes the state and returns either the raised exception
      or the returned value, together with the state it leaves behind.
    - A folder of the workspace is a finite map from file name to file
      content.  A task id is a file name as [os.listdir] returns it (one
      path component); [os.path.join folder filename] addresses the entry
      [filename] of [folder].
    - A task file holds one CSV row over [CSV_HEADER]; the model keeps the
      row itself (the seven field values, all strings) as the content of
      the file.
    - The workspace model has its three state folders in place, as after a
      set-up that created them; the set-up itself is modelled apart, on
      the set of directories that exist.
    - Tasks are processed one after the other, in the order of the listing
      ([thread_map] with one worker); the backup recorder is modelled with
      the calls of the producers and the turns of the writer thread
      interleaved in any order. *)

From Stdlib Require Import Ascii.
From stdpp Require Import gmap strings list fin_maps pretty.

#[local] Set Warnings "-clear-no-such-hyp".

(** ** Exceptions and the monad *)

(** The Python exceptions the modelled code can meet.  All of them are
    subclasses of [Exception], so [except Exception] catches each one. *)
Inductive exn : Type :=
| FileExistsError
| FileNotFoundError
| ShutilError            (* shutil.Error: destination path already exists *)
| EOFError               (* input() at end of input *)
| ValueError
| ClientError (code : string)   (* an error raised by the remote client *)
| Exception (msg : string).

Definition M (S A : Type) : Type := S -> (exn + A) * S.

Definition ret {S A : Type} (a : A) : M S A := fun s => (inr a, s).

Definition raise {S A : Type} (e : exn) : M S A := fun s => (inl e, s).

Definition bind {S A B : Type} (m : M S A) (k : A -> M S B) : M S B :=
  fun s =>
    match m s with
    | (inl e, s') => (inl e, s')
    | (inr a, s') => k a s'
    end.

(** [try: m  except ...: h e] where [h] re-raises what it does not catch. *)
Definition try_except {S A : Type} (m : M S A) (h : exn -> M S A) : M S A :=
  fun s =>
    match m s with
    | (inl e, s') => h e s'
    | (inr a, s') => (inr a, s')
    end.

Declare Scope py_scope.
Delimit Scope py_scope with py.
Notation "'let*' x := c 'in' k" := (bind c (fun x => k))
  (at level 10, x name, c at level 200, k at level 200, only parsing) : py_scope.

(** [except FileExistsError: pass] *)
Definition pass_FileExistsError {S : Type} (e : exn) : M S unit :=
  match e with
  | FileExistsError => ret tt
  | _ => raise e
  end.

(** ** toolkit/utils.py *)

Definition ALLOWED_FLAG_VALUES : list string := ["ALLOW"; "BLOCK"].
Definition CSV_HEADER : list string :=
  ["domain"; "repository"; "format"; "namespace"; "package"; "upstream"; "publish"].

(** One record of the input data set: a dictionary over [CSV_HEADER]
    ([package_name] is the value of the column [package]). *)
Record row : Type := Row {
  domain : string;
  repository : string;
  format : string;
  namespace : string;
  package_name : string;
  upstream : string;
  publish : string
}.

#[global] Instance row_eq_dec : EqDecision row.
Proof. solve_decision. Defined.

(** The composite key of a record. *)
Definition composite_key (r : row) : string * string * string * string * string :=
  (domain r, repository r, format r, namespace r, package_name r).

(** ** toolkit/workspace.py *)

Module WorkspaceManager.

Definition TODO_FOLDER_NAME : string := "todo".
Definition ERROR_FOLDER_NAME : string := "error".
Definition DONE_FOLDER_NAME : string := "done".

(** The three state folders of one workspace directory. *)
Record workspace : Type := Workspace {
  todo_folder : gmap string row;
  error_folder : gmap string row;
  done_folder : gmap string row
}.

Inductive folder : Type := Todo | Error | Done.

#[global] Instance folder_eq_dec : EqDecision folder.
Proof. solve_decision. Defined.

Definition files (d : folder) (ws : workspace) : gmap string row :=
  match d with
  | Todo => todo_folder ws
  | Error => error_folder ws
  | Done => done_folder ws
  end.

Definition set_files (d : folder) (m : gmap string row) (ws : workspace) : workspace :=
  match d with
  | Todo => Workspace m (error_folder ws) (done_folder ws)
  | Error => Workspace (todo_folder ws) m (done_folder ws)
  | Done => Workspace (todo_folder ws) (error_folder ws) m
  end.

(** [os.listdir(folder)]: the names of the entries, in the arbitrary but
    fixed order of the map. *)
Definition os_listdir (d : folder) : M workspace (list string) :=
  fun ws => (inr (map fst (map_to_list (files d ws))), ws).

(** [os.path.exists(os.path.join(folder, filename))] *)
Definition os_path_exists (d : folder) (filename : string) : M workspace bool :=
  fun ws => (inr (bool_decide (is_Some (files d ws !! filename))), ws).

(** [shutil.move(os.path.join(src, filename), dst)] with [dst] an existing
    directory: the destination is [dst/filename]; if it exists,
    [shutil.Error] is raised; otherwise the file is renamed, which fails
    with [FileNotFoundError] when the source is missing.  Nothing is
    changed when an exception is raised. *)
Definition shutil_move (src : folder) (filename : string) (dst : folder) : M workspace unit :=
  fun ws =>
    match files dst ws !! filename with
    | Some _ => (inl ShutilError, ws)
    | None =>
        match files src ws !! filename with
        | None => (inl FileNotFoundError, ws)
        | Some c =>
            (inr tt, set_files dst (<[filename := c]> (files dst ws))
                       (set_files src (delete filename (files src ws)) ws))
        end
    end.

Local Open Scope py_scope.

Definition move_to_done (filename : string) : M workspace unit :=
  let* in_todo := os_path_exists Todo filename in
  let source := if in_todo then Todo else Error in
  shutil_move source filename Done.

Definition move_to_error (filename : string) : M workspace unit :=
  let* in_error := os_path_exists Error filename in
  if negb in_error then shutil_move Todo filename Error else ret tt.

Definition move_to_retry (filename : string) : M workspace unit :=
  shutil_move Error filename Todo.

(** [is_workspace_clean] returns [True] or falls off its end ([None]),
    which the callers read as false. *)
Definition is_workspace_clean : M workspace bool :=
  let* in_done := os_listdir Done in
  if bool_decide (in_done = []) then ret false else
  let* in_todo := os_listdir Todo in
  if negb (bool_decide (in_todo = [])) then ret false else
  let* in_error := os_listdir Error in
  if negb (bool_decide (in_error = [])) then ret false else
  ret true.

Definition should_recreate_files : M workspace bool :=
  let* clean := is_workspace_clean in
  if clean then ret false else
  let* in_error := os_listdir Error in
  if negb (bool_decide (in_error = [])) then ret false else
  let* in_todo := os_listdir Todo in
  if negb (bool_decide (in_todo = [])) then ret false else
  ret true.

(** [FILE_NAME_PATTERN.format(domain=..., repository=..., format=...,
    namespace=..., package=...)] *)
Definition FILE_NAME_PATTERN (line : row) : string :=
  domain line +:+ "-" +:+ repository line +:+ "-" +:+ format line +:+ "-"
  +:+ namespace line +:+ "-" +:+ package_name line.

(** A name without a path separator names an entry of the folder it is
    joined to. *)
Definition is_file_name (s : string) : bool :=
  match String.index 0 "/" s with
  | None => true
  | Some _ => false
  end.

(** [with open(os.path.join(folder, filename), 'w+') as f: ... writerow(line)]:
    the file is created or truncated and receives the row.  A name with a
    path separator would address a path below the folder, where the folders
    of the model hold no directory: [open] raises. *)
Definition write_file (d : folder) (filename : string) (line : row) : M workspace unit :=
  fun ws =>
    if is_file_name filename
    then (inr tt, set_files d (<[filename := line]> (files d ws)) ws)
    else (inl FileNotFoundError, ws).

(** The body of the [for line in reader] loop of [create_input_files]. *)
Fixpoint write_task_files (lines : list row) : M workspace unit :=
  match lines with
  | [] => ret tt
  | line :: rest =>
      let target_filename := FILE_NAME_PATTERN line in
      let* _ := write_file Todo target_filename line in
      write_task_files rest
  end.

(** [create_input_files]; [input] is what [csv.DictReader] yields for the
    input file, one record per data line. *)
Definition create_input_files (input : list row) : M workspace unit :=
  let* recreate := should_recreate_files in
  if negb recreate then ret tt else write_task_files input.

(** [reader]: the payload of a task, read from [todo] or else [error]. *)
Definition reader (filename : string) : M workspace row :=
  let* in_todo := os_path_exists Todo filename in
  let source := if in_todo then Todo else Error in
  fun ws =>
    match files source ws !! filename with
    | Some line => (inr line, ws)
    | None => (inl FileNotFoundError, ws)
    end.

(** A task handle: the id and the three callbacks. *)
Definition task (S : Type) : Type :=
  string * (string -> M S row) * (string -> M S unit) * (string -> M S unit).

(** [get_tasks] and [get_failed_tasks]: the generator lists the folder when
    it is first advanced and yields one handle per entry. *)
Definition get_tasks : M workspace (list (task workspace)) :=
  let* items := os_listdir Todo in
  ret (map (fun item => (item, reader, move_to_done, move_to_error)) items).

Definition get_failed_tasks : M workspace (list (task workspace)) :=
  let* items := os_listdir Error in
  ret (map (fun item => (item, reader, move_to_done, move_to_error)) items).

(** The workspace directory as [delete_workspace] sees it: [None] once
    [shutil.rmtree] removed it. *)
Definition on_directory {A : Type} (m : M workspace A) : M (option workspace) A :=
  fun dir =>
    match dir with
    | None => (inl FileNotFoundError, None)
    | Some ws => let (r, ws') := m ws in (r, Some ws')
    end.

(** [shutil.rmtree(self.workspace_dir)] *)
Definition shutil_rmtree : M (option workspace) unit :=
  fun dir =>
    match dir with
    | None => (inl FileNotFoundError, None)
    | Some _ => (inr tt, None)
    end.

Definition delete_workspace (force : bool) : M (option workspace) unit :=
  let* kept :=
    (if negb force
     then let* clean := on_directory is_workspace_clean in ret (negb clean)
     else ret false) in
  if kept then ret tt else shutil_rmtree.

End WorkspaceManager.

Import WorkspaceManager.

(** ** Where a task file is *)

Definition holds (d : folder) (t : string) (ws : workspace) : bool :=
  bool_decide (is_Some (files d ws !! t)).

(** The collections that hold a file named [t]. *)
Definition collections_holding (t : string) (ws : workspace) : list folder :=
  List.filter (fun d => holds d t ws) [Todo; Error; Done].

Definition in_exactly_one (t : string) (ws : workspace) : Prop :=
  length (collections_holding t ws) = 1.

(** The three transitions a task handle or the operator can ask for. *)
Inductive transition : Type := MarkDone | MarkError | MarkRetry.

Definition transit (op : transition) (id : string) : M workspace unit :=
  match op with
  | MarkDone => move_to_done id
  | MarkError => move_to_error id
  | MarkRetry => move_to_retry id
  end.

(** The workspace after the file [t], of content [c], moved from [src] to
    [dst]. *)
Definition moved (src dst : folder) (t : string) (c : row) (ws : workspace) : workspace :=
  set_files dst (<[t := c]> (files dst ws))
    (set_files src (delete t (files src ws)) ws).

(** ** What [create_input_files] is expected to leave in todo *)

(** The todo folder after the records of [input] were written to it one
    after the other, each under its file name. *)
Definition task_files (input : list row) (m : gmap string row) : gmap string row :=
  foldl (fun acc line => <[FILE_NAME_PATTERN line := line]> acc) m input.

Definition all_file_names (input : list row) : Prop :=
  Forall (fun line => is_file_name (FILE_NAME_PATTERN line) = true) input.

Definition all_empty (ws : workspace) : Prop :=
  todo_folder ws = ∅ /\ error_folder ws = ∅ /\ done_folder ws = ∅.

Definition empty_workspace : workspace := Workspace ∅ ∅ ∅.

(** Two records with different composite keys and one file name. *)
Definition scoped_ab_c : row := Row "d" "r" "npm" "a-b" "c" "ALLOW" "ALLOW".
Definition scoped_a_bc : row := Row "d" "r" "npm" "a" "b-c" "BLOCK" "BLOCK".

(** A string without the separator of [FILE_NAME_PATTERN]. *)
Fixpoint no_dash (s : string) : bool :=
  match s with
  | EmptyString => true
  | String c rest => if Ascii.eqb c "-" then false else no_dash rest
  end.

(** A record of the repository [r] of the domain [d] whose format and
    namespace are free of the separator: its file name can be split back
    into its composite key. *)
Definition named_by_key (d r : string) (line : row) : Prop :=
  domain line = d /\ repository line = r
  /\ no_dash (format line) = true /\ no_dash (namespace line) = true.

(** Two records of one repository, with two keys and two file names. *)
Definition plain_a_bc : row := Row "d" "r" "npm" "" "a-b-c" "ALLOW" "BLOCK".

(** ** The directories of a workspace: [setup_workspace] *)

Module Directories.

(** A directory is named by its path from the current directory, one
    component per element; the state is the set of directories that exist
    besides the current one. *)
Definition path : Type := list string.

Definition os_path_join (p : path) (name : string) : path := p ++ [name].

Definition isdir (p : path) (fs : gset path) : bool :=
  bool_decide (p = [] \/ p ∈ fs).

(** [os.mkdir]: [FileExistsError] when the path exists, [FileNotFoundError]
    when its parent does not. *)
Definition os_mkdir (p : path) : M (gset path) unit :=
  fun fs =>
    if isdir p fs then (inl FileExistsError, fs)
    else if isdir (removelast p) fs then (inr tt, {[p]} ∪ fs)
    else (inl FileNotFoundError, fs).

Local Open Scope py_scope.

(** [WorkspaceManager.setup_workspace], with [self.workspaces_home] and
    [self.content_hash] as arguments. *)
Definition setup_workspace (workspaces_home : path) (content_hash : string)
  : M (gset path) (path * path * path) :=
  let workspace_dir := os_path_join workspaces_home content_hash in
  let todo_folder := os_path_join workspace_dir WorkspaceManager.TODO_FOLDER_NAME in
  let error_folder := os_path_join workspace_dir WorkspaceManager.ERROR_FOLDER_NAME in
  let done_folder := os_path_join workspace_dir WorkspaceManager.DONE_FOLDER_NAME in
  let* _ := try_except (os_mkdir workspaces_home) pass_FileExistsError in
  let* _ := try_except
              (let* _ := os_mkdir workspace_dir in
               let* _ := os_mkdir todo_folder in
               let* _ := os_mkdir error_folder in
               os_mkdir done_folder)
              pass_FileExistsError in
  ret (todo_folder, error_folder, done_folder).

Definition WORKSPACES_HOME : path := ["workspaces"].

(** The three state directories exist. *)
Definition state_directories_exist (workspaces_home : path) (content_hash : string)
    (fs : gset path) : Prop :=
  let workspace_dir := os_path_join workspaces_home content_hash in
  isdir (os_path_join workspace_dir WorkspaceManager.TODO_FOLDER_NAME) fs = true
  /\ isdir (os_path_join workspace_dir WorkspaceManager.ERROR_FOLDER_NAME) fs = true
  /\ isdir (os_path_join workspace_dir WorkspaceManager.DONE_FOLDER_NAME) fs = true.

(** A workspace directory left without its state directories, and one left
    with [todo] only. *)
Definition sample_hash : string := "d41d8cd98f00b204e9800998ecf8427e".

Definition bare_workspace_dir : gset path :=
  {[ ["workspaces"]; ["workspaces"; sample_hash] ]}.

Definition todo_only_workspace_dir : gset path :=
  {[ ["workspaces"]; ["workspaces"; sample_hash]; ["workspaces"; sample_hash; "todo"] ]}.

End Directories.

(** ** toolkit/backup_manager.py *)

Module BackupManager.

(** The restrictions of a package as the registry reports them: the
    [origin_configuration] dictionary handed to [do_backup]. *)
Record origin_configuration : Type := OriginConfiguration {
  oc_upstream : string;
  oc_publish : string
}.

(** The writer thread is about to write the header, is in its loop, or has
    died on an exception. *)
Inductive writer : Type := AtHeader | InLoop | Dead.

(** The queue shared by the producers and the writer thread, the rows
    handed to [csv_writer] so far (the content of [target_file], flushed or
    not), and the rows that reached the disk at the last flush. *)
Record backup : Type := Backup {
  task_queue : list (row * origin_configuration);
  target_file : list (list string);
  flushed : list (list string);
  writer_thread : writer
}.

(** [self.target_file = open(self.target_filename, 'w+')]: an empty file;
    the queue is empty and the thread has not run yet. *)
Definition init_as_write : backup := Backup [] [] [] AtHeader.

Definition do_backup (package : row) (origin : origin_configuration) : M backup unit :=
  fun b =>
    (inr tt, Backup (task_queue b ++ [(package, origin)]) (target_file b)
               (flushed b) (writer_thread b)).

(** [csv.DictWriter.writerow] with the default [extrasaction='raise'] and
    [restval='']: a key outside [fieldnames] raises [ValueError]; the
    values are listed in the order of [fieldnames]. *)
Definition DictWriter_writerow (fieldnames : list string) (rowdict : gmap string string)
  : exn + list string :=
  if bool_decide (Forall (fun key => key ∈ fieldnames) (map fst (map_to_list rowdict)))
  then inr (map (fun key => default "" (rowdict !! key)) fieldnames)
  else inl ValueError.

(** The dictionary built by the loop of [_writer_thread]. *)
Definition line (package : row) (origin : origin_configuration) : gmap string string :=
  <["publish" := oc_publish origin]>
  (<["upstream" := oc_upstream origin]>
  (<["package" := package_name package]>
  (<["format" := format package]>
  (<["namespace" := namespace package]>
  (<["repository" := repository package]>
  (<["domain" := domain package]> ∅)))))).

(** One scheduling of the writer thread: [writeheader()] the first time,
    then one turn of the loop for each.  With an empty queue the thread
    stays blocked in [task_queue.get()]. *)
Definition _writer_thread (b : backup) : backup :=
  match writer_thread b with
  | AtHeader =>
      Backup (task_queue b) (target_file b ++ [CSV_HEADER]) (flushed b) InLoop
  | InLoop =>
      match task_queue b with
      | [] => b
      | (package, origin) :: rest =>
          match DictWriter_writerow CSV_HEADER (line package origin) with
          | inr fields =>
              let written := target_file b ++ [fields] in
              Backup rest written written InLoop
          | inl _ => Backup rest (target_file b) (flushed b) Dead
          end
      end
  | Dead => b
  end.

(** What the threads of a run do to the backup, in the order they do it. *)
Inductive event : Type :=
| DoBackup (package : row) (origin : origin_configuration)   (* a producer calls do_backup *)
| WriterTurn.                                                (* the writer thread runs *)

Definition step (b : backup) (ev : event) : backup :=
  match ev with
  | DoBackup package origin => (do_backup package origin b).2
  | WriterTurn => _writer_thread b
  end.

Definition run (schedule : list event) (b : backup) : backup :=
  foldl step b schedule.

(** The tuples recorded by a schedule, in the order of the calls. *)
Definition recorded (schedule : list event) : list (row * origin_configuration) :=
  omap (fun ev => match ev with
                  | DoBackup package origin => Some (package, origin)
                  | WriterTurn => None
                  end) schedule.

(** The data row of a recorded tuple. *)
Definition data_row (task : row * origin_configuration) : list string :=
  [domain task.1; repository task.1; format task.1; namespace task.1;
   package_name task.1; oc_upstream task.2; oc_publish task.2].

(** What holds of the backup after any schedule. *)
Definition backup_invariant (schedule : list event) (b : backup) : Prop :=
  match writer_thread b with
  | AtHeader =>
      target_file b = [] /\ flushed b = [] /\ task_queue b = recorded schedule
  | InLoop =>
      exists consumed,
        recorded schedule = consumed ++ task_queue b
        /\ target_file b = CSV_HEADER :: map data_row consumed
        /\ (flushed b = target_file b \/ (consumed = [] /\ flushed b = []))
  | Dead => False
  end.

End BackupManager.

(** ** toolkit/utils.py: the confirmation reader; toolkit/codeartifact_client.py;
       apply_package_configurations.py *)

Module Dispatcher.

Import WorkspaceManager.
Export BackupManager.

(** The keyword arguments of a boto3 call: [namespace] is passed only when
    it is not empty, [restrictions] only by
    [put_package_origin_configuration]. *)
Record request : Type := Request {
  rq_domain : string;
  rq_repository : string;
  rq_format : string;
  rq_package : string;
  rq_namespace : option string;
  rq_restrictions : option (string * string)
}.

(** The boto3 client of the registry, over the state [Remote] of the
    registry: [describe_package] stands for the call followed by
    [.get('package').get('originConfiguration').get('restrictions')]. *)
Record boto3_client (Remote Response : Type) : Type := Boto3Client {
  describe_package : request -> M Remote origin_configuration;
  put_package_origin_configuration : request -> M Remote Response
}.
Arguments describe_package {Remote Response}.
Arguments put_package_origin_configuration {Remote Response}.

Record CodeArtifactClient (Remote Response : Type) : Type := Client {
  DOMAIN : string;
  codeartifact_client : boto3_client Remote Response
}.
Arguments DOMAIN {Remote Response}.
Arguments codeartifact_client {Remote Response}.

(** The methods of [CodeArtifactClient] that were entered, with their
    keyword arguments, oldest first. *)
Inductive call : Type :=
| GetRestrictions (kwargs : row)
| ApplyRestrictions (kwargs : row).

Definition is_apply (c : call) : bool :=
  match c with
  | ApplyRestrictions _ => true
  | GetRestrictions _ => false
  end.

(** The command-line switches read by the processing of tasks. *)
Record arguments : Type := Arguments_ {
  ask_confirmation : bool;
  dry_run : bool;
  no_backup : bool;
  restore : bool;
  retry_failed : bool
}.

Section Run.
Context {Remote Response : Type}.
Variable args : arguments.

(** All that a run reads and changes. *)
Record world : Type := World {
  the_workspace : workspace;
  stdin : list string;          (* the lines [input()] has still to read *)
  remote : Remote;
  calls : list call;
  the_backup : backup
}.

Definition in_workspace {A : Type} (m : M workspace A) : M world A :=
  fun w =>
    let (r, ws) := m (the_workspace w) in
    (r, World ws (stdin w) (remote w) (calls w) (the_backup w)).

Definition in_remote {A : Type} (m : M Remote A) : M world A :=
  fun w =>
    let (r, rem) := m (remote w) in
    (r, World (the_workspace w) (stdin w) rem (calls w) (the_backup w)).

Definition in_backup {A : Type} (m : M backup A) : M world A :=
  fun w =>
    let (r, b) := m (the_backup w) in
    (r, World (the_workspace w) (stdin w) (remote w) (calls w) b).

Definition entered (c : call) : M world unit :=
  fun w =>
    (inr tt, World (the_workspace w) (stdin w) (remote w) (calls w ++ [c]) (the_backup w)).

(** [input()]: the next line, [EOFError] at the end of the input. *)
Definition input : M world string :=
  fun w =>
    match stdin w with
    | [] => (inl EOFError, w)
    | user_choice :: rest =>
        (inr user_choice,
         World (the_workspace w) rest (remote w) (calls w) (the_backup w))
    end.

Local Open Scope py_scope.

Definition get_user_confirmation : M world bool :=
  let* user_choice := input in
  if negb (bool_decide (user_choice ∈ ["Y"; "y"; "N"; "n"]))
  then raise (Exception (" " +:+ user_choice +:+ " is not a valid input."))
  else if bool_decide (user_choice ∈ ["N"; "n"]) then ret false
  else ret true.

Definition namespace_argument (namespace : string) : option string :=
  if bool_decide (namespace = "") then None else Some namespace.

Definition get_restrictions (self : CodeArtifactClient Remote Response) (kwargs : row)
  : M world origin_configuration :=
  let* _ := entered (GetRestrictions kwargs) in
  if negb (bool_decide (domain kwargs = DOMAIN self))
  then raise (Exception ("Domain mismatch! You supplied " +:+ domain kwargs
                         +:+ " but we expected " +:+ DOMAIN self +:+ "."))
  else
    let input := Request (domain kwargs) (repository kwargs) (format kwargs)
                   (package_name kwargs) (namespace_argument (namespace kwargs)) None in
    in_remote (describe_package (codeartifact_client self) input).

Definition apply_restrictions (self : CodeArtifactClient Remote Response) (kwargs : row)
  : M world Response :=
  let* _ := entered (ApplyRestrictions kwargs) in
  if negb (bool_decide (domain kwargs = DOMAIN self))
  then raise (Exception "Domain mismatch!")
  else
    let input := Request (domain kwargs) (repository kwargs) (format kwargs)
                   (package_name kwargs) (namespace_argument (namespace kwargs))
                   (Some (upstream kwargs, publish kwargs)) in
    in_remote (put_package_origin_configuration (codeartifact_client self) input).

(** The body of the [try] block of [run_individual_task]: [inl] is the
    value of its [return], [inr] the value of [res] when the block is left
    at its end. *)
Definition try_block (codeartifact_client : CodeArtifactClient Remote Response)
    (task_id : string) (reader : string -> M world row) (backup_manager : bool)
  : M world (string * option Response * bool + option Response) :=
  let* declined :=
    (if ask_confirmation args
     then let* confirmed := get_user_confirmation in ret (negb confirmed)
     else ret false) in
  if declined then ret (inl (task_id, None, false)) else
  let* _ :=
    (if backup_manager
     then let* package := reader task_id in
          let* kwargs := reader task_id in
          let* origin := get_restrictions codeartifact_client kwargs in
          in_backup (do_backup package origin)
     else ret tt) in
  if negb (dry_run args)
  then let* kwargs := reader task_id in
       let* res := apply_restrictions codeartifact_client kwargs in
       ret (inr (Some res))
  else ret (inr None).

(** [backup_manager] is [None] or the manager: only its truth value is
    read. *)
Definition run_individual_task (codeartifact_client : CodeArtifactClient Remote Response)
    (t : task world) (backup_manager : bool)
  : M world (string * option Response * bool) :=
  let '(task_id, reader, done_callback, error_callback) := t in
  let* outcome :=
    try_except (try_block codeartifact_client task_id reader backup_manager)
      (fun e =>
         let* _ := error_callback task_id in
         ret (inl (task_id, None, false))) in
  match outcome with
  | inl returned => ret returned
  | inr res =>
      let* _ := done_callback task_id in
      ret (task_id, res, true)
  end.

Definition dispatch_task (codeartifact_client : CodeArtifactClient Remote Response)
    (backup_manager : bool) (t : task world) : M world bool :=
  let* returned := run_individual_task codeartifact_client t backup_manager in
  let '(task_id, result, success) := returned in
  ret success.

(** [thread_map]: the outcomes in the order of the tasks.  The tasks are
    processed one after the other, as with one worker. *)
Fixpoint thread_map (f : task world -> M world bool) (tasks : list (task world))
  : M world (list bool) :=
  match tasks with
  | [] => ret []
  | t :: rest =>
      let* success := f t in
      let* proc := thread_map f rest in
      ret (success :: proc)
  end.

(** The task handles of the workspace, with their callbacks acting on the
    workspace of the run. *)
Definition handle (item : string) : task world :=
  (item, fun filename => in_workspace (reader filename),
   fun filename => in_workspace (move_to_done filename),
   fun filename => in_workspace (move_to_error filename)).

Definition task_generator : M world (list (task world)) :=
  let* tasks := in_workspace (if retry_failed args then get_failed_tasks else get_tasks) in
  ret (map (fun t : task workspace => handle t.1.1.1) tasks).

(** The numbers of the end-of-run message: tasks processed, successes,
    failures. *)
Definition summary (proc : list bool) : nat * nat * nat :=
  (length proc, length (List.filter (fun x => x) proc),
   length (List.filter (fun x => negb x) proc)).

(** The processing part of [dispatch_work], from the choice of the task
    generator to the end-of-run message; the construction of the workspace
    and of the backup manager comes before it, the clean-up after it. *)
Definition dispatch_work (codeartifact_client : CodeArtifactClient Remote Response)
  : M world (nat * nat * nat) :=
  let backup_manager := negb (no_backup args || restore args) in
  let* tasks := task_generator in
  let* proc := thread_map (dispatch_task codeartifact_client backup_manager) tasks in
  ret (summary proc).

(** *** Vocabulary of the properties *)

(** The world after [input()] consumed a line. *)
Definition after_input (rest : list string) (w : world) : world :=
  World (the_workspace w) rest (remote w) (calls w) (the_backup w).

Definition with_workspace (ws : workspace) (w : world) : world :=
  World ws (stdin w) (remote w) (calls w) (the_backup w).

(** A computation is framed by a relation when the state it leaves is
    related to the state it starts from, whether it returns or raises. *)
Definition framed {A : Type} (R : world -> world -> Prop) (m : M world A) : Prop :=
  forall w, R w (m w).2.

(** What no step of the processing of tasks undoes: a file in done stays
    there with its content, the queue of the backup and the list of calls
    only grow, the backup file is not written; in a dry run no call of
    [apply_restrictions] is added. *)
Definition progress (w w' : world) : Prop :=
  (forall u c, done_folder (the_workspace w) !! u = Some c ->
               done_folder (the_workspace w') !! u = Some c)
  /\ (exists more, task_queue (the_backup w') = task_queue (the_backup w) ++ more)
  /\ target_file (the_backup w') = target_file (the_backup w)
  /\ (exists more, calls w' = calls w ++ more
                   /\ (dry_run args = true -> Forall (fun c => is_apply c = false) more)).

(** The try block does not touch the workspace. *)
Definition workspace_kept (w w' : world) : Prop :=
  the_workspace w' = the_workspace w.

(** The task goes ahead: confirmation is not asked for, or the answer is
    [Y] or [y]; [w1] is the world after the answer was read. *)
Definition confirmed (w w1 : world) : Prop :=
  (ask_confirmation args = false /\ w1 = w)
  \/ (ask_confirmation args = true
      /\ exists yes rest, stdin w = yes :: rest /\ yes ∈ ["Y"; "y"]
                          /\ w1 = after_input rest w).

(** The world after the restrictions [origin] of [kwargs] were fetched,
    leaving the registry in [rem], and handed to the backup manager. *)
Definition backed_up (kwargs : row) (origin : origin_configuration) (rem : Remote)
    (w : world) : world :=
  World (the_workspace w) (stdin w) rem (calls w ++ [GetRestrictions kwargs])
    (do_backup kwargs origin (the_backup w)).2.

(** The task file [item] is in done and, when the backup is enabled, its
    restrictions were fetched and put on the queue of the backup. *)
Definition done_and_recorded (backup_manager : bool) (item : string) (w : world) : Prop :=
  exists kwargs,
    done_folder (the_workspace w) !! item = Some kwargs
    /\ (backup_manager = true ->
        GetRestrictions kwargs ∈ calls w
        /\ exists origin, (kwargs, origin) ∈ task_queue (the_backup w)).

End Run.

Arguments world : clear implicits.
Arguments World {Remote}.

End Dispatcher.

(** ** Sample data *)

(** The record of the test of the workspace manager. *)
Definition sample_row : row :=
  Row "davide-test" "nerv" "pypi" "" "internetarchive" "ALLOW" "ALLOW".

Definition sample_item : string := "davide-test-nerv-pypi--internetarchive".

Definition one_task_workspace : workspace :=
  Workspace {[ sample_item := sample_row ]} ∅ ∅.

(** A registry that reports the same restrictions for every package and
    accepts every change. *)
Definition sample_boto3 : Dispatcher.boto3_client unit unit :=
  Dispatcher.Boto3Client unit unit
    (fun _ => ret (BackupManager.OriginConfiguration "ALLOW" "BLOCK"))
    (fun _ => ret tt).

Definition sample_client : Dispatcher.CodeArtifactClient unit unit :=
  Dispatcher.Client unit unit "davide-test" sample_boto3.

Definition sample_world (lines : list string) : Dispatcher.world unit :=
  Dispatcher.World one_task_workspace lines tt [] BackupManager.init_as_write.

(** [--dry-run --ask-confirmation], and [--dry-run] alone. *)
Definition dry_run_asking : Dispatcher.arguments :=
  Dispatcher.Arguments_ true true false false false.

Definition dry_run_only : Dispatcher.arguments :=
  Dispatcher.Arguments_ false true false false false.

(** [--ask-confirmation] alone. *)
Definition asking : Dispatcher.arguments :=
  Dispatcher.Arguments_ true false false false false.

Definition failed_task_workspace : workspace :=
  Workspace ∅ {[ sample_item := sample_row ]} ∅.

Definition sample_origin : BackupManager.origin_configuration :=
  BackupManager.OriginConfiguration "ALLOW" "BLOCK".

(** The writer thread starts, one tuple is recorded, the writer thread
    consumes it. *)
Definition sample_schedule : list BackupManager.event :=
  [BackupManager.WriterTurn; BackupManager.DoBackup sample_row sample_origin;
   BackupManager.WriterTurn].

(** The writer thread starts, two tuples are recorded before it runs again,
    and it then takes the first of them: the second one is still queued
    when the row of the first is written. *)
Definition first_of_two_schedule : list BackupManager.event :=
  [BackupManager.WriterTurn;
   BackupManager.DoBackup sample_row sample_origin;
   BackupManager.DoBackup scoped_ab_c (BackupManager.OriginConfiguration "BLOCK" "ALLOW");
   BackupManager.WriterTurn].

(** The same, followed by the turn that takes the second tuple. *)
Definition two_call_schedule : list BackupManager.event :=
  first_of_two_schedule ++ [BackupManager.WriterTurn].

(** ** Vocabulary of the further properties *)

(** A task file that waits to be processed: held by todo or by error, by
    one of them only, and not by done. *)
Definition pending (item : string) (ws : workspace) : Prop :=
  in_exactly_one item ws /\ done_folder ws !! item = None.

(** No file name is held by two collections. *)
Definition disjoint_folders (ws : workspace) : Prop :=
  forall u, length (collections_holding u ws) <= 1.

(** ** apply_package_configurations.py: validation of the input lines *)

Module Validation.

Definition double_quote : string := String (Ascii.ascii_of_nat 34) EmptyString.

(** [validate_line]; [args_domain] and [args_repository] are [args.domain]
    and [args.repository]. *)
Definition validate_line (args_domain args_repository : string) (line : row)
    (line_number : nat) : exn + unit :=
  if negb (bool_decide (domain line = args_domain))
  then inl (Exception ("[" +:+ pretty line_number +:+ "] Domain " +:+ domain line
                       +:+ " is different from expected value of " +:+ args_domain))
  else if negb (bool_decide (repository line = args_repository))
  then inl (Exception ("[" +:+ pretty line_number +:+ "] Repository " +:+ repository line
                       +:+ " is different from expected value of " +:+ args_repository))
  else if negb (bool_decide (upstream line ∈ ALLOWED_FLAG_VALUES))
  then inl (Exception ("[" +:+ pretty line_number +:+ "] " +:+ double_quote +:+ "upstream"
                       +:+ double_quote
                       +:+ " must be either ALLOW or BLOCK, cannot be " +:+ upstream line))
  else if negb (bool_decide (publish line ∈ ALLOWED_FLAG_VALUES))
  then inl (Exception ("[" +:+ pretty line_number +:+ "] " +:+ double_quote +:+ "publish"
                       +:+ double_quote
                       +:+ " must be either ALLOW or BLOCK, cannot be " +:+ upstream line))
  else inr tt.

(** The loop of [validate_file] over the records of the input, after the
    header was read: [line_num] is [reader.line_num] after the last line
    read, and each record takes one line.  The value is the final
    [reader.line_num], which [validate_file] returns. *)
Fixpoint validate_lines (args_domain args_repository : string) (lines : list row)
    (line_num : nat) : exn + nat :=
  match lines with
  | [] => inr line_num
  | line :: rest =>
      match validate_line args_domain args_repository line (S line_num) with
      | inl e => inl e
      | inr _ => validate_lines args_domain args_repository rest (S line_num)
      end
  end.

(** What [validate_line] checks. *)
Definition valid_line (args_domain args_repository : string) (line : row) : Prop :=
  domain line = args_domain /\ repository line = args_repository
  /\ upstream line ∈ ALLOWED_FLAG_VALUES /\ publish line ∈ ALLOWED_FLAG_VALUES.

End Validation.

(** ** toolkit/backup_manager.py: the constructor *)

Module BackupManagerInit.

Import Dispatcher.

Section Init.
Context {Remote : Type}.

Local Open Scope py_scope.

Definition ask_user_whether_to_overwrite_backup : M (world Remote) bool :=
  let* confirmed := get_user_confirmation in
  if negb confirmed then ret false else ret true.

(** [init_as_write] as a step of a run: the file is opened with ['w+'],
    which creates it or empties it, on the disk too, and a new writer
    thread is started; the queue belongs to the class and is kept. *)
Definition init_as_write : M (world Remote) unit :=
  in_backup (fun b => (inr tt, Backup (task_queue b) [] [] AtHeader)).

(** [BackupManager.__init__]; [backup_exists] is
    [os.path.exists(self.target_filename)]. *)
Definition __init__ (backup_exists ask_confirmation : bool) : M (world Remote) unit :=
  let* _ :=
    (if backup_exists && ask_confirmation
     then let* overwrite := ask_user_whether_to_overwrite_backup in
          if negb overwrite then raise (Exception "User elected not to continue.")
          else ret tt
     else ret tt) in
  init_as_write.

End Init.

End BackupManagerInit.

(** ** toolkit/utils.py: the parser of origin control flags *)

Module Flags.

Definition FLAG_NAMES : list string := ["upstream"; "publish"].

(** [s.split(sep)] for a separator of one character: the parts between
    the separators, at least one part. *)
Fixpoint split (sep : ascii) (s : string) : list string :=
  match s with
  | EmptyString => [EmptyString]
  | String c rest =>
      if Ascii.eqb c sep then EmptyString :: split sep rest
      else match split sep rest with
           | [] => [String c EmptyString]
           | part :: parts => String c part :: parts
           end
  end.

Fixpoint lstrip (c : ascii) (s : string) : string :=
  match s with
  | EmptyString => EmptyString
  | String c' rest => if Ascii.eqb c' c then lstrip c rest else s
  end.

(** [s.strip(c)] for a set of one character. *)
Definition strip (c : ascii) (s : string) : string :=
  String.rev (lstrip c (String.rev (lstrip c s))).

(** [l.remove(x)]: the first occurrence goes. *)
Fixpoint remove (x : string) (l : list string) : list string :=
  match l with
  | [] => []
  | y :: rest => if bool_decide (y = x) then rest else y :: remove x rest
  end.

Definition space : ascii := Ascii.ascii_of_nat 32.
Definition comma : ascii := Ascii.ascii_of_nat 44.
Definition equals : ascii := Ascii.ascii_of_nat 61.

(** One turn of the loop of [parse_poc_flags]; unpacking the split section
    into two names raises [ValueError] unless it has two parts. *)
Definition parse_section (section : string)
    (parsed_configuration : gmap string (option string))
    (yet_unparsed_flags : list string)
  : exn + gmap string (option string) * list string :=
  match split equals (strip space section) with
  | [attribute_name; value] =>
      if bool_decide (attribute_name ∈ yet_unparsed_flags) then
        if bool_decide (value ∈ ALLOWED_FLAG_VALUES)
        then inr (<[attribute_name := Some value]> parsed_configuration,
                  remove attribute_name yet_unparsed_flags)
        else inl (Exception (value +:+ " not allowed for " +:+ attribute_name))
      else inl (Exception (attribute_name +:+ " not a valid origin control flag"))
  | _ => inl ValueError
  end.

Fixpoint parse_sections (sections : list string)
    (parsed_configuration : gmap string (option string))
    (yet_unparsed_flags : list string) : exn + gmap string (option string) :=
  match sections with
  | [] => inr parsed_configuration
  | section :: rest =>
      match parse_section section parsed_configuration yet_unparsed_flags with
      | inl e => inl e
      | inr (parsed, yet_unparsed) => parse_sections rest parsed yet_unparsed
      end
  end.

(** [parse_poc_flags]: the dictionary maps each flag name to its value,
    [None] standing for Python's [None]. *)
Definition parse_poc_flags (origin_configuration : string)
  : exn + gmap string (option string) :=
  let parsed_configuration : gmap string (option string) :=
    list_to_map (map (fun name => (name, None)) FLAG_NAMES) in
  let yet_unparsed_flags := FLAG_NAMES in
  let split_string := split comma (strip space origin_configuration) in
  if negb (bool_decide (length split_string = 2))
  then inl (Exception "Check number of arguments provided (should be 2)")
  else parse_sections split_string parsed_configuration yet_unparsed_flags.

End Flags.

(** ** toolkit/codeartifact_client.py: the upstream graph *)

Module UpstreamGraph.

Section Graph.
Context {ExternalConnection : Type}.

(** [describe_repository] of the registry, for the domain of the client,
    reduced to what is read of the answer: the names of the upstreams and
    the external connections.  The registry does not change while the
    graph is traversed. *)
Variable describe_repository : string -> exn + list string * list ExternalConnection.

Definition get_repo_upstreams_and_external_connections (repository : string)
  : exn + list string * list ExternalConnection :=
  match describe_repository repository with
  | inl e => inl e
  | inr (upstreams, external_connections) =>
      inr (if bool_decide (repository ∈ upstreams)
           then Flags.remove repository upstreams else upstreams,
           external_connections)
  end.

(** The [for upstream in upstreams] loop of [_recursive_get_upstreams], over
    the recursive call [visit]; [visited] and [graph] are the set and the
    dictionary shared by all the calls.  [None] stands for a recursion that
    is cut short, an exception ends the traversal. *)
Fixpoint for_upstreams
    (visit : gset string -> gmap string (list string) -> string ->
             option (exn + gset string * gmap string (list string)))
    (upstreams : list string) (visited : gset string)
    (graph : gmap string (list string))
  : option (exn + gset string * gmap string (list string)) :=
  match upstreams with
  | [] => Some (inr (visited, graph))
  | upstream :: rest =>
      match visit visited graph upstream with
      | Some (inr (visited', graph')) => for_upstreams visit rest visited' graph'
      | other => other
      end
  end.

(** [_recursive_get_upstreams], with the depth of the recursion bounded by
    [depth]. *)
Fixpoint _recursive_get_upstreams (depth : nat) (visited : gset string)
    (graph : gmap string (list string)) (repository : string)
  : option (exn + gset string * gmap string (list string)) :=
  match depth with
  | 0 => None
  | S depth =>
      match get_repo_upstreams_and_external_connections repository with
      | inl e => Some (inl e)
      | inr (upstreams, _) =>
          let graph := <[repository := upstreams]> graph in
          if bool_decide (repository ∈ visited) then Some (inr (visited, graph))
          else for_upstreams (_recursive_get_upstreams depth) upstreams
                 ({[repository]} ∪ visited) graph
      end
  end.

Definition get_upstream_graph (depth : nat) (repository : string)
  : option (exn + gmap string (list string)) :=
  match _recursive_get_upstreams depth ∅ ∅ repository with
  | Some (inr (_, upstream_graph)) => Some (inr upstream_graph)
  | Some (inl e) => Some (inl e)
  | None => None
  end.

(** The upstreams of a repository as the traversal sees them. *)
Definition upstreams_of (repository : string) : list string :=
  match get_repo_upstreams_and_external_connections repository with
  | inr (upstreams, _) => upstreams
  | inl _ => []
  end.

(** The repositories the traversal can get to from [start]. *)
Inductive reachable (start : string) : string -> Prop :=
| reachable_start : reachable start start
| reachable_upstream repository upstream :
    reachable start repository ->
    upstream ∈ upstreams_of repository ->
    reachable start upstream.

(** A set of repositories that all exist and that holds the upstreams of
    its members. *)
Definition closed_registry (known : gset string) : Prop :=
  forall repository,
    repository ∈ known ->
    (exists upstreams external_connections,
       get_repo_upstreams_and_external_connections repository
       = inr (upstreams, external_connections))
    /\ forall upstream, upstream ∈ upstreams_of repository -> upstream ∈ known.

(** What the calls of the traversal rely on, for a set [known] of
    repositories and a start. *)
Definition traversal_state (known : gset string) (start : string)
    (visited : gset string) (graph : gmap string (list string)) : Prop :=
  visited ⊆ known /\ dom graph ⊆ visited
  /\ (forall k v, graph !! k = Some v -> v = upstreams_of k)
  /\ (forall x, x ∈ visited -> reachable start x).

(** What a call, or a loop of calls, adds. *)
Definition traversal_step (known : gset string) (start : string)
    (visited : gset string) (graph : gmap string (list string))
    (visited' : gset string) (graph' : gmap string (list string)) : Prop :=
  visited ⊆ visited' /\ dom graph ⊆ dom graph'
  /\ traversal_state known start visited' graph'
  /\ (forall x, x ∈ visited' -> x ∉ visited ->
        forall u, u ∈ upstreams_of x -> u ∈ dom graph').

End Graph.

End UpstreamGraph.

(** A registry of two repositories that are upstreams of each other, the
    first also of itself. *)
Definition sample_registry (repository : string) : exn + list string * list unit :=
  if bool_decide (repository = "app") then inr (["shared"; "app"], [])
  else if bool_decide (repository = "shared") then inr (["app"], [])
  else inl (ClientError "ResourceNotFoundException").

(** ** generate_package_configurations.py: the automatic mode *)

Module Generate.

Section AutoMode.
Context {Package ExternalConnection : Type} `{EqDecision Package}.

(** What is read of a package dictionary, [package['format']],
    [package.get('namespace')] and [package['package']], and of an
    external connection, [external_connection.get('packageFormat')]. *)
Variable package_format : Package -> string.
Variable package_namespace : Package -> option string.
Variable package_of : Package -> string.
Variable packageFormat : ExternalConnection -> option string.

(** [list_packages_in_repository] for the format, namespace and prefix of
    the command line. *)
Variable list_packages_in_repository : string -> exn + list Package.

Definition coordinate : Type := string * option string * string.

(** The [defaultdict(list)], its keys in the order they were added:
    [packages_map[key].append(upstream)]. *)
Fixpoint append_to (key : coordinate) (upstream : string)
    (packages_map : list (coordinate * list string)) : list (coordinate * list string) :=
  match packages_map with
  | [] => [(key, [upstream])]
  | (k, repositories) :: rest =>
      if bool_decide (k = key) then (k, repositories ++ [upstream]) :: rest
      else (k, repositories) :: append_to key upstream rest
  end.

(** The [for package in packages_list] loop of
    [collect_repository_and_package_information]. *)
Definition record_packages (candidate_packages : list Package) (upstream : string)
    (packages_list : list Package) (packages_map : list (coordinate * list string))
  : list (coordinate * list string) :=
  foldl (fun acc package =>
           if bool_decide (package ∈ candidate_packages)
           then append_to (package_format package, package_namespace package,
                           package_of package) upstream acc
           else acc)
    packages_map packages_list.

(** The [for upstream in upstream_graph] loop of
    [collect_repository_and_package_information]; [upstream_graph] lists
    the keys of the graph in the order of the dictionary. *)
Fixpoint collect_packages (candidate_packages : list Package) (upstream_graph : list string)
    (packages_map : list (coordinate * list string))
  : exn + list (coordinate * list string) :=
  match upstream_graph with
  | [] => inr packages_map
  | upstream :: rest =>
      match list_packages_in_repository upstream with
      | inl e => inl e
      | inr packages_list =>
          collect_packages candidate_packages rest
            (record_packages candidate_packages upstream packages_list packages_map)
      end
  end.

(** The [package_entry] dictionary of [block_where_possible]. *)
Record package_entry : Type := PackageEntry {
  entry_repository : string;
  entry_format : string;
  entry_package : string;
  entry_namespace : option string
}.

(** [block_where_possible]; [args_repository] is [args.repository].  The
    value is the pair of [packages_with_no_restrictions] and
    [packages_with_upstream_versions_restricted]. *)
Fixpoint block_where_possible (args_repository : string)
    (packages_map : list (coordinate * list string))
    (current_repo_ecs : list ExternalConnection)
  : list package_entry * list package_entry :=
  match packages_map with
  | [] => ([], [])
  | ((package_format, package_namespace, package_name), upstreams) :: rest =>
      let package_entry :=
        PackageEntry args_repository package_format package_name package_namespace in
      let (packages_with_no_restrictions, packages_with_upstream_versions_restricted) :=
        block_where_possible args_repository rest current_repo_ecs in
      if bool_decide (Exists (fun external_connection =>
                                packageFormat external_connection = Some package_format)
                        current_repo_ecs)
      then (package_entry :: packages_with_no_restrictions,
            packages_with_upstream_versions_restricted)
      else if negb (bool_decide (length upstreams = 0))
      then (package_entry :: packages_with_no_restrictions,
            packages_with_upstream_versions_restricted)
      else (packages_with_no_restrictions,
            package_entry :: packages_with_upstream_versions_restricted)
  end.

(** No key of the map has an empty list. *)
Definition no_empty_list (packages_map : list (coordinate * list string)) : Prop :=
  Forall (fun item => item.2 <> []) packages_map.

(** The entry made for a key of the map. *)
Definition entry_of (args_repository : string) (key : coordinate) : package_entry :=
  PackageEntry args_repository key.1.1 key.2 key.1.2.

End AutoMode.

End Generate.

(** A package of the automatic mode, as its format and its name, found in
    every repository. *)
Definition sample_package : string * string := ("npm", "left-pad").

Definition sample_listing (repository : string) : exn + list (string * string) :=
  inr [sample_package].

(** * Properties *)

Lemma holds_true d t ws : holds d t ws = true <-> is_Some (files d ws !! t).
Proof. unfold holds. by rewrite bool_decide_eq_true. Qed.

Lemma holds_false d t ws : holds d t ws = false <-> files d ws !! t = None.
Proof.
  unfold holds. rewrite bool_decide_eq_false. by rewrite eq_None_not_Some.
Qed.

Lemma shutil_move_cases src t dst ws :
  (is_Some (files dst ws !! t) /\ shutil_move src t dst ws = (inl ShutilError, ws))
  \/ (files dst ws !! t = None /\ files src ws !! t = None
      /\ shutil_move src t dst ws = (inl FileNotFoundError, ws))
  \/ (exists c, files dst ws !! t = None /\ files src ws !! t = Some c
      /\ shutil_move src t dst ws =
           (inr tt, set_files dst (<[t := c]> (files dst ws))
                      (set_files src (delete t (files src ws)) ws))).
Proof.
  unfold shutil_move.
  destruct (files dst ws !! t) as [c'|] eqn:Hd; [left; eauto|].
  destruct (files src ws !! t) as [c|] eqn:Hs; [|right; left; eauto].
  right; right. eauto.
Qed.

Lemma files_set_files_eq d m ws : files d (set_files d m ws) = m.
Proof. by destruct d. Qed.

Lemma files_set_files_ne d d' m ws :
  d <> d' -> files d (set_files d' m ws) = files d ws.
Proof. by destruct d, d'. Qed.

(** What a successful move does to every file of every folder. *)
Lemma moved_lookup src dst t c ws d u :
  src <> dst ->
  files d (set_files dst (<[t := c]> (files dst ws))
             (set_files src (delete t (files src ws)) ws)) !! u
  = if decide (u = t)
    then (if decide (d = dst) then Some c
          else if decide (d = src) then None else files d ws !! t)
    else files d ws !! u.
Proof.
  intros Hne.
  destruct (decide (d = dst)) as [->|Hd].
  - rewrite files_set_files_eq.
    destruct (decide (u = t)) as [->|Hu].
    + by rewrite lookup_insert_eq.
    + by rewrite lookup_insert_ne.
  - rewrite files_set_files_ne by done.
    destruct (decide (d = src)) as [->|Hs].
    + rewrite files_set_files_eq.
      destruct (decide (u = t)) as [->|Hu].
      * by rewrite lookup_delete_eq.
      * by rewrite lookup_delete_ne.
    + rewrite files_set_files_ne by done.
      by destruct (decide (u = t)) as [->|Hu].
Qed.

Lemma holds_moved src dst t c ws d u :
  src <> dst ->
  holds d u (moved src dst t c ws)
  = if decide (u = t)
    then (if decide (d = dst) then true
          else if decide (d = src) then false else holds d t ws)
    else holds d u ws.
Proof.
  intros Hne. unfold holds, moved. rewrite moved_lookup by done.
  destruct (decide (u = t)); [|done].
  destruct (decide (d = dst)).
  - apply bool_decide_eq_true. eauto.
  - destruct (decide (d = src)); [|done].
    apply bool_decide_eq_false. by intros [? ?].
Qed.

(** Every transition either raises and changes nothing, or does nothing
    (a repeated [move_to_error]), or moves one file between two different
    folders. *)
Lemma transit_cases op id ws :
  (exists e, transit op id ws = (inl e, ws))
  \/ (transit op id ws = (inr tt, ws) /\ op = MarkError
      /\ is_Some (error_folder ws !! id))
  \/ (exists src dst c,
        src <> dst /\ src <> Done
        /\ files src ws !! id = Some c /\ files dst ws !! id = None
        /\ transit op id ws = (inr tt, moved src dst id c ws)).
Proof.
  destruct op; simpl.
  - unfold move_to_done, bind, os_path_exists.
    set (source := if bool_decide (is_Some (files Todo ws !! id)) then Todo else Error).
    assert (source <> Done) by (unfold source; by case_bool_decide).
    destruct (shutil_move_cases source id Done ws) as [[_ ->]|[(_ & _ & ->)|(c & ? & ? & ->)]];
      [left; eauto | left; eauto |].
    right; right. exists source, Done, c. eauto 6.
  - unfold move_to_error, bind, os_path_exists.
    case_bool_decide as Hin; simpl.
    + right; left. eauto.
    + destruct (shutil_move_cases Todo id Error ws) as [[_ ->]|[(_ & _ & ->)|(c & ? & ? & ->)]];
        [left; eauto | left; eauto |].
      right; right. exists Todo, Error, c. eauto 6.
  - unfold move_to_retry.
    destruct (shutil_move_cases Error id Todo ws) as [[_ ->]|[(_ & _ & ->)|(c & ? & ? & ->)]];
      [left; eauto | left; eauto |].
    right; right. exists Error, Todo, c. eauto 6.
Qed.

(** A move keeps, for every file name, the number of collections holding
    it. *)
Lemma collections_holding_moved src dst t c ws u :
  src <> dst -> files src ws !! t = Some c -> files dst ws !! t = None ->
  length (collections_holding u (moved src dst t c ws))
  = length (collections_holding u ws).
Proof.
  intros Hne Hsrc Hdst.
  assert (holds src t ws = true) as Hs by (apply holds_true; eauto).
  assert (holds dst t ws = false) as Hd by (by apply holds_false).
  unfold collections_holding. simpl.
  rewrite !holds_moved by done.
  destruct (decide (u = t)) as [->|]; [|done].
  destruct src, dst; try done; simpl in *; rewrite ?Hs, ?Hd; simpl;
    by repeat case_match.
Qed.

Lemma transit_collections_holding op id ws u :
  length (collections_holding u (transit op id ws).2)
  = length (collections_holding u ws).
Proof.
  destruct (transit_cases op id ws) as [[e ->]|[(-> & _)|(src & dst & c & ? & ? & ? & ? & ->)]];
    simpl; [done | done |].
  by apply collections_holding_moved.
Qed.

Lemma transit_raise_unchanged op id ws e :
  (transit op id ws).1 = inl e -> (transit op id ws).2 = ws.
Proof.
  destruct (transit_cases op id ws) as [[e' ->]|[(-> & _)|(src & dst & c & ? & ? & ? & ? & ->)]];
    simpl; [done | done | done].
Qed.

(** C1. In every workspace state, each of [move_to_done], [move_to_error]
    and [move_to_retry], called with any id, leaves every task file that
    was in exactly one of todo, error and done in exactly one of them (in
    particular the task the call is about); and a call that raises leaves
    the whole workspace as it was. *)
Theorem transitions_keep_exactly_one (op : transition) (id u : string) (ws : workspace) :
  in_exactly_one u ws ->
  in_exactly_one u (transit op id ws).2
  /\ (forall e, (transit op id ws).1 = inl e -> (transit op id ws).2 = ws).
Proof.
  unfold in_exactly_one. intros H. split.
  - by rewrite transit_collections_holding.
  - apply transit_raise_unchanged.
Qed.

(** A transition that is neither a retry nor a completion of [t] keeps the
    error record of [t]. *)
Lemma move_to_error_present t ws :
  is_Some (error_folder ws !! t) -> move_to_error t ws = (inr tt, ws).
Proof.
  intros Hw. unfold move_to_error, bind, os_path_exists. simpl.
  by rewrite bool_decide_eq_true_2.
Qed.

Lemma transit_keeps_error_record op id t c ws :
  id <> t \/ op = MarkError ->
  error_folder ws !! t = Some c ->
  error_folder (transit op id ws).2 !! t = Some c.
Proof.
  intros Hop Hc.
  destruct (decide (id = t)) as [->|Hid].
  - destruct Hop as [?| ->]; [done|]. simpl.
    rewrite move_to_error_present by eauto. done.
  - destruct (transit_cases op id ws)
      as [[e ->]|[(-> & _)|(src & dst & c' & Hne & _ & Hs & Hd & ->)]];
      simpl; [done | done |].
    change (files Error (moved src dst id c' ws) !! t = Some c).
    unfold moved. rewrite moved_lookup by done.
    by rewrite decide_False by done.
Qed.

(** C3. If a file named [t] is already in error, [move_to_error t] returns
    without changing anything: the error record keeps its content and a
    todo copy, if any, stays where it is.  Hence a second [move_to_error t]
    right after a first one that returned is a no-op, and so is one that
    comes after any transitions that are no retry or completion of [t]. *)
Theorem move_to_error_first_failure_wins (t : string) (ws : workspace) :
  is_Some (error_folder ws !! t) ->
  move_to_error t ws = (inr tt, ws)
  /\ (forall ws0 ws1, move_to_error t ws0 = (inr tt, ws1) ->
        move_to_error t ws1 = (inr tt, ws1)
        /\ is_Some (error_folder ws1 !! t))
  /\ (forall (ops : list (transition * string)) c,
        error_folder ws !! t = Some c ->
        Forall (fun o => o.2 <> t \/ o.1 = MarkError) ops ->
        let ws' := foldl (fun w o => (transit o.1 o.2 w).2) ws ops in
        error_folder ws' !! t = Some c /\ move_to_error t ws' = (inr tt, ws')).
Proof.
  pose proof (move_to_error_present t) as Hnoop.
  intros Hin. split; [by apply Hnoop|]. split.
  - intros ws0 ws1 Hfirst.
    assert (is_Some (error_folder ws1 !! t)) as H1.
    { revert Hfirst. unfold move_to_error, bind, os_path_exists, shutil_move, ret.
      simpl. case_bool_decide; simpl; [intros; by simplify_eq|].
      repeat case_match; intros; simplify_eq.
      simpl. rewrite lookup_insert_eq. eauto. }
    split; [by apply Hnoop | done].
  - intros ops c Hc Hops. simpl.
    assert (error_folder (foldl (fun w o => (transit o.1 o.2 w).2) ws ops) !! t = Some c)
      as Hend.
    { revert ws Hin Hc. induction Hops as [|[op id] ops Hop _ IH]; intros ws Hin Hc;
        [done|].
      simpl. apply IH.
      - rewrite (transit_keeps_error_record op id t c); eauto.
      - by apply transit_keeps_error_record. }
    split; [done|]. apply Hnoop. eauto.
Qed.

(** C7. For a task file [t] that is in todo (and, as every task, in no
    other collection), [move_to_error t], then [move_to_retry t], then
    [move_to_done t] all return, and leave [t] in done with its content,
    absent from todo and from error; no other file is touched. *)
Theorem retry_round_trip (t : string) (c : row) (ws : workspace) :
  todo_folder ws !! t = Some c ->
  error_folder ws !! t = None ->
  done_folder ws !! t = None ->
  exists ws3,
    bind (move_to_error t) (fun _ => bind (move_to_retry t) (fun _ => move_to_done t)) ws
      = (inr tt, ws3)
    /\ done_folder ws3 !! t = Some c
    /\ todo_folder ws3 !! t = None
    /\ error_folder ws3 !! t = None
    /\ ws3 = Workspace (delete t (todo_folder ws)) (error_folder ws)
                       (<[t := c]> (done_folder ws)).
Proof.
  destruct ws as [T E D]. simpl. intros HT HE HD.
  eexists. split.
  - unfold bind, move_to_error, move_to_retry, move_to_done, os_path_exists,
      shutil_move, bind, ret. simpl.
    rewrite (bool_decide_eq_false_2 (is_Some (E !! t))) by (rewrite HE; by intros [? ?]).
    simpl. rewrite HE, HT. simpl.
    rewrite lookup_delete_eq, lookup_insert_eq. simpl.
    rewrite lookup_insert_eq, bool_decide_eq_true_2 by eauto.
    simpl. rewrite HD, lookup_insert_eq. simpl. reflexivity.
  - simpl. rewrite lookup_insert_eq, lookup_delete_eq, lookup_delete_eq.
    rewrite delete_insert_eq, delete_insert_eq.
    rewrite (delete_id E) by done.
    rewrite (delete_id (delete t T)) by apply lookup_delete_eq.
    done.
Qed.

(** ** Populating the workspace *)

Lemma os_listdir_run d ws :
  os_listdir d ws = (inr (map fst (map_to_list (files d ws))), ws).
Proof. done. Qed.

Lemma listing_nil (m : gmap string row) : map fst (map_to_list m) = [] <-> m = ∅.
Proof.
  rewrite <- map_to_list_empty_iff.
  destruct (map_to_list m); simpl; split; congruence.
Qed.

Lemma listing_nil_decide (m : gmap string row) :
  bool_decide (map fst (map_to_list m) = []) = bool_decide (m = ∅).
Proof. apply bool_decide_ext, listing_nil. Qed.

Ltac resolve_listings HD HT HE :=
  repeat (progress
            (simpl;
             rewrite ?listing_nil_decide,
               ?(bool_decide_eq_true_2 _ HD), ?(bool_decide_eq_false_2 _ HD),
               ?(bool_decide_eq_true_2 _ HT), ?(bool_decide_eq_false_2 _ HT),
               ?(bool_decide_eq_true_2 _ HE), ?(bool_decide_eq_false_2 _ HE))).

(** [is_workspace_clean] is true exactly for a non-empty done next to an
    empty todo and an empty error. *)
Lemma is_workspace_clean_run ws :
  is_workspace_clean ws
  = (inr (bool_decide (done_folder ws <> ∅ /\ todo_folder ws = ∅ /\ error_folder ws = ∅)), ws).
Proof.
  unfold is_workspace_clean, bind, ret, os_listdir.
  destruct (decide (done_folder ws = ∅)) as [HD|HD],
    (decide (todo_folder ws = ∅)) as [HT|HT],
    (decide (error_folder ws = ∅)) as [HE|HE];
    resolve_listings HD HT HE;
    f_equal; f_equal; symmetry;
    (apply bool_decide_eq_true_2 || apply bool_decide_eq_false_2);
    first [done | by intros (? & ? & ?)].
Qed.

(** [should_recreate_files] is true exactly when the three folders are
    empty. *)
Lemma should_recreate_files_run ws :
  should_recreate_files ws = (inr (bool_decide (all_empty ws)), ws).
Proof.
  unfold should_recreate_files, bind. rewrite is_workspace_clean_run.
  unfold ret, os_listdir, all_empty.
  destruct (decide (done_folder ws = ∅)) as [HD|HD],
    (decide (todo_folder ws = ∅)) as [HT|HT],
    (decide (error_folder ws = ∅)) as [HE|HE];
    try (rewrite (bool_decide_eq_true_2 (done_folder ws <> ∅ /\ _)) by done);
    try (rewrite (bool_decide_eq_false_2 (done_folder ws <> ∅ /\ _))
           by (by intros (? & ? & ?)));
    resolve_listings HD HT HE;
    f_equal; f_equal; symmetry;
    (apply bool_decide_eq_true_2 || apply bool_decide_eq_false_2);
    first [done | by intros (? & ? & ?)].
Qed.

Lemma task_files_snoc input line m :
  task_files (input ++ [line]) m = <[FILE_NAME_PATTERN line := line]> (task_files input m).
Proof. unfold task_files. by rewrite foldl_app. Qed.

Lemma write_task_files_run input ws :
  all_file_names input ->
  write_task_files input ws
  = (inr tt, set_files Todo (task_files input (todo_folder ws)) ws).
Proof.
  intros Hnames. revert ws.
  induction Hnames as [|line input Hline _ IH]; intros ws.
  - by destruct ws.
  - simpl. unfold bind, write_file. rewrite Hline. rewrite IH.
    by destruct ws.
Qed.

(** The files of the populated folder are those named after a record. *)
Lemma task_files_is_Some input name :
  is_Some (task_files input ∅ !! name) <-> name ∈ map FILE_NAME_PATTERN input.
Proof.
  induction input as [|line input IH] using rev_ind.
  - simpl. rewrite lookup_empty. split; [by intros [? ?] | by intros ?%elem_of_nil].
  - rewrite task_files_snoc, map_app, elem_of_app. simpl.
    rewrite list_elem_of_singleton.
    destruct (decide (name = FILE_NAME_PATTERN line)) as [->|Hne].
    + rewrite lookup_insert_eq. split; eauto.
    + rewrite lookup_insert_ne by done. rewrite IH. tauto.
Qed.

Lemma task_files_dom input :
  dom (task_files input ∅) = list_to_set (map FILE_NAME_PATTERN input).
Proof.
  apply set_eq. intros name.
  by rewrite elem_of_dom, task_files_is_Some, elem_of_list_to_set.
Qed.

(** A record is the content of its file unless a later record has the same
    file name. *)
Lemma task_files_last_wins before line after m :
  FILE_NAME_PATTERN line ∉ map FILE_NAME_PATTERN after ->
  task_files (before ++ line :: after) m !! FILE_NAME_PATTERN line = Some line.
Proof.
  induction after as [|l after IH] using rev_ind; intros Hlater.
  - rewrite task_files_snoc. apply lookup_insert_eq.
  - rewrite map_app, not_elem_of_app in Hlater. destruct Hlater as [Hafter Hl].
    simpl in Hl. rewrite list_elem_of_singleton in Hl.
    replace (before ++ line :: after ++ [l]) with ((before ++ line :: after) ++ [l])
      by (by rewrite <- app_assoc).
    rewrite task_files_snoc, lookup_insert_ne by done. by apply IH.
Qed.

(** C2. [create_input_files] writes task files only into a workspace whose
    three folders are empty.  With a non-empty done next to an empty error
    and todo, or a non-empty error, or a non-empty todo, it returns without
    creating or changing any file; with the three folders empty it writes
    one file per record of the input under todo, and nothing elsewhere. *)
Theorem create_input_files_only_when_empty (input : list row) (ws : workspace) :
  ((done_folder ws <> ∅ /\ error_folder ws = ∅ /\ todo_folder ws = ∅)
   \/ error_folder ws <> ∅ \/ todo_folder ws <> ∅ ->
   create_input_files input ws = (inr tt, ws))
  /\ (all_empty ws -> all_file_names input ->
      create_input_files input ws = (inr tt, Workspace (task_files input ∅) ∅ ∅)
      /\ forall line, line ∈ input ->
           is_Some (task_files input ∅ !! FILE_NAME_PATTERN line))
  /\ ((create_input_files input ws).2 <> ws -> all_empty ws).
Proof.
  assert (~ all_empty ws -> create_input_files input ws = (inr tt, ws)) as Hskip.
  { intros Hne. unfold create_input_files, bind.
    rewrite should_recreate_files_run, bool_decide_eq_false_2 by done. done. }
  split; [|split].
  - intros Hcase. apply Hskip. unfold all_empty. intros (HT & HE & HD).
    destruct Hcase as [(? & _ & _)|[?|?]]; done.
  - intros Hempty Hnames. split.
    + unfold create_input_files, bind.
      rewrite should_recreate_files_run, bool_decide_eq_true_2 by done. simpl.
      rewrite write_task_files_run by done.
      destruct ws as [T E D], Hempty as (HT & HE & HD). simpl in *. by subst.
    + intros line Hline. apply task_files_is_Some.
      by apply list_elem_of_fmap_2.
  - intros Hchanged. destruct (decide (all_empty ws)) as [|Hne]; [done|].
    rewrite Hskip in Hchanged by done. done.
Qed.

Lemma composite_key_file_name l1 l2 :
  composite_key l1 = composite_key l2 -> FILE_NAME_PATTERN l1 = FILE_NAME_PATTERN l2.
Proof.
  unfold composite_key, FILE_NAME_PATTERN. intros H.
  injection H as -> -> -> -> ->. reflexivity.
Qed.

Lemma remove_dups_NoDup (l : list string) : NoDup l -> remove_dups l = l.
Proof.
  induction 1 as [|x l Hx _ IH]; [done|].
  simpl. destruct (decide_rel elem_of x l); [done | by rewrite IH].
Qed.

Lemma task_files_size input :
  size (task_files input ∅) = length (remove_dups (map FILE_NAME_PATTERN input)).
Proof.
  rewrite <- size_dom, task_files_dom.
  rewrite <- (size_list_to_set (C := gset string) (remove_dups _))
    by apply NoDup_remove_dups.
  f_equal. apply set_eq. intros name.
  by rewrite !elem_of_list_to_set, elem_of_remove_dups.
Qed.

(** What [create_input_files] leaves in todo, by file name.  Written into
    an empty workspace, an input of N records whose file names have no path
    separator leaves exactly one task file per distinct file name
    [domain-repository-format-namespace-package], all in todo: N files when
    the file names are pairwise different.  Records with the same composite
    key have the same file name, and of the records sharing a file name the
    last one is the content of the file. *)
Theorem create_input_files_one_file_per_name (input : list row) :
  all_file_names input ->
  exists ws',
    create_input_files input empty_workspace = (inr tt, ws')
    /\ error_folder ws' = ∅ /\ done_folder ws' = ∅
    /\ dom (todo_folder ws') = list_to_set (map FILE_NAME_PATTERN input)
    /\ size (todo_folder ws') = length (remove_dups (map FILE_NAME_PATTERN input))
    /\ (NoDup (map FILE_NAME_PATTERN input) -> size (todo_folder ws') = length input)
    /\ (forall l1 l2, composite_key l1 = composite_key l2 ->
          FILE_NAME_PATTERN l1 = FILE_NAME_PATTERN l2)
    /\ (forall before line after,
          input = before ++ line :: after ->
          FILE_NAME_PATTERN line ∉ map FILE_NAME_PATTERN after ->
          todo_folder ws' !! FILE_NAME_PATTERN line = Some line).
Proof.
  intros Hnames. exists (Workspace (task_files input ∅) ∅ ∅).
  split; [|split; [reflexivity|split; [reflexivity|]]].
  - unfold create_input_files, bind.
    rewrite should_recreate_files_run, bool_decide_eq_true_2 by done. simpl.
    by rewrite write_task_files_run.
  - simpl. split; [apply task_files_dom|]. split; [apply task_files_size|].
    split; [|split; [apply composite_key_file_name|]].
    + intros Hnodup. rewrite task_files_size.
      rewrite <- (length_map FILE_NAME_PATTERN input). f_equal.
      by apply remove_dups_NoDup.
    + intros before line after -> Hlater. by apply task_files_last_wins.
Qed.

(** A name is split at its first separator when what stands before it has
    none. *)
Lemma dash_split a b c d :
  no_dash a = true -> no_dash c = true ->
  a +:+ "-" +:+ b = c +:+ "-" +:+ d -> a = c /\ b = d.
Proof.
  assert (forall s, "" +:+ s = s) as Hnil by reflexivity.
  assert (forall x s t, String x s +:+ t = String x (s +:+ t)) as Hcons by reflexivity.
  revert c. induction a as [|x a IH]; intros [|y c] Ha Hc Heq;
    rewrite ?Hnil, ?Hcons, ?Hnil in Heq; simpl in Ha, Hc.
  - by injection Heq as ->.
  - injection Heq as <- _. discriminate.
  - injection Heq as -> _. discriminate.
  - injection Heq as -> Heq.
    destruct (Ascii.eqb y "-"); [discriminate|].
    destruct (IH c Ha Hc Heq) as [-> ->]. done.
Qed.

(** Within one repository, and with a format and a namespace free of the
    separator, the file name determines the composite key. *)
Lemma file_name_composite_key d r l1 l2 :
  named_by_key d r l1 -> named_by_key d r l2 ->
  FILE_NAME_PATTERN l1 = FILE_NAME_PATTERN l2 -> composite_key l1 = composite_key l2.
Proof.
  intros (Hd1 & Hr1 & Hf1 & Hn1) (Hd2 & Hr2 & Hf2 & Hn2).
  unfold FILE_NAME_PATTERN, composite_key.
  rewrite Hd1, Hd2, Hr1, Hr2. intros Heq.
  do 4 apply (inj (String.app _)) in Heq.
  destruct (dash_split _ _ _ _ Hf1 Hf2 Heq) as [-> Heq'].
  destruct (dash_split _ _ _ _ Hn1 Hn2 Heq') as [-> ->]. done.
Qed.

Lemma remove_dups_NoDup_length {A} `{EqDecision A} (l : list A) :
  NoDup l -> length (remove_dups l) = length l.
Proof.
  induction 1 as [|x l Hx _ IH]; [done|].
  simpl. destruct (decide_rel elem_of x l); [done | simpl; by rewrite IH].
Qed.

(** Two ways of naming the elements of a list that agree on which of them
    are the same give as many names. *)
Lemma remove_dups_length_fmap {A B C} `{EqDecision B, EqDecision C}
    (f : A -> B) (g : A -> C) (l : list A) :
  (forall x y, x ∈ l -> y ∈ l -> f x = f y <-> g x = g y) ->
  length (remove_dups (map f l)) = length (remove_dups (map g l)).
Proof.
  induction l as [|x l IH]; intros Hsame; [done|].
  assert (f x ∈ map f l <-> g x ∈ map g l) as Hx.
  { split; intros Hin; apply list_elem_of_fmap in Hin as (y & Heq & Hy);
      apply list_elem_of_fmap; exists y; (split; [|done]);
      apply (Hsame x y);
      solve [apply list_elem_of_here | by apply list_elem_of_further | done]. }
  assert (length (remove_dups (map f l)) = length (remove_dups (map g l))) as IH'.
  { apply IH. intros y z Hy Hz. apply Hsame; by apply list_elem_of_further. }
  simpl. destruct (decide_rel elem_of (f x) (map f l)) as [Hf|Hf];
    destruct (decide_rel elem_of (g x) (map g l)) as [Hg|Hg].
  - done.
  - by apply Hx in Hf.
  - by apply Hx in Hg.
  - simpl. by rewrite IH'.
Qed.

(** Where the file name determines the key, the workspace is created as
    the records' keys promise.  An input of N records of one repository,
    with formats and namespaces free of the separator, leaves one task file
    per distinct composite key, all in todo: N files when the keys are
    unique; and of the records with the same key the last one is the
    content of the file. *)
Theorem create_input_files_one_file_per_key (d r : string) (input : list row) :
  Forall (named_by_key d r) input ->
  all_file_names input ->
  exists ws',
    create_input_files input empty_workspace = (inr tt, ws')
    /\ error_folder ws' = ∅ /\ done_folder ws' = ∅
    /\ size (todo_folder ws') = length (remove_dups (map composite_key input))
    /\ (NoDup (map composite_key input) -> size (todo_folder ws') = length input)
    /\ (forall before line after,
          input = before ++ line :: after ->
          composite_key line ∉ map composite_key after ->
          todo_folder ws' !! FILE_NAME_PATTERN line = Some line).
Proof.
  intros Hkeyed Hnames. rewrite Forall_forall in Hkeyed.
  assert (forall x y, x ∈ input -> y ∈ input ->
            FILE_NAME_PATTERN x = FILE_NAME_PATTERN y <-> composite_key x = composite_key y)
    as Hsame.
  { intros x y Hx Hy. split; [|apply composite_key_file_name].
    apply (file_name_composite_key d r); by apply Hkeyed. }
  assert (size (task_files input ∅) = length (remove_dups (map composite_key input)))
    as Hsize.
  { rewrite task_files_size. by apply remove_dups_length_fmap. }
  exists (Workspace (task_files input ∅) ∅ ∅).
  split; [|split; [reflexivity|split; [reflexivity|]]].
  - unfold create_input_files, bind.
    rewrite should_recreate_files_run, bool_decide_eq_true_2 by done. simpl.
    by rewrite write_task_files_run.
  - simpl. split; [done|]. split.
    + intros Hnodup. rewrite Hsize, remove_dups_NoDup_length by done.
      apply length_map.
    + intros before line after Hinput Hlater. rewrite Hinput.
      apply task_files_last_wins. intros Hin.
      apply list_elem_of_fmap in Hin as (other & Heq & Hother).
      apply Hlater, list_elem_of_fmap. exists other. split; [|done].
      apply Hsame; [| |done]; rewrite Hinput, elem_of_app; right;
        [apply list_elem_of_here | by apply list_elem_of_further].
Qed.

(** C5 fails on the code.  The file name joins the five parts of the key
    with [-], which the parts may hold themselves: the npm packages
    [@a-b/c] and [@a/b-c] of one repository have different composite keys
    and one file name.  An input of these two records has unique keys, and
    workspace creation leaves one task file, not two: it holds the second
    record, and no file holds the first one, which is never processed. *)
Theorem distinct_keys_share_a_file :
  let input := [scoped_ab_c; scoped_a_bc] in
  NoDup (map composite_key input)
  /\ all_file_names input
  /\ FILE_NAME_PATTERN scoped_ab_c = FILE_NAME_PATTERN scoped_a_bc
  /\ exists ws',
       create_input_files input empty_workspace = (inr tt, ws')
       /\ size (todo_folder ws') = 1
       /\ size (todo_folder ws') <> length input
       /\ todo_folder ws' !! "d-r-npm-a-b-c" = Some scoped_a_bc
       /\ (forall name, todo_folder ws' !! name <> Some scoped_ab_c).
Proof.
  cbv zeta. split; [|split; [|split; [reflexivity|]]].
  - apply NoDup_cons. split; [|apply NoDup_singleton].
    rewrite list_elem_of_singleton. discriminate.
  - repeat constructor.
  - exists (Workspace (task_files [scoped_ab_c; scoped_a_bc] ∅) ∅ ∅).
    split.
    { vm_compute. reflexivity. }
    simpl. change (task_files [scoped_ab_c; scoped_a_bc] ∅)
      with (<["d-r-npm-a-b-c" := scoped_a_bc]>
              (<["d-r-npm-a-b-c" := scoped_ab_c]> (∅ : gmap string row))).
    rewrite insert_insert_eq, insert_empty, map_size_singleton.
    split; [done|]. split; [done|]. split; [apply lookup_singleton_eq|].
    intros name Hname. apply lookup_singleton_Some in Hname as [_ Hrow].
    discriminate.
Qed.

(** ** Setting up the directories *)

Section SetupWorkspace.
Import Directories.

Lemma isdir_true p fs : isdir p fs = true <-> p = [] \/ p ∈ fs.
Proof. unfold isdir. by rewrite bool_decide_eq_true. Qed.

Lemma isdir_union p q fs : isdir p fs = true -> isdir p ({[q]} ∪ fs) = true.
Proof. rewrite !isdir_true. set_solver. Qed.

Lemma isdir_new p fs : isdir p ({[p]} ∪ fs) = true.
Proof. rewrite isdir_true. set_solver. Qed.

Lemma os_mkdir_new p name fs :
  isdir p fs = true -> isdir (os_path_join p name) fs = false ->
  os_mkdir (os_path_join p name) fs = (inr tt, {[os_path_join p name]} ∪ fs).
Proof.
  intros Hp Hnew. unfold os_mkdir. rewrite Hnew.
  unfold os_path_join. by rewrite removelast_last, Hp.
Qed.

Lemma isdir_add_ne q p fs : q <> p -> isdir q ({[p]} ∪ fs) = isdir q fs.
Proof.
  intros Hne. unfold isdir. apply bool_decide_ext. set_solver.
Qed.

Lemma join_ne_self p name : os_path_join p name <> p.
Proof.
  unfold os_path_join. intros H%(f_equal length).
  rewrite length_app in H. simpl in H. lia.
Qed.

Lemma join_ne_parent p name name' :
  os_path_join (os_path_join p name) name' <> p.
Proof.
  unfold os_path_join. intros H%(f_equal length).
  rewrite !length_app in H. simpl in H. lia.
Qed.

Lemma join_ne p name name' :
  name <> name' -> os_path_join p name <> os_path_join p name'.
Proof.
  unfold os_path_join. intros Hne H. by apply app_inj_tail in H as [_ ?].
Qed.

(** The outcome of the first [try] block: the home directory exists
    afterwards, and nothing below it was created. *)
Lemma mkdir_home home fs :
  isdir (removelast home) fs = true ->
  exists fs0,
    try_except (os_mkdir home) pass_FileExistsError fs = (inr tt, fs0)
    /\ isdir home fs0 = true
    /\ (forall q, q <> home -> isdir q fs0 = isdir q fs).
Proof.
  intros Hparent. unfold try_except, os_mkdir.
  destruct (isdir home fs) eqn:Hh.
  - exists fs. done.
  - rewrite Hparent. exists ({[home]} ∪ fs).
    split; [done|]. split; [apply isdir_new|].
    intros q Hq. by apply isdir_add_ne.
Qed.

(** On a tree without the workspace directory, whose home is there or can
    be made, the three state directories are created. *)
Lemma setup_workspace_fresh home content_hash fs :
  isdir (removelast home) fs = true ->
  isdir (os_path_join home content_hash) fs = false ->
  (forall name, isdir (os_path_join (os_path_join home content_hash) name) fs = false) ->
  exists folders fs',
    setup_workspace home content_hash fs = (inr folders, fs')
    /\ state_directories_exist home content_hash fs'.
Proof.
  intros Hparent Hws Hchildren.
  destruct (mkdir_home home fs Hparent) as (fs0 & Hrun & Hh0 & Hsame).
  unfold setup_workspace. cbv zeta. unfold bind at 1. rewrite Hrun.
  pose (ws_dir := os_path_join home content_hash).
  assert (isdir ws_dir fs0 = false) as Hws0
    by (rewrite Hsame; [done | apply join_ne_self]).
  assert (forall name, isdir (os_path_join ws_dir name) fs0 = false) as Hch0
    by (intros name; rewrite Hsame; [done | apply join_ne_parent]).
  unfold bind, try_except, ret.
  rewrite (os_mkdir_new home content_hash fs0) by done. fold ws_dir.
  fold ws_dir in Hws, Hchildren.
  rewrite (os_mkdir_new ws_dir "todo");
    [| apply isdir_new | by rewrite isdir_add_ne by apply join_ne_self].
  rewrite (os_mkdir_new ws_dir "error");
    [| apply isdir_union, isdir_new
     | by rewrite !isdir_add_ne by (apply join_ne_self || by apply join_ne)].
  rewrite (os_mkdir_new ws_dir "done");
    [| do 2 apply isdir_union; apply isdir_new
     | by rewrite !isdir_add_ne by (apply join_ne_self || by apply join_ne)].
  eexists _, _. split; [reflexivity|].
  unfold state_directories_exist. fold ws_dir.
  split; [|split].
  - do 2 apply isdir_union. apply isdir_new.
  - apply isdir_union. apply isdir_new.
  - apply isdir_new.
Qed.

(** On a tree that has the three state directories, nothing is created and
    nothing is raised. *)
Lemma setup_workspace_complete home content_hash fs :
  isdir home fs = true ->
  isdir (os_path_join home content_hash) fs = true ->
  state_directories_exist home content_hash fs ->
  exists folders,
    setup_workspace home content_hash fs = (inr folders, fs)
    /\ state_directories_exist home content_hash fs.
Proof.
  intros Hh Hws Hdirs.
  unfold setup_workspace, bind, try_except, ret, os_mkdir. cbv zeta.
  rewrite Hh. simpl. rewrite Hws. simpl. eauto.
Qed.

(** C9 fails on the code.  When the workspace directory exists without
    its state directories, [setup_workspace] returns normally and creates
    none of them: the [FileExistsError] of the first [os.mkdir] of the
    second [try] block skips the three that follow.  The same happens when
    only [todo] is there: [error] and [done] are not created. *)
Theorem setup_workspace_skips_missing_state_directories :
  (exists folders,
     setup_workspace WORKSPACES_HOME sample_hash bare_workspace_dir
       = (inr folders, bare_workspace_dir))
  /\ isdir ["workspaces"; sample_hash; "todo"] bare_workspace_dir = false
  /\ isdir ["workspaces"; sample_hash; "error"] bare_workspace_dir = false
  /\ isdir ["workspaces"; sample_hash; "done"] bare_workspace_dir = false
  /\ ~ state_directories_exist WORKSPACES_HOME sample_hash
        (setup_workspace WORKSPACES_HOME sample_hash bare_workspace_dir).2
  /\ ~ state_directories_exist WORKSPACES_HOME sample_hash
        (setup_workspace WORKSPACES_HOME sample_hash todo_only_workspace_dir).2.
Proof.
  split; [eexists; vm_compute; reflexivity|].
  repeat split; try (vm_compute; reflexivity).
  - intros (H & _). vm_compute in H. discriminate.
  - intros (_ & H & _). vm_compute in H. discriminate.
Qed.

End SetupWorkspace.

(** ** The backup recorder *)

Section BackupRecorder.
Import BackupManager.

Lemma writerow_line package origin :
  DictWriter_writerow CSV_HEADER (line package origin) = inr (data_row (package, origin)).
Proof. destruct package, origin. vm_compute. reflexivity. Qed.

Lemma recorded_snoc schedule ev :
  recorded (schedule ++ [ev]) = recorded schedule ++ recorded [ev].
Proof. unfold recorded. by rewrite omap_app. Qed.

Lemma run_snoc schedule ev b : run (schedule ++ [ev]) b = step (run schedule b) ev.
Proof. unfold run. by rewrite foldl_app. Qed.

Lemma backup_invariant_run schedule :
  backup_invariant schedule (run schedule init_as_write).
Proof.
  induction schedule as [|ev schedule IH] using rev_ind; [done|].
  rewrite run_snoc. set (b := run schedule init_as_write) in *.
  unfold backup_invariant in *. rewrite recorded_snoc.
  destruct ev as [package origin|]; simpl.
  - destruct (writer_thread b).
    + destruct IH as (-> & -> & ->). done.
    + destruct IH as (consumed & -> & -> & Hflush).
      exists consumed. by rewrite app_assoc.
    + done.
  - rewrite app_nil_r. unfold _writer_thread.
    destruct (writer_thread b) eqn:Hw.
    + destruct IH as (-> & -> & <-). simpl. exists []. eauto.
    + destruct IH as (consumed & Hrec & Hfile & Hflush).
      destruct (task_queue b) as [|[package origin] rest] eqn:Hq.
      * rewrite Hw. exists consumed. by rewrite Hq.
      * rewrite writerow_line. simpl.
        exists (consumed ++ [(package, origin)]).
        rewrite Hrec, Hfile, <- app_assoc, map_app. simpl. eauto.
    + done.
Qed.

End BackupRecorder.

Lemma flushed_once_a_row_is_written schedule :
  let b := BackupManager.run schedule BackupManager.init_as_write in
  1 < length (BackupManager.target_file b) ->
  BackupManager.flushed b = BackupManager.target_file b.
Proof.
  intros b Hrow.
  pose proof (backup_invariant_run schedule) as Hinv. fold b in Hinv.
  unfold BackupManager.backup_invariant in Hinv.
  destruct (BackupManager.writer_thread b); [|  |done].
  - destruct Hinv as (Hfile & _). rewrite Hfile in Hrow. simpl in Hrow. lia.
  - destruct Hinv as (consumed & _ & Hfile & [Hflush|[-> _]]); [done|].
    rewrite Hfile in Hrow. simpl in Hrow. lia.
Qed.

Lemma writer_turn_writes_and_flushes b package origin rest :
  BackupManager.writer_thread b = BackupManager.InLoop ->
  BackupManager.task_queue b = (package, origin) :: rest ->
  BackupManager._writer_thread b
  = BackupManager.Backup rest
      (BackupManager.target_file b ++ [BackupManager.data_row (package, origin)])
      (BackupManager.target_file b ++ [BackupManager.data_row (package, origin)])
      BackupManager.InLoop.
Proof.
  intros Hw Hq. unfold BackupManager._writer_thread.
  by rewrite Hw, Hq, writerow_line.
Qed.

(** C6. After any interleaving of [do_backup] calls and turns of the
    writer thread, once the thread has started and every recorded tuple
    has been consumed, the backup file holds the header once, followed by
    one seven-field row per call, in the order of the calls, each with the
    key of its package and the restrictions it was recorded with.  There
    is a flush after every row: a turn of the writer thread that finds a
    tuple appends its row and leaves the whole file flushed, whatever is
    still queued, so that at every point of every interleaving a file that
    holds a data row is wholly on disk.  A [do_backup] call itself never
    touches the file or what was flushed. *)
Theorem backup_file_is_header_then_rows (schedule : list BackupManager.event) :
  let b := BackupManager.run schedule BackupManager.init_as_write in
  (BackupManager.writer_thread b <> BackupManager.AtHeader ->
   BackupManager.task_queue b = [] ->
   BackupManager.target_file b
     = CSV_HEADER :: map BackupManager.data_row (BackupManager.recorded schedule)
   /\ length (BackupManager.target_file b) = 1 + length (BackupManager.recorded schedule)
   /\ Forall (fun fields => length fields = 7) (BackupManager.target_file b)
   /\ (BackupManager.recorded schedule <> [] ->
       BackupManager.flushed b = BackupManager.target_file b))
  /\ (1 < length (BackupManager.target_file b) ->
      BackupManager.flushed b = BackupManager.target_file b)
  /\ (forall b0 package origin rest,
        BackupManager.writer_thread b0 = BackupManager.InLoop ->
        BackupManager.task_queue b0 = (package, origin) :: rest ->
        let b1 := BackupManager._writer_thread b0 in
        BackupManager.target_file b1
          = BackupManager.target_file b0 ++ [BackupManager.data_row (package, origin)]
        /\ BackupManager.flushed b1 = BackupManager.target_file b1
        /\ BackupManager.task_queue b1 = rest
        /\ BackupManager.writer_thread b1 = BackupManager.InLoop)
  /\ (forall b' package origin,
        let b'' := (BackupManager.do_backup package origin b').2 in
        BackupManager.target_file b'' = BackupManager.target_file b'
        /\ BackupManager.flushed b'' = BackupManager.flushed b'
        /\ BackupManager.task_queue b''
           = BackupManager.task_queue b' ++ [(package, origin)]).
Proof.
  intros b. split; [|split; [|split]].
  - intros Hstarted Hconsumed.
    pose proof (backup_invariant_run schedule) as Hinv. fold b in Hinv.
    unfold BackupManager.backup_invariant in Hinv.
    destruct (BackupManager.writer_thread b); [done| |done].
    destruct Hinv as (consumed & Hrec & Hfile & Hflush).
    rewrite Hconsumed, app_nil_r in Hrec. subst consumed.
    split; [done|]. split; [|split].
    + rewrite Hfile. simpl. by rewrite length_map.
    + rewrite Hfile. constructor; [done|].
      apply Forall_forall. intros fields Hin.
      apply list_elem_of_fmap in Hin as (task & -> & _). done.
    + intros Hne. destruct Hflush as [?|[? _]]; done.
  - apply flushed_once_a_row_is_written.
  - intros b0 package origin rest Hw Hq. cbv zeta.
    by rewrite (writer_turn_writes_and_flushes b0 package origin rest).
  - done.
Qed.

(** ** Processing tasks *)

(** No transition takes a file out of done or changes it there. *)
Lemma transit_done_kept op id ws u c :
  done_folder ws !! u = Some c -> done_folder (transit op id ws).2 !! u = Some c.
Proof.
  intros Hu.
  destruct (transit_cases op id ws)
    as [[e ->]|[(-> & _)|(src & dst & c' & Hne & Hsrc & Hs & Hd & ->)]];
    simpl; [done | done |].
  change (files Done (moved src dst id c' ws) !! u = Some c).
  unfold moved. rewrite moved_lookup by done.
  destruct (decide (u = id)) as [->|]; [|done].
  destruct (decide (Done = dst)) as [<-|]; [simpl in *; congruence|].
  by rewrite decide_False by done.
Qed.

Lemma move_to_done_returned item ws ws' :
  move_to_done item ws = (inr tt, ws') -> is_Some (done_folder ws' !! item).
Proof.
  unfold move_to_done, bind, os_path_exists, shutil_move. simpl.
  repeat case_match; intros; simplify_eq; simpl; rewrite lookup_insert_eq; eauto.
Qed.

Lemma reader_state item ws : (reader item ws).2 = ws.
Proof.
  unfold reader, bind, os_path_exists. simpl. by repeat case_match.
Qed.

Section Processing.
Import Dispatcher.
Context {Remote Response : Type}.
Variable args : arguments.
Variable client : CodeArtifactClient Remote Response.

Local Abbreviation world := (world Remote).
Local Abbreviation framed := (@framed Remote).

(** *** The frame rules of the monad *)

Lemma framed_ret {A} (R : world -> world -> Prop) (a : A) :
  Reflexive R -> framed R (ret a).
Proof. intros HR w. apply HR. Qed.

Lemma framed_raise {A} (R : world -> world -> Prop) (e : exn) :
  Reflexive R -> framed (A := A) R (raise e).
Proof. intros HR w. apply HR. Qed.

Lemma framed_bind {A B} (R : world -> world -> Prop) (m : M world A) (k : A -> M world B) :
  Transitive R -> framed R m -> (forall a, framed R (k a)) -> framed R (bind m k).
Proof.
  intros HR Hm Hk w. unfold bind. specialize (Hm w).
  destruct (m w) as [[e|a] w1]; [done|].
  etrans; [exact Hm | apply Hk].
Qed.

Lemma framed_try_except {A} (R : world -> world -> Prop) (m : M world A) (h : exn -> M world A) :
  Transitive R -> framed R m -> (forall e, framed R (h e)) -> framed R (try_except m h).
Proof.
  intros HR Hm Hh w. unfold try_except. specialize (Hm w).
  destruct (m w) as [[e|a] w1]; [|done].
  etrans; [exact Hm | apply Hh].
Qed.

#[local] Instance progress_refl : Reflexive (progress (Remote := Remote) args).
Proof.
  intros w. unfold progress. split; [done|]. split; [exists []; by rewrite app_nil_r|].
  split; [done|]. exists []. by rewrite app_nil_r.
Qed.

#[local] Instance progress_trans : Transitive (progress (Remote := Remote) args).
Proof.
  intros w1 w2 w3 (Hd1 & [q1 Hq1] & Hf1 & [c1 [Hc1 Ha1]]) (Hd2 & [q2 Hq2] & Hf2 & [c2 [Hc2 Ha2]]).
  split; [eauto|]. split; [exists (q1 ++ q2); by rewrite Hq2, Hq1, app_assoc|].
  split; [congruence|]. exists (c1 ++ c2). split; [by rewrite Hc2, Hc1, app_assoc|].
  intros Hdry. apply Forall_app. eauto.
Qed.

#[local] Instance workspace_kept_refl : Reflexive (workspace_kept (Remote := Remote)).
Proof. by intros w. Qed.

#[local] Instance workspace_kept_trans : Transitive (workspace_kept (Remote := Remote)).
Proof. unfold workspace_kept. intros w1 w2 w3 ? ?. congruence. Qed.

(** *** What every step of the processing keeps *)

Lemma framed_reader (R : world -> world -> Prop) item :
  Reflexive R -> framed R (in_workspace (reader item)).
Proof.
  intros HR w. unfold in_workspace.
  pose proof (reader_state item (the_workspace w)) as Hst.
  destruct (reader item (the_workspace w)) as [r ws]. simpl in *. subst ws.
  destruct w. apply HR.
Qed.

Lemma progress_transit op item :
  framed (progress args) (in_workspace (transit op item)).
Proof.
  intros w. unfold in_workspace.
  pose proof (fun u c => transit_done_kept op item (the_workspace w) u c) as Hkept.
  destruct (transit op item (the_workspace w)) as [r ws]. simpl in *.
  split; [done|]. split; [exists []; by rewrite app_nil_r|]. split; [done|].
  exists []. by rewrite app_nil_r.
Qed.

Lemma only_stdin_progress (w : world) rest : progress args w (after_input rest w).
Proof.
  split; [done|]. split; [exists []; by rewrite app_nil_r|]. split; [done|].
  exists []. by rewrite app_nil_r.
Qed.

Lemma progress_get_user_confirmation :
  framed (progress args) get_user_confirmation.
Proof.
  intros w. unfold get_user_confirmation, bind, input.
  destruct (stdin w) as [|user_choice rest]; [reflexivity|].
  change (World _ rest _ _ _) with (after_input rest w).
  repeat case_match; apply only_stdin_progress.
Qed.

Lemma workspace_kept_get_user_confirmation :
  framed workspace_kept get_user_confirmation.
Proof.
  intros w. unfold get_user_confirmation, bind, input.
  destruct (stdin w) as [|user_choice rest]; [reflexivity|].
  by repeat case_match.
Qed.

Lemma progress_in_remote {A} (m : M Remote A) : framed (progress args) (in_remote m).
Proof.
  intros w. unfold in_remote. destruct (m (remote w)) as [r rem]. simpl.
  split; [done|]. split; [exists []; by rewrite app_nil_r|]. split; [done|].
  exists []. by rewrite app_nil_r.
Qed.

Lemma progress_get_restrictions kwargs :
  framed (progress args) (get_restrictions client kwargs).
Proof.
  unfold get_restrictions. apply framed_bind; [apply _| |].
  - intros w. simpl. split; [done|]. split; [exists []; by rewrite app_nil_r|].
    split; [done|]. exists [GetRestrictions kwargs]. split; [done|].
    intros _. by repeat constructor.
  - intros _. case_match; [apply framed_raise, _ | apply progress_in_remote].
Qed.

Lemma workspace_kept_get_restrictions kwargs :
  framed workspace_kept (get_restrictions client kwargs).
Proof.
  intros w. unfold get_restrictions, bind, entered, in_remote, raise. simpl.
  case_match; [done|]. by case_match.
Qed.

Lemma progress_apply_restrictions kwargs :
  dry_run args = false -> framed (progress args) (apply_restrictions client kwargs).
Proof.
  intros Hwet. unfold apply_restrictions. apply framed_bind; [apply _| |].
  - intros w. simpl. split; [done|]. split; [exists []; by rewrite app_nil_r|].
    split; [done|]. exists [ApplyRestrictions kwargs]. split; [done|].
    rewrite Hwet. discriminate.
  - intros _. case_match; [apply framed_raise, _ | apply progress_in_remote].
Qed.

Lemma workspace_kept_apply_restrictions kwargs :
  framed workspace_kept (apply_restrictions client kwargs).
Proof.
  intros w. unfold apply_restrictions, bind, entered, in_remote, raise. simpl.
  case_match; [done|]. by case_match.
Qed.

Lemma progress_do_backup package origin :
  framed (progress args) (in_backup (do_backup package origin)).
Proof.
  intros w. simpl. split; [done|]. split; [by eexists|]. split; [done|].
  exists []. by rewrite app_nil_r.
Qed.

Local Abbreviation reader_of_run :=
  (fun filename : string => in_workspace (Remote := Remote) (reader filename)).

Lemma progress_try_block item backup_manager :
  framed (progress args) (try_block args client item reader_of_run backup_manager).
Proof.
  unfold try_block.
  apply framed_bind; [apply _| |].
  { destruct (ask_confirmation args); [|apply framed_ret, _].
    apply framed_bind; [apply _|apply progress_get_user_confirmation|].
    intros ?. apply framed_ret, _. }
  intros declined. destruct declined; [apply framed_ret, _|].
  apply framed_bind; [apply _| |].
  { destruct backup_manager; [|apply framed_ret, _].
    apply framed_bind; [apply _|apply framed_reader, _|]. intros package.
    apply framed_bind; [apply _|apply framed_reader, _|]. intros kwargs.
    apply framed_bind; [apply _|apply progress_get_restrictions|]. intros origin.
    apply progress_do_backup. }
  intros _. destruct (dry_run args) eqn:Hdry; simpl; [apply framed_ret, _|].
  apply framed_bind; [apply _|apply framed_reader, _|]. intros kwargs.
  apply framed_bind; [apply _|by apply progress_apply_restrictions|]. intros res.
  apply framed_ret, _.
Qed.

Lemma workspace_kept_try_block item backup_manager :
  framed workspace_kept (try_block args client item reader_of_run backup_manager).
Proof.
  unfold try_block.
  apply framed_bind; [apply _| |].
  { destruct (ask_confirmation args); [|apply framed_ret, _].
    apply framed_bind; [apply _|apply workspace_kept_get_user_confirmation|].
    intros ?. apply framed_ret, _. }
  intros declined. destruct declined; [apply framed_ret, _|].
  apply framed_bind; [apply _| |].
  { destruct backup_manager; [|apply framed_ret, _].
    apply framed_bind; [apply _|apply framed_reader, _|]. intros package.
    apply framed_bind; [apply _|apply framed_reader, _|]. intros kwargs.
    apply framed_bind; [apply _|apply workspace_kept_get_restrictions|]. intros origin.
    by intros w. }
  intros _. destruct (dry_run args) eqn:Hdry; simpl; [apply framed_ret, _|].
  apply framed_bind; [apply _|apply framed_reader, _|]. intros kwargs.
  apply framed_bind; [apply _|by apply workspace_kept_apply_restrictions|]. intros res.
  apply framed_ret, _.
Qed.

Lemma progress_run_individual_task item backup_manager :
  framed (progress args) (run_individual_task args client (handle item) backup_manager).
Proof.
  unfold run_individual_task, handle.
  apply framed_bind; [apply _| |].
  - apply framed_try_except; [apply _|apply progress_try_block|].
    intros e. apply framed_bind; [apply _|apply (progress_transit MarkError)|].
    intros _. apply framed_ret, _.
  - intros [returned|res]; [apply framed_ret, _|].
    apply framed_bind; [apply _|apply (progress_transit MarkDone)|].
    intros _. apply framed_ret, _.
Qed.

Lemma progress_dispatch_task item backup_manager :
  framed (progress args) (dispatch_task args client backup_manager (handle item)).
Proof.
  unfold dispatch_task. apply framed_bind; [apply _|apply progress_run_individual_task|].
  intros [[? ?] ?]. apply framed_ret, _.
Qed.

Lemma progress_thread_map items backup_manager :
  framed (progress args)
    (thread_map (dispatch_task args client backup_manager) (map handle items)).
Proof.
  induction items as [|item items IH]; simpl; [apply framed_ret, _|].
  apply framed_bind; [apply _|apply progress_dispatch_task|]. intros success.
  apply framed_bind; [apply _|apply IH|]. intros proc. apply framed_ret, _.
Qed.

(** *** The confirmation reader *)

Lemma get_user_confirmation_run (w : world) user_choice rest :
  stdin w = user_choice :: rest ->
  get_user_confirmation w
  = (if bool_decide (user_choice ∈ ["Y"; "y"; "N"; "n"])
     then inr (negb (bool_decide (user_choice ∈ ["N"; "n"])))
     else inl (Exception (" " +:+ user_choice +:+ " is not a valid input.")),
     after_input rest w).
Proof.
  intros Hin. unfold get_user_confirmation, bind, input. rewrite Hin.
  by repeat case_bool_decide.
Qed.

Lemma no_is_valid (user_choice : string) :
  user_choice ∈ ["N"; "n"] -> user_choice ∈ ["Y"; "y"; "N"; "n"].
Proof. rewrite !elem_of_cons. tauto. Qed.

Lemma try_block_declined item rd backup_manager (w : world) no rest :
  ask_confirmation args = true -> stdin w = no :: rest -> no ∈ ["N"; "n"] ->
  try_block args client item rd backup_manager w
  = (inr (inl (item, None, false)), after_input rest w).
Proof.
  intros Hask Hin Hno. unfold try_block. rewrite Hask. unfold bind at 1 2.
  rewrite (get_user_confirmation_run w no rest Hin).
  rewrite bool_decide_eq_true_2 by by apply no_is_valid.
  by rewrite bool_decide_eq_true_2 by done.
Qed.

Lemma try_block_invalid item rd backup_manager (w : world) user_choice rest :
  ask_confirmation args = true -> stdin w = user_choice :: rest ->
  user_choice ∉ ["Y"; "y"; "N"; "n"] ->
  try_block args client item rd backup_manager w
  = (inl (Exception (" " +:+ user_choice +:+ " is not a valid input.")),
     after_input rest w).
Proof.
  intros Hask Hin Hbad. unfold try_block. rewrite Hask. unfold bind at 1 2.
  rewrite (get_user_confirmation_run w user_choice rest Hin).
  by rewrite bool_decide_eq_false_2 by done.
Qed.

(** A declined task: no callback runs, whatever the callbacks are. *)
Lemma run_individual_task_declined (t : task world) backup_manager (w : world) no rest :
  ask_confirmation args = true -> stdin w = no :: rest -> no ∈ ["N"; "n"] ->
  run_individual_task args client t backup_manager w
  = (inr (t.1.1.1, None, false), after_input rest w).
Proof.
  intros Hask Hin Hno. destruct t as [[[item rd] done_callback] error_callback].
  unfold run_individual_task, bind, try_except.
  by rewrite (try_block_declined item rd backup_manager w no rest).
Qed.

Lemma thread_map_app f (before after : list (task world)) (w0 w1 w2 : world) proc1 proc2 :
  thread_map f before w0 = (inr proc1, w1) ->
  thread_map f after w1 = (inr proc2, w2) ->
  thread_map f (before ++ after) w0 = (inr (proc1 ++ proc2), w2).
Proof.
  revert w0 proc1. induction before as [|t before IH]; intros w0 proc1; simpl.
  - unfold ret. intros ? ?. by simplify_eq.
  - unfold bind, ret. destruct (f t w0) as [[e|success] w]; [done|].
    destruct (thread_map f before w) as [[e|proc] w'] eqn:Hbefore; [done|].
    intros ? Hafter. simplify_eq. by rewrite (IH _ _ Hbefore Hafter).
Qed.

Lemma summary_app proc1 proc2 :
  summary (proc1 ++ proc2)
  = ((summary proc1).1.1 + (summary proc2).1.1,
     (summary proc1).1.2 + (summary proc2).1.2,
     (summary proc1).2 + (summary proc2).2).
Proof.
  unfold summary. simpl. by rewrite !List.filter_app, !length_app.
Qed.

(** A task whose confirmation answer is not valid: the exception is caught
    and the error callback of the handle runs. *)
Lemma run_individual_task_invalid item backup_manager (w : world) user_choice rest :
  ask_confirmation args = true -> stdin w = user_choice :: rest ->
  user_choice ∉ ["Y"; "y"; "N"; "n"] ->
  run_individual_task args client (handle item) backup_manager w
  = match move_to_error item (the_workspace w) with
    | (inr _, ws') => (inr (item, None, false), with_workspace ws' (after_input rest w))
    | (inl e, ws') => (inl e, with_workspace ws' (after_input rest w))
    end.
Proof.
  intros Hask Hin Hbad.
  unfold run_individual_task, handle, bind, try_except.
  rewrite (try_block_invalid item _ backup_manager w user_choice rest) by done.
  unfold in_workspace, ret. simpl.
  by destruct (move_to_error item (the_workspace w)) as [[e|[]] ws'].
Qed.

Lemma move_to_error_from_todo item c ws :
  todo_folder ws !! item = Some c -> error_folder ws !! item = None ->
  move_to_error item ws = (inr tt, moved Todo Error item c ws).
Proof.
  intros HT HE. unfold move_to_error, bind, os_path_exists, shutil_move. simpl.
  rewrite HE. rewrite bool_decide_eq_false_2 by (by intros [? ?]). simpl.
  by rewrite HT, HE.
Qed.

(** *** A task that goes ahead *)

Lemma in_workspace_reader item (w : world) :
  in_workspace (reader item) w = ((reader item (the_workspace w)).1, w).
Proof.
  unfold in_workspace.
  pose proof (reader_state item (the_workspace w)) as Hst.
  destruct (reader item (the_workspace w)) as [r ws]. simpl in *. subst ws.
  by destruct w.
Qed.

Lemma reader_from src item kwargs ws :
  files src ws !! item = Some kwargs ->
  src = Todo \/ (src = Error /\ todo_folder ws !! item = None) ->
  reader item ws = (inr kwargs, ws).
Proof.
  intros Hfile Hsrc. unfold reader, bind, os_path_exists. simpl.
  destruct Hsrc as [->|[-> HT]]; simpl in Hfile.
  - rewrite bool_decide_eq_true_2 by eauto. simpl. by rewrite Hfile.
  - rewrite HT. rewrite bool_decide_eq_false_2 by (by intros [? ?]). simpl.
    by rewrite Hfile.
Qed.

Lemma move_to_done_from src item kwargs ws :
  files src ws !! item = Some kwargs ->
  src = Todo \/ (src = Error /\ todo_folder ws !! item = None) ->
  done_folder ws !! item = None ->
  move_to_done item ws = (inr tt, moved src Done item kwargs ws).
Proof.
  intros Hfile Hsrc HD. unfold move_to_done, bind, os_path_exists, shutil_move. simpl.
  destruct Hsrc as [->|[-> HT]]; simpl in Hfile.
  - rewrite bool_decide_eq_true_2 by eauto. simpl. by rewrite HD, Hfile.
  - rewrite HT. rewrite bool_decide_eq_false_2 by (by intros [? ?]). simpl.
    by rewrite HD, Hfile.
Qed.

Lemma confirmation_phase (w w1 : world) :
  confirmed args w w1 ->
  (if ask_confirmation args
   then bind get_user_confirmation (fun confirmed => ret (negb confirmed))
   else ret false) w = (inr false, w1)
  /\ the_workspace w1 = the_workspace w /\ remote w1 = remote w
  /\ calls w1 = calls w /\ the_backup w1 = the_backup w.
Proof.
  intros [[-> ->]|(-> & yes & rest & Hin & Hyes & ->)]; [done|].
  split; [|done]. unfold bind. rewrite (get_user_confirmation_run w yes rest Hin).
  assert (yes ∈ ["Y"; "y"; "N"; "n"]) by (revert Hyes; rewrite !elem_of_cons; tauto).
  assert (yes ∉ ["N"; "n"]).
  { revert Hyes. rewrite !elem_of_cons, !elem_of_nil.
    intros [->|[->|[]]] [?|[?|[]]]; discriminate. }
  rewrite bool_decide_eq_true_2 by done.
  by rewrite bool_decide_eq_false_2 by done.
Qed.

Lemma get_restrictions_fetched kwargs origin rem (w : world) :
  domain kwargs = DOMAIN client ->
  describe_package (codeartifact_client client)
    (Request (domain kwargs) (repository kwargs) (format kwargs) (package_name kwargs)
       (namespace_argument (namespace kwargs)) None) (remote w) = (inr origin, rem) ->
  get_restrictions client kwargs w
  = (inr origin,
     World (the_workspace w) (stdin w) rem (calls w ++ [GetRestrictions kwargs])
       (the_backup w)).
Proof.
  intros Hdomain Hdescribe. unfold get_restrictions, bind, entered, in_remote. simpl.
  rewrite bool_decide_eq_true_2 by done. simpl. by rewrite Hdescribe.
Qed.

(** The try block of a dry run that goes ahead. *)
Lemma try_block_dry_run item kwargs backup_manager origin rem (w w1 : world) :
  dry_run args = true ->
  confirmed args w w1 ->
  reader item (the_workspace w) = (inr kwargs, the_workspace w) ->
  (backup_manager = true ->
   domain kwargs = DOMAIN client
   /\ describe_package (codeartifact_client client)
        (Request (domain kwargs) (repository kwargs) (format kwargs) (package_name kwargs)
           (namespace_argument (namespace kwargs)) None) (remote w) = (inr origin, rem)) ->
  try_block args client item reader_of_run backup_manager w
  = (inr (inr None), if backup_manager then backed_up kwargs origin rem w1 else w1).
Proof.
  intros Hdry Hconf Hread Hfetch.
  destruct (confirmation_phase w w1 Hconf) as (Hphase & Hws & Hrem & Hcalls & Hbackup).
  unfold try_block. unfold bind at 1. rewrite Hphase. rewrite Hdry. simpl.
  destruct backup_manager; [|done].
  destruct Hfetch as [Hdomain Hdescribe]; [done|].
  unfold bind. rewrite !in_workspace_reader, Hws, Hread. simpl.
  rewrite <- Hrem in Hdescribe.
  rewrite (get_restrictions_fetched kwargs origin rem w1) by done.
  done.
Qed.

(** *** Tasks that succeeded *)

Lemma workspace_kept_confirmation :
  framed workspace_kept
    (if ask_confirmation args
     then bind get_user_confirmation (fun confirmed => ret (negb confirmed))
     else ret false).
Proof.
  destruct (ask_confirmation args); [|apply framed_ret, _].
  apply framed_bind; [apply _|apply workspace_kept_get_user_confirmation|].
  intros ?. apply framed_ret, _.
Qed.

Lemma try_block_returned item backup_manager r (w w1 : world) :
  try_block args client item reader_of_run backup_manager w = (inr (inl r), w1) ->
  r = (item, None, false).
Proof.
  unfold try_block, bind, ret.
  repeat (case_match; simplify_eq; try done); intros; by simplify_eq.
Qed.

Lemma get_restrictions_entered kwargs origin (w w' : world) :
  get_restrictions client kwargs w = (inr origin, w') ->
  GetRestrictions kwargs ∈ calls w'
  /\ the_backup w' = the_backup w /\ the_workspace w' = the_workspace w.
Proof.
  unfold get_restrictions, bind, entered, in_remote, raise. simpl.
  case_match; [done|]. case_match. intros. simplify_eq. simpl.
  split; [|done]. apply elem_of_app. right. by apply list_elem_of_singleton.
Qed.

Lemma try_block_fell_through item backup_manager res (w w1 : world) :
  dry_run args = true ->
  try_block args client item reader_of_run backup_manager w = (inr (inr res), w1) ->
  the_workspace w1 = the_workspace w
  /\ (backup_manager = true ->
      exists kwargs,
        reader item (the_workspace w) = (inr kwargs, the_workspace w)
        /\ GetRestrictions kwargs ∈ calls w1
        /\ exists origin, (kwargs, origin) ∈ task_queue (the_backup w1)).
Proof.
  intros Hdry Htry. split.
  { pose proof (workspace_kept_try_block item backup_manager w) as Hkept.
    by rewrite Htry in Hkept. }
  intros ->. revert Htry. unfold try_block. rewrite Hdry. simpl.
  unfold bind at 1.
  pose proof (workspace_kept_confirmation w) as Hask.
  match goal with |- context [(if ask_confirmation args then ?m else ?m') w] =>
    destruct ((if ask_confirmation args then m else m') w) as [[e|declined] w0] eqn:H0
  end; [done|].
  unfold workspace_kept in Hask. simpl in Hask.
  destruct declined; [done|].
  unfold bind. rewrite !in_workspace_reader.
  destruct (reader item (the_workspace w0)) as [[e|kwargs] ws0] eqn:Hread; simpl; [done|].
  destruct (get_restrictions client kwargs w0) as [[e|origin] w2] eqn:Hget; [done|].
  simpl. unfold ret. intros Heq. simplify_eq.
  apply get_restrictions_entered in Hget as (Hin & Hb & Hws).
  rewrite Hask in Hread.
  pose proof (reader_state item (the_workspace w)) as Hst. rewrite Hread in Hst.
  simpl in Hst. subst ws0.
  exists kwargs. split; [done|]. split; [done|].
  exists origin. simpl. apply elem_of_app. right. by apply list_elem_of_singleton.
Qed.

Lemma move_to_done_of_read item kwargs ws ws' :
  (reader item ws).1 = inr kwargs ->
  move_to_done item ws = (inr tt, ws') ->
  done_folder ws' !! item = Some kwargs.
Proof.
  unfold reader, move_to_done, bind, os_path_exists, shutil_move. simpl.
  repeat case_match; simpl; intros; simplify_eq; simpl;
    by rewrite lookup_insert_eq.
Qed.

Lemma in_workspace_returned {A} (m : M workspace A) (w w' : world) a :
  in_workspace m w = (inr a, w') ->
  m (the_workspace w) = (inr a, the_workspace w')
  /\ calls w' = calls w /\ the_backup w' = the_backup w.
Proof.
  unfold in_workspace. destruct (m (the_workspace w)) as [r ws].
  intros. by simplify_eq.
Qed.

(** A task of a dry run whose outcome is [True] is in done afterwards,
    and recorded when the backup is enabled. *)
Lemma run_individual_task_succeeded item backup_manager id res (w w' : world) :
  dry_run args = true ->
  run_individual_task args client (handle item) backup_manager w
    = (inr (id, res, true), w') ->
  done_and_recorded backup_manager item w'.
Proof.
  intros Hdry. unfold run_individual_task, handle, bind, try_except.
  destruct (try_block args client item reader_of_run backup_manager w)
    as [[e|[returned|res']] w1] eqn:Htry.
  - destruct (in_workspace (move_to_error item) w1) as [[e'|[]] w2]; [done|].
    unfold ret. intros. simplify_eq.
  - apply try_block_returned in Htry as ->. unfold ret. intros. simplify_eq.
  - destruct (in_workspace (move_to_done item) w1) as [[e'|[]] w2] eqn:Hdone; [done|].
    unfold ret. intros [= <- <- <-].
    apply in_workspace_returned in Hdone as (Hdone & Hcalls & Hbackup).
    apply (try_block_fell_through item backup_manager res') in Htry as [Hws Hrec];
      [|done].
    rewrite Hws in Hdone.
    destruct backup_manager.
    + destruct Hrec as (kwargs & Hread & Hcall & origin & Hqueue); [done|].
      exists kwargs. split.
      * apply (move_to_done_of_read item kwargs (the_workspace w)); [by rewrite Hread|done].
      * intros _. rewrite Hcalls, Hbackup. eauto.
    + apply move_to_done_returned in Hdone as [kwargs Hk].
      exists kwargs. split; [done|]. intros ?. done.
Qed.

Lemma done_and_recorded_progress backup_manager item (w w' : world) :
  progress args w w' ->
  done_and_recorded backup_manager item w ->
  done_and_recorded backup_manager item w'.
Proof.
  intros (Hdone & [q Hq] & _ & [cs [Hcs _]]) (kwargs & Hk & Hrec).
  exists kwargs. split; [by apply Hdone|].
  intros Hbm. destruct (Hrec Hbm) as (Hcall & origin & Hqueue).
  split.
  - rewrite Hcs. apply elem_of_app. by left.
  - exists origin. rewrite Hq. apply elem_of_app. by left.
Qed.

Lemma thread_map_succeeded items backup_manager proc (w w' : world) :
  dry_run args = true ->
  thread_map (dispatch_task args client backup_manager) (map handle items) w
    = (inr proc, w') ->
  length proc = length items
  /\ forall i item,
       items !! i = Some item -> proc !! i = Some true ->
       done_and_recorded backup_manager item w'.
Proof.
  intros Hdry. revert w proc.
  induction items as [|item0 items IH]; intros w proc; simpl.
  - unfold ret. intros. simplify_eq. split; [done|]. intros i item Hi. done.
  - unfold bind at 1. unfold dispatch_task at 1. unfold bind at 1.
    destruct (run_individual_task args client (handle item0) backup_manager w)
      as [[e|[[id res] success]] w1] eqn:Hrun; [done|].
    unfold ret at 1. unfold bind.
    pose proof (progress_thread_map items backup_manager w1) as Hrest.
    destruct (thread_map (dispatch_task args client backup_manager) (map handle items) w1)
      as [[e|proc'] w2] eqn:Hmap; [done|].
    unfold ret. intros. simplify_eq. simpl in Hrest.
    destruct (IH _ _ Hmap) as [Hlen Hitems].
    split; [simpl; by rewrite Hlen|].
    intros [|i] item Hi Hp; simpl in *; simplify_eq; [|by eapply Hitems].
    apply (done_and_recorded_progress backup_manager item w1 w'); [done|].
    by apply (run_individual_task_succeeded item backup_manager id res w).
Qed.

Lemma progress_no_apply (w w' : world) :
  dry_run args = true -> progress args w w' ->
  List.filter is_apply (calls w') = List.filter is_apply (calls w).
Proof.
  intros Hdry (_ & _ & _ & [cs [-> Hcs]]).
  rewrite List.filter_app.
  assert (List.filter is_apply cs = []) as ->; [|by rewrite app_nil_r].
  specialize (Hcs Hdry). induction Hcs as [|c cs Hc _ IH]; [done|].
  simpl. by rewrite Hc.
Qed.

(** A task of a dry run that goes ahead and whose restrictions can be
    fetched. *)
Lemma run_individual_task_dry_run item src kwargs backup_manager origin rem (w w1 : world) :
  dry_run args = true ->
  confirmed args w w1 ->
  files src (the_workspace w) !! item = Some kwargs ->
  src = Todo \/ (src = Error /\ todo_folder (the_workspace w) !! item = None) ->
  done_folder (the_workspace w) !! item = None ->
  (backup_manager = true ->
   domain kwargs = DOMAIN client
   /\ describe_package (codeartifact_client client)
        (Request (domain kwargs) (repository kwargs) (format kwargs) (package_name kwargs)
           (namespace_argument (namespace kwargs)) None) (remote w) = (inr origin, rem)) ->
  run_individual_task args client (handle item) backup_manager w
  = (inr (item, None, true),
     with_workspace (moved src Done item kwargs (the_workspace w))
       (if backup_manager then backed_up kwargs origin rem w1 else w1)).
Proof.
  intros Hdry Hconf Hfile Hsrc Hdone Hfetch.
  destruct (confirmation_phase w w1 Hconf) as (_ & Hws & _).
  unfold run_individual_task, handle, bind, try_except.
  rewrite (try_block_dry_run item kwargs backup_manager origin rem w w1)
    by (done || by apply (reader_from src)).
  unfold in_workspace.
  assert (the_workspace (if backup_manager then backed_up kwargs origin rem w1 else w1)
          = the_workspace w) as -> by (by destruct backup_manager).
  by rewrite (move_to_done_from src item kwargs).
Qed.

(** The task generator yields the handles of the files listed in todo, or
    in error for a retry, and changes nothing. *)
Lemma task_generator_run (w : world) :
  task_generator args w
  = (inr (map handle
            (map fst (map_to_list (files (if retry_failed args then Error else Todo)
                                     (the_workspace w))))), w).
Proof.
  unfold task_generator, bind, in_workspace, get_failed_tasks, get_tasks, bind,
    os_listdir, ret.
  destruct (retry_failed args); simpl; destruct w; simpl;
    by rewrite map_map.
Qed.

End Processing.

(** C4, as the code has it.  With interactive confirmation enabled, a
    negative answer ends the processing of the task with no transition:
    neither callback is called, whatever the callbacks are, and nothing but
    the consumed answer changes.  The outcome of the task is [False]; in
    the totals of the end-of-run message it is counted among the tasks
    processed and among the failures, and not among the successes. *)
Theorem declined_task_stays_and_counts_as_failure
    {Remote Response : Type} (args : Dispatcher.arguments)
    (client : Dispatcher.CodeArtifactClient Remote Response)
    (t : task (Dispatcher.world Remote)) (backup_manager : bool)
    (w : Dispatcher.world Remote) (no : string) (rest : list string) :
  Dispatcher.ask_confirmation args = true ->
  Dispatcher.stdin w = no :: rest ->
  no ∈ ["N"; "n"] ->
  Dispatcher.run_individual_task args client t backup_manager w
    = (inr (t.1.1.1, None, false), Dispatcher.after_input rest w)
  /\ Dispatcher.dispatch_task args client backup_manager t w
      = (inr false, Dispatcher.after_input rest w)
  /\ (forall before after w0 w' proc1 proc2,
        let f := Dispatcher.dispatch_task args client backup_manager in
        Dispatcher.thread_map f before w0 = (inr proc1, w) ->
        Dispatcher.thread_map f after (Dispatcher.after_input rest w) = (inr proc2, w') ->
        Dispatcher.thread_map f (before ++ t :: after) w0
          = (inr (proc1 ++ false :: proc2), w')
        /\ Dispatcher.summary (proc1 ++ false :: proc2)
           = (S ((Dispatcher.summary proc1).1.1 + (Dispatcher.summary proc2).1.1),
              (Dispatcher.summary proc1).1.2 + (Dispatcher.summary proc2).1.2,
              S ((Dispatcher.summary proc1).2 + (Dispatcher.summary proc2).2))).
Proof.
  intros Hask Hin Hno.
  pose proof (run_individual_task_declined args client t backup_manager w no rest
                Hask Hin Hno) as Hrun.
  assert (Dispatcher.dispatch_task args client backup_manager t w
          = (inr false, Dispatcher.after_input rest w)) as Hdispatch.
  { unfold Dispatcher.dispatch_task, bind. by rewrite Hrun. }
  split; [done|]. split; [done|].
  intros before after w0 w' proc1 proc2 f Hbefore Hafter. split.
  - apply (thread_map_app f before (t :: after) w0 w w'); [done|].
    simpl. unfold bind. fold f in Hdispatch. by rewrite Hdispatch, Hafter.
  - rewrite summary_app. unfold Dispatcher.summary. simpl.
    repeat f_equal; lia.
Qed.

(** C10. With interactive confirmation enabled, an answer other than [Y],
    [y], [N] and [n] makes the confirmation reader raise.  While a task is
    processed the exception is caught and the error callback is called:
    the task file goes from todo to error (and stays in error if it was
    there), the outcome is [False], and neither the registry nor the backup
    is touched.  An answer [N] or [n] instead leaves the task file where it
    was. *)
Theorem invalid_answer_marks_error
    {Remote Response : Type} (args : Dispatcher.arguments)
    (client : Dispatcher.CodeArtifactClient Remote Response)
    (item : string) (backup_manager : bool)
    (w : Dispatcher.world Remote) (user_choice : string) (rest : list string) :
  Dispatcher.ask_confirmation args = true ->
  Dispatcher.stdin w = user_choice :: rest ->
  user_choice ∉ ["Y"; "y"; "N"; "n"] ->
  Dispatcher.get_user_confirmation w
    = (inl (Exception (" " +:+ user_choice +:+ " is not a valid input.")),
       Dispatcher.after_input rest w)
  /\ Dispatcher.run_individual_task args client (Dispatcher.handle item) backup_manager w
     = match move_to_error item (Dispatcher.the_workspace w) with
       | (inr _, ws') =>
           (inr (item, None, false),
            Dispatcher.with_workspace ws' (Dispatcher.after_input rest w))
       | (inl e, ws') =>
           (inl e, Dispatcher.with_workspace ws' (Dispatcher.after_input rest w))
       end
  /\ (forall c,
        todo_folder (Dispatcher.the_workspace w) !! item = Some c ->
        error_folder (Dispatcher.the_workspace w) !! item = None ->
        exists w',
          Dispatcher.run_individual_task args client (Dispatcher.handle item)
            backup_manager w = (inr (item, None, false), w')
          /\ error_folder (Dispatcher.the_workspace w') !! item = Some c
          /\ todo_folder (Dispatcher.the_workspace w') !! item = None
          /\ Dispatcher.calls w' = Dispatcher.calls w
          /\ Dispatcher.remote w' = Dispatcher.remote w
          /\ Dispatcher.the_backup w' = Dispatcher.the_backup w)
  /\ (is_Some (error_folder (Dispatcher.the_workspace w) !! item) ->
      Dispatcher.run_individual_task args client (Dispatcher.handle item) backup_manager w
        = (inr (item, None, false), Dispatcher.after_input rest w))
  /\ (forall (w0 : Dispatcher.world Remote) no rest0,
        Dispatcher.stdin w0 = no :: rest0 -> no ∈ ["N"; "n"] ->
        Dispatcher.run_individual_task args client (Dispatcher.handle item)
          backup_manager w0 = (inr (item, None, false), Dispatcher.after_input rest0 w0)).
Proof.
  intros Hask Hin Hbad.
  pose proof (run_individual_task_invalid args client item backup_manager w
                user_choice rest Hask Hin Hbad) as Hrun.
  split; [|split; [done|split; [|split]]].
  - rewrite (get_user_confirmation_run w user_choice rest Hin).
    by rewrite bool_decide_eq_false_2 by done.
  - intros c HT HE. rewrite Hrun, (move_to_error_from_todo item c) by done.
    eexists. split; [reflexivity|]. simpl.
    rewrite lookup_insert_eq, lookup_delete_eq. done.
  - intros Hthere. rewrite Hrun, move_to_error_present by done.
    by destruct w.
  - intros w0 no rest0 Hin0 Hno.
    exact (run_individual_task_declined args client (Dispatcher.handle item)
             backup_manager w0 no rest0 Hask Hin0 Hno).
Qed.

(** C8, as the code has it.  In a dry run [apply_restrictions] is never
    entered, whatever happens to the tasks; every task whose outcome is
    [True] is in done when the run returns and, when the backup is enabled,
    its restrictions were fetched and put on the queue of the backup.  A
    task gets there when it goes ahead (no confirmation is asked for, or the
    answer is [Y] or [y]) and fetching its restrictions raises nothing: it
    is then moved to done, and with the backup enabled exactly one
    [get_restrictions] call and one backup tuple, the fetched restrictions,
    are added.  A task declined at the confirmation prompt is processed
    without any exception, stays where it is, and is not recorded. *)
Theorem dry_run_never_applies_and_completes
    {Remote Response : Type} (args : Dispatcher.arguments)
    (client : Dispatcher.CodeArtifactClient Remote Response) :
  Dispatcher.dry_run args = true ->
  (forall items backup_manager (w : Dispatcher.world Remote),
     let r := Dispatcher.thread_map (Dispatcher.dispatch_task args client backup_manager)
                (map Dispatcher.handle items) w in
     List.filter Dispatcher.is_apply (Dispatcher.calls r.2)
       = List.filter Dispatcher.is_apply (Dispatcher.calls w)
     /\ forall proc, r.1 = inr proc ->
          length proc = length items
          /\ forall i item,
               items !! i = Some item -> proc !! i = Some true ->
               Dispatcher.done_and_recorded backup_manager item r.2)
  /\ (forall item src kwargs backup_manager origin rem (w w1 : Dispatcher.world Remote),
        Dispatcher.confirmed args w w1 ->
        files src (Dispatcher.the_workspace w) !! item = Some kwargs ->
        src = Todo
        \/ (src = Error /\ todo_folder (Dispatcher.the_workspace w) !! item = None) ->
        done_folder (Dispatcher.the_workspace w) !! item = None ->
        (backup_manager = true ->
         domain kwargs = Dispatcher.DOMAIN client
         /\ Dispatcher.describe_package (Dispatcher.codeartifact_client client)
              (Dispatcher.Request (domain kwargs) (repository kwargs) (format kwargs)
                 (package_name kwargs)
                 (Dispatcher.namespace_argument (namespace kwargs)) None)
              (Dispatcher.remote w) = (inr origin, rem)) ->
        Dispatcher.run_individual_task args client (Dispatcher.handle item)
          backup_manager w
        = (inr (item, None, true),
           Dispatcher.with_workspace
             (moved src Done item kwargs (Dispatcher.the_workspace w))
             (if backup_manager then Dispatcher.backed_up kwargs origin rem w1 else w1)))
  /\ (forall (t : task (Dispatcher.world Remote)) backup_manager
             (w : Dispatcher.world Remote) no rest,
        Dispatcher.ask_confirmation args = true ->
        Dispatcher.stdin w = no :: rest -> no ∈ ["N"; "n"] ->
        Dispatcher.run_individual_task args client t backup_manager w
        = (inr (t.1.1.1, None, false), Dispatcher.after_input rest w)).
Proof.
  intros Hdry. split; [|split].
  - intros items backup_manager w r.
    pose proof (progress_thread_map args client items backup_manager w) as Hprogress.
    fold r in Hprogress. split; [by apply (progress_no_apply args)|].
    intros proc Hproc.
    apply (thread_map_succeeded args client items backup_manager proc w r.2 Hdry).
    clear Hprogress. subst r.
    destruct (Dispatcher.thread_map _ _ w) as [r1 r2]. simpl in *. by subst.
  - intros item src kwargs backup_manager origin rem w w1.
    by apply run_individual_task_dry_run.
  - intros t backup_manager w no rest.
    apply run_individual_task_declined.
Qed.

(** ** The properties on sample data *)

(** The file name and the file expected by the test of the workspace
    manager. *)
Example sample_file_name : FILE_NAME_PATTERN sample_row = sample_item.
Proof. reflexivity. Qed.

Example sample_files_are_created :
  create_input_files [sample_row] empty_workspace = (inr tt, one_task_workspace).
Proof. vm_compute. reflexivity. Qed.

(** C4 fails as stated: in a run over one task, declined at the prompt,
    the task file stays in todo and the totals count one task processed, no
    success and one failure. *)
Lemma declined_task_in_the_totals :
  exists w',
    Dispatcher.dispatch_work asking sample_client (sample_world ["N"])
      = (inr (1, 0, 1), w')
    /\ Dispatcher.the_workspace w' = one_task_workspace
    /\ Dispatcher.calls w' = []
    /\ (1, 0, 1).2 <> 0.
Proof.
  eexists. split; [vm_compute; reflexivity|]. by vm_compute.
Qed.

(** C8 fails as stated: in a dry run with confirmation and backup enabled,
    a task declined at the prompt is processed without an exception, yet it
    is not in done afterwards and its restrictions are neither fetched nor
    recorded. *)
Lemma declined_dry_run_task_not_done :
  let r := Dispatcher.run_individual_task dry_run_asking sample_client
             (Dispatcher.handle sample_item) true (sample_world ["N"]) in
  r.1 = inr (sample_item, None, false)
  /\ done_folder (Dispatcher.the_workspace r.2) !! sample_item = None
  /\ todo_folder (Dispatcher.the_workspace r.2) !! sample_item = Some sample_row
  /\ Dispatcher.calls r.2 = []
  /\ BackupManager.task_queue (Dispatcher.the_backup r.2) = [].
Proof. by vm_compute. Qed.

Lemma transitions_keep_exactly_one_witness :
  in_exactly_one sample_item one_task_workspace
  /\ in_exactly_one sample_item (transit MarkError sample_item one_task_workspace).2.
Proof.
  split; [reflexivity|].
  apply (transitions_keep_exactly_one MarkError sample_item sample_item one_task_workspace).
  reflexivity.
Defined.

Lemma create_input_files_only_when_empty_witness :
  create_input_files [sample_row] one_task_workspace = (inr tt, one_task_workspace)
  /\ create_input_files [sample_row] empty_workspace
     = (inr tt, Workspace (task_files [sample_row] ∅) ∅ ∅).
Proof.
  split.
  - destruct (create_input_files_only_when_empty [sample_row] one_task_workspace)
      as (Hskip & _ & _).
    apply Hskip. right; right. intros H.
    apply (f_equal (fun m => m !! sample_item)) in H.
    vm_compute in H. discriminate.
  - destruct (create_input_files_only_when_empty [sample_row] empty_workspace)
      as (_ & Hfill & _).
    apply Hfill.
    + repeat split.
    + repeat constructor.
Defined.

Lemma move_to_error_first_failure_wins_witness :
  move_to_error sample_item failed_task_workspace = (inr tt, failed_task_workspace).
Proof.
  apply (move_to_error_first_failure_wins sample_item failed_task_workspace).
  exists sample_row. reflexivity.
Defined.

Lemma create_input_files_one_file_per_name_witness :
  exists ws',
    create_input_files [scoped_ab_c; scoped_a_bc] empty_workspace = (inr tt, ws')
    /\ error_folder ws' = ∅ /\ done_folder ws' = ∅
    /\ dom (todo_folder ws') = list_to_set (map FILE_NAME_PATTERN [scoped_ab_c; scoped_a_bc]).
Proof.
  destruct (create_input_files_one_file_per_name [scoped_ab_c; scoped_a_bc])
    as (ws' & H1 & H2 & H3 & H4 & _).
  - repeat constructor.
  - exists ws'. repeat split; assumption.
Defined.

Lemma create_input_files_one_file_per_key_witness :
  exists ws',
    create_input_files [scoped_a_bc; plain_a_bc] empty_workspace = (inr tt, ws')
    /\ size (todo_folder ws') = 2.
Proof.
  destruct (create_input_files_one_file_per_key "d" "r" [scoped_a_bc; plain_a_bc])
    as (ws' & Hrun & _ & _ & _ & Hsize & _).
  - repeat constructor.
  - repeat constructor.
  - exists ws'. split; [exact Hrun|]. apply Hsize.
    apply NoDup_cons. split; [|apply NoDup_singleton].
    rewrite list_elem_of_singleton. discriminate.
Defined.

Lemma backup_file_is_header_then_rows_witness :
  let rows :=
    [["davide-test"; "nerv"; "pypi"; ""; "internetarchive"; "ALLOW"; "BLOCK"];
     ["d"; "r"; "npm"; "a-b"; "c"; "BLOCK"; "ALLOW"]] in
  let b1 := BackupManager.run first_of_two_schedule BackupManager.init_as_write in
  let b2 := BackupManager.run two_call_schedule BackupManager.init_as_write in
  (BackupManager.task_queue b1 <> []
   /\ BackupManager.target_file b1 = CSV_HEADER :: take 1 rows
   /\ BackupManager.flushed b1 = BackupManager.target_file b1)
  /\ BackupManager.target_file b2 = CSV_HEADER :: rows
  /\ BackupManager.flushed b2 = CSV_HEADER :: rows.
Proof.
  cbv zeta. split; [|split].
  - destruct (backup_file_is_header_then_rows first_of_two_schedule)
      as (_ & Hflushed & _).
    split; [vm_compute; discriminate|]. split; [reflexivity|].
    apply Hflushed. vm_compute. lia.
  - destruct (backup_file_is_header_then_rows two_call_schedule) as (Hfile & _).
    destruct Hfile as (Hfile & _).
    + vm_compute. discriminate.
    + reflexivity.
    + exact Hfile.
  - destruct (backup_file_is_header_then_rows two_call_schedule) as (Hfile & _).
    destruct Hfile as (_ & _ & _ & Hflush).
    + vm_compute. discriminate.
    + reflexivity.
    + rewrite Hflush; [reflexivity | vm_compute; discriminate].
Defined.

Lemma retry_round_trip_witness :
  exists ws3,
    bind (move_to_error sample_item)
      (fun _ => bind (move_to_retry sample_item) (fun _ => move_to_done sample_item))
      one_task_workspace = (inr tt, ws3)
    /\ done_folder ws3 !! sample_item = Some sample_row.
Proof.
  destruct (retry_round_trip sample_item sample_row one_task_workspace)
    as (ws3 & H1 & H2 & _); [reflexivity | reflexivity | reflexivity |].
  exists ws3. split; assumption.
Defined.

Lemma declined_task_stays_and_counts_as_failure_witness :
  Dispatcher.run_individual_task asking sample_client (Dispatcher.handle sample_item)
    true (sample_world ["N"])
  = (inr (sample_item, None, false), sample_world []).
Proof.
  apply (declined_task_stays_and_counts_as_failure asking sample_client
           (Dispatcher.handle sample_item) true (sample_world ["N"]) "N" []).
  - reflexivity.
  - reflexivity.
  - constructor.
Defined.

Lemma dry_run_never_applies_and_completes_witness :
  Dispatcher.run_individual_task dry_run_only sample_client
    (Dispatcher.handle sample_item) true (sample_world [])
  = (inr (sample_item, None, true),
     Dispatcher.World (Workspace ∅ ∅ {[ sample_item := sample_row ]}) [] tt
       [Dispatcher.GetRestrictions sample_row]
       (BackupManager.Backup [(sample_row, sample_origin)] [] [] BackupManager.AtHeader)).
Proof.
  destruct (dry_run_never_applies_and_completes dry_run_only sample_client)
    as (_ & Htask & _); [reflexivity|].
  rewrite (Htask sample_item Todo sample_row true sample_origin tt
             (sample_world []) (sample_world [])).
  - vm_compute. reflexivity.
  - left. split; reflexivity.
  - reflexivity.
  - left. reflexivity.
  - reflexivity.
  - intros _. split; reflexivity.
Defined.

Lemma invalid_answer_marks_error_witness :
  Dispatcher.get_user_confirmation (sample_world ["maybe"])
  = (inl (Exception " maybe is not a valid input."), sample_world []).
Proof.
  apply (invalid_answer_marks_error asking sample_client sample_item true
           (sample_world ["maybe"]) "maybe" []).
  - reflexivity.
  - reflexivity.
  - apply (bool_decide_unpack _). vm_compute. exact I.
Defined.

(** * Further properties of the workspace *)

(** Populating is done once: after [create_input_files] filled an empty
    workspace from a non-empty input, a second call, with the same or any
    other input, changes nothing; with an empty input the workspace stays
    empty. *)
Theorem create_input_files_resumes (input again : list row) (ws : workspace) :
  all_empty ws -> all_file_names input -> input <> [] ->
  exists ws1,
    create_input_files input ws = (inr tt, ws1)
    /\ todo_folder ws1 <> ∅
    /\ create_input_files again ws1 = (inr tt, ws1)
    /\ bind (create_input_files input) (fun _ => create_input_files again) ws
       = create_input_files input ws.
Proof.
  intros Hempty Hnames Hinput.
  assert (create_input_files input ws = (inr tt, Workspace (task_files input ∅) ∅ ∅))
    as Hfirst.
  { unfold create_input_files, bind.
    rewrite should_recreate_files_run, bool_decide_eq_true_2 by done. simpl.
    rewrite write_task_files_run by done.
    destruct ws as [T E D], Hempty as (HT & HE & HD). simpl in *. by subst. }
  assert (task_files input ∅ <> ∅) as Hfilled.
  { destruct input as [|line input _] using rev_ind; [done|].
    rewrite task_files_snoc. apply insert_non_empty. }
  assert (create_input_files again (Workspace (task_files input ∅) ∅ ∅)
          = (inr tt, Workspace (task_files input ∅) ∅ ∅)) as Hsecond.
  { unfold create_input_files, bind.
    rewrite should_recreate_files_run, bool_decide_eq_false_2; [done|].
    by intros (? & _). }
  eexists. split; [exact Hfirst|]. split; [done|]. split; [done|].
  unfold bind at 1. by rewrite Hfirst, Hsecond.
Qed.

Lemma reader_lookup t ws :
  (reader t ws).1
  = match todo_folder ws !! t with
    | Some c => inr c
    | None => match error_folder ws !! t with
              | Some c => inr c
              | None => inl FileNotFoundError
              end
    end.
Proof.
  unfold reader, bind, os_path_exists. simpl.
  destruct (todo_folder ws !! t) as [c|] eqn:HT.
  - rewrite bool_decide_eq_true_2 by eauto. simpl. by rewrite HT.
  - rewrite bool_decide_eq_false_2 by (by intros [? ?]). simpl.
    by destruct (error_folder ws !! t).
Qed.

(** The payload of a task survives failure and retry: after
    [move_to_error] or [move_to_retry], whether the call returned or
    raised, [reader] gives for every task what it gave before.
    [move_to_done] on another task does not change it either; once a task
    held by one collection has been moved to done, [reader] raises
    [FileNotFoundError] for it. *)
Theorem reader_after_transition (op : transition) (id t : string) (ws : workspace) :
  (op <> MarkDone \/ id <> t ->
   (reader t (transit op id ws).2).1 = (reader t ws).1)
  /\ (forall ws', in_exactly_one t ws -> move_to_done t ws = (inr tt, ws') ->
        (reader t ws').1 = inl FileNotFoundError).
Proof.
  split.
  - intros Hop. rewrite !reader_lookup.
    destruct (decide (id = t)) as [->|Hid].
    + destruct Hop as [Hop|?]; [|done].
      destruct op; [done| |]; simpl;
        unfold move_to_error, move_to_retry, bind, os_path_exists, shutil_move, ret;
        simpl;
        destruct (todo_folder ws !! t) as [c1|] eqn:HT;
        destruct (error_folder ws !! t) as [c2|] eqn:HE; simpl;
        rewrite ?(bool_decide_eq_true_2 (is_Some (Some _))) by eauto;
        rewrite ?(bool_decide_eq_false_2 (is_Some None)) by (by intros [? ?]);
        simpl; rewrite ?HT, ?HE; simpl;
        by rewrite ?lookup_insert_eq, ?lookup_delete_eq, ?HT, ?HE.
    + destruct (transit_cases op id ws)
        as [[e ->]|[(-> & _)|(src & dst & c & Hne & Hsrc & Hs & Hd & ->)]];
        [done | done |].
      simpl.
      change (todo_folder (moved src dst id c ws)) with (files Todo (moved src dst id c ws)).
      change (error_folder (moved src dst id c ws)) with (files Error (moved src dst id c ws)).
      unfold moved. rewrite !moved_lookup by done.
      by rewrite !decide_False by done.
  - intros ws' Hone Hrun. rewrite reader_lookup.
    revert Hone Hrun.
    unfold in_exactly_one, collections_holding, holds, move_to_done, bind,
      os_path_exists, shutil_move. simpl.
    destruct (todo_folder ws !! t) as [c1|] eqn:HT;
      destruct (error_folder ws !! t) as [c2|] eqn:HE;
      destruct (done_folder ws !! t) as [c3|] eqn:HD; simpl;
      rewrite ?(bool_decide_eq_true_2 (is_Some (Some _))) by eauto;
      rewrite ?(bool_decide_eq_false_2 (is_Some None)) by (by intros [? ?]);
      simpl; try done; rewrite ?HT, ?HE, ?HD; intros _ ?; simplify_eq; simpl;
      by rewrite ?lookup_delete_eq, ?HT, ?HE.
Qed.

Lemma listing_spec (m : gmap string row) :
  NoDup (map fst (map_to_list m))
  /\ (forall item, item ∈ map fst (map_to_list m) <-> is_Some (m !! item))
  /\ length (map fst (map_to_list m)) = size m.
Proof.
  split; [apply NoDup_fst_map_to_list|]. split.
  - intros item. rewrite list_elem_of_fmap. split.
    + intros ([k c] & -> & Hin). apply elem_of_map_to_list in Hin. eauto.
    + intros [c Hc]. exists (item, c). split; [done|]. by apply elem_of_map_to_list.
  - by rewrite length_map, length_map_to_list.
Qed.

(** [get_tasks] and [get_failed_tasks] change nothing and yield one handle
    per file of todo, respectively error: every file name once, and no
    other name.  The reader of a handle of [get_tasks] returns the content
    of the todo file; the reader of a handle of [get_failed_tasks] returns
    the content of the error file unless todo holds a file of that name,
    which it then prefers. *)
Theorem task_generators_list_their_folder (ws : workspace) :
  (exists tasks,
     get_tasks ws = (inr tasks, ws)
     /\ NoDup (map (fun t : task workspace => t.1.1.1) tasks)
     /\ length tasks = size (todo_folder ws)
     /\ (forall item, item ∈ map (fun t : task workspace => t.1.1.1) tasks
                      <-> is_Some (todo_folder ws !! item))
     /\ (forall item c, todo_folder ws !! item = Some c -> reader item ws = (inr c, ws)))
  /\ (exists tasks,
        get_failed_tasks ws = (inr tasks, ws)
        /\ NoDup (map (fun t : task workspace => t.1.1.1) tasks)
        /\ length tasks = size (error_folder ws)
        /\ (forall item, item ∈ map (fun t : task workspace => t.1.1.1) tasks
                         <-> is_Some (error_folder ws !! item))
        /\ (forall item c, error_folder ws !! item = Some c ->
              reader item ws
              = (inr (default c (todo_folder ws !! item)), ws))).
Proof.
  assert (forall items : list string,
            map (fun t : task workspace => t.1.1.1)
              (map (fun item => (item, reader, move_to_done, move_to_error)) items)
            = items) as Hids.
  { intros items. rewrite map_map. simpl. apply map_id. }
  assert (forall item, reader item ws = ((reader item ws).1, ws)) as Hreader.
  { intros item. pose proof (reader_state item ws) as Hst.
    destruct (reader item ws) as [r ws']. simpl in *. by subst. }
  split.
  - destruct (listing_spec (todo_folder ws)) as (Hnodup & Hin & Hlen).
    eexists. split; [reflexivity|]. rewrite Hids, length_map.
    split; [done|]. split; [done|]. split; [done|].
    intros item c Hc. rewrite Hreader, reader_lookup. by rewrite Hc.
  - destruct (listing_spec (error_folder ws)) as (Hnodup & Hin & Hlen).
    eexists. split; [reflexivity|]. rewrite Hids, length_map.
    split; [done|]. split; [done|]. split; [done|].
    intros item c Hc. rewrite Hreader, reader_lookup. rewrite Hc.
    by destruct (todo_folder ws !! item).
Qed.

Lemma delete_workspace_run force ws :
  delete_workspace force (Some ws)
  = (inr tt,
     if force || bool_decide (done_folder ws <> ∅ /\ todo_folder ws = ∅
                              /\ error_folder ws = ∅)
     then None else Some ws).
Proof.
  unfold delete_workspace, bind, on_directory, shutil_rmtree, ret.
  destruct force; simpl; [done|].
  rewrite is_workspace_clean_run. by case_bool_decide.
Qed.

(** [delete_workspace] without [force] removes the workspace exactly when
    it is clean: it keeps a workspace that has a file in todo or in error,
    and also one whose three folders are empty; with [force] it removes
    any workspace.  On a workspace directory that is gone it raises
    [FileNotFoundError]. *)
Theorem delete_workspace_only_when_clean (force : bool) (ws : workspace) :
  delete_workspace force (Some ws)
  = (inr tt,
     if force || bool_decide (done_folder ws <> ∅ /\ todo_folder ws = ∅
                              /\ error_folder ws = ∅)
     then None else Some ws)
  /\ (todo_folder ws <> ∅ \/ error_folder ws <> ∅ \/ all_empty ws ->
      delete_workspace false (Some ws) = (inr tt, Some ws))
  /\ delete_workspace force None = (inl FileNotFoundError, None).
Proof.
  split; [apply delete_workspace_run|]. split.
  - intros Hkeep. rewrite delete_workspace_run. simpl.
    rewrite bool_decide_eq_false_2; [done|].
    intros (HD & HT & HE). destruct Hkeep as [?|[?|(_ & _ & ?)]]; done.
  - unfold delete_workspace, bind, on_directory, shutil_rmtree, ret.
    by destruct force.
Qed.

(** * Further properties of the processing of tasks *)

Lemma pending_cases item ws :
  pending item ws <->
  done_folder ws !! item = None
  /\ ((is_Some (todo_folder ws !! item) /\ error_folder ws !! item = None)
      \/ (todo_folder ws !! item = None /\ is_Some (error_folder ws !! item))).
Proof.
  unfold pending, in_exactly_one, collections_holding, holds. simpl.
  destruct (todo_folder ws !! item) as [c1|] eqn:HT;
    destruct (error_folder ws !! item) as [c2|] eqn:HE;
    destruct (done_folder ws !! item) as [c3|] eqn:HD; simpl;
    rewrite ?(bool_decide_eq_true_2 (is_Some (Some _))) by eauto;
    rewrite ?(bool_decide_eq_false_2 (is_Some None)) by (by intros [? ?]);
    simpl; split; try (intros [? ?]; done).
  all: try (intros (_ & [[_ ?]|[? _]]); done).
  all: try (intros (_ & [[[? ?] _]|[_ [? ?]]]); done).
  - intros _. split; [done|]. left. eauto.
  - intros _. split; [done|]. right. eauto.
Qed.

Lemma transit_other op id ws d u :
  u <> id -> files d (transit op id ws).2 !! u = files d ws !! u.
Proof.
  intros Hne.
  destruct (transit_cases op id ws)
    as [[e ->]|[(-> & _)|(src & dst & c & ? & ? & ? & ? & ->)]]; [done | done |].
  simpl. unfold moved. rewrite moved_lookup by done. by rewrite decide_False.
Qed.

Lemma move_to_error_pending item ws :
  pending item ws ->
  exists ws', move_to_error item ws = (inr tt, ws') /\ done_folder ws' !! item = None.
Proof.
  intros (HD & [[[c HT] HE]|[HT HE]])%pending_cases.
  - rewrite (move_to_error_from_todo item c) by done. eexists. split; [done|]. done.
  - rewrite move_to_error_present by done. eauto.
Qed.

Lemma move_to_done_pending item ws :
  pending item ws ->
  exists ws', move_to_done item ws = (inr tt, ws') /\ is_Some (done_folder ws' !! item).
Proof.
  intros (HD & [[[c HT] HE]|[HT [c HE]]])%pending_cases.
  - rewrite (move_to_done_from Todo item c) by eauto.
    eexists. split; [done|]. simpl. rewrite lookup_insert_eq. eauto.
  - rewrite (move_to_done_from Error item c) by eauto.
    eexists. split; [done|]. simpl. rewrite lookup_insert_eq. eauto.
Qed.

Section Runs.
Import Dispatcher.
Context {Remote Response : Type}.
Variable args : arguments.
Variable client : CodeArtifactClient Remote Response.

Local Abbreviation world := (world Remote).
Local Abbreviation reader_of_run :=
  (fun filename : string => in_workspace (Remote := Remote) (reader filename)).

Lemma in_workspace_run {A} (m : M workspace A) (w : world) :
  in_workspace m w
  = ((m (the_workspace w)).1, with_workspace (m (the_workspace w)).2 w).
Proof. unfold in_workspace, with_workspace. by destruct (m (the_workspace w)). Qed.

(** The processing of a pending task returns; it leaves the workspace as
    it was, or as [move_to_error] or [move_to_done] of the task leaves it;
    the task is in done afterwards exactly when the outcome is [True]. *)
Lemma run_individual_task_pending item backup_manager (w : world) :
  pending item (the_workspace w) ->
  exists res success w',
    run_individual_task args client (handle item) backup_manager w
      = (inr (item, res, success), w')
    /\ (exists op, the_workspace w' = the_workspace w
                   \/ the_workspace w' = (transit op item (the_workspace w)).2)
    /\ (if success then is_Some (done_folder (the_workspace w') !! item)
        else done_folder (the_workspace w') !! item = None).
Proof.
  intros Hpending.
  unfold run_individual_task, handle, bind, try_except.
  pose proof (workspace_kept_try_block args client item backup_manager w) as Hkept.
  destruct (try_block args client item reader_of_run backup_manager w)
    as [[e|[returned|res]] w1] eqn:Htry; unfold workspace_kept in Hkept; simpl in Hkept.
  - rewrite in_workspace_run, Hkept.
    destruct (move_to_error_pending item _ Hpending) as (ws' & Hrun & Hdone).
    rewrite Hrun. simpl. eexists None, false, _. split; [done|]. simpl.
    split; [|done]. exists MarkError. right. simpl. by rewrite Hrun.
  - apply try_block_returned in Htry as ->.
    eexists None, false, _. split; [done|]. rewrite Hkept.
    split; [exists MarkError; by left|]. by destruct Hpending.
  - rewrite in_workspace_run, Hkept.
    destruct (move_to_done_pending item _ Hpending) as (ws' & Hrun & Hdone).
    rewrite Hrun. simpl. eexists res, true, _. split; [done|]. simpl.
    split; [|done]. exists MarkDone. right. simpl. by rewrite Hrun.
Qed.

Lemma thread_map_pending items backup_manager (w : world) :
  NoDup items ->
  (forall item, item ∈ items -> pending item (the_workspace w)) ->
  exists proc w',
    thread_map (dispatch_task args client backup_manager) (map handle items) w
      = (inr proc, w')
    /\ length proc = length items
    /\ (forall u, length (collections_holding u (the_workspace w'))
                  = length (collections_holding u (the_workspace w)))
    /\ (forall u d, u ∉ items ->
          files d (the_workspace w') !! u = files d (the_workspace w) !! u)
    /\ (forall i item (success : bool),
          items !! i = Some item -> proc !! i = Some success ->
          ((if success then is_Some (done_folder (the_workspace w') !! item)
            else done_folder (the_workspace w') !! item = None) : Prop)).
Proof.
  intros Hnodup. revert w.
  induction Hnodup as [|item0 items Hfresh Hnodup IH]; intros w Hpending.
  - exists [], w. simpl. split; [done|]. split; [done|]. split; [done|].
    split; [done|]. intros i item success Hi. done.
  - destruct (run_individual_task_pending item0 backup_manager w)
      as (res & success0 & w1 & Hrun & [op Hws] & Hdone0);
      [apply Hpending; by left|].
    assert (forall u d, u <> item0 ->
              files d (the_workspace w1) !! u = files d (the_workspace w) !! u) as Hframe.
    { intros u d Hu. destruct Hws as [-> | ->]; [done|]. by apply transit_other. }
    assert (forall u, length (collections_holding u (the_workspace w1))
                      = length (collections_holding u (the_workspace w))) as Hcount.
    { intros u. destruct Hws as [-> | ->]; [done|]. apply transit_collections_holding. }
    destruct (IH w1) as (proc & w' & Hmap & Hlen & Hcount' & Hframe' & Hout).
    { intros item Hitem. assert (item <> item0) by (intros ->; done).
      destruct (Hpending item) as [Hone Hd]; [by right|].
      split; [unfold in_exactly_one; by rewrite Hcount|].
      specialize (Hframe item Done). simpl in Hframe. by rewrite Hframe. }
    exists (success0 :: proc), w'. split.
    { simpl. unfold bind at 1. unfold dispatch_task at 1. unfold bind at 1.
      rewrite Hrun. unfold ret at 1. unfold bind. rewrite Hmap. done. }
    split; [simpl; by rewrite Hlen|].
    split; [intros u; by rewrite Hcount', Hcount|].
    split.
    { intros u d Hu. apply not_elem_of_cons in Hu as [Hu0 Hu].
      rewrite Hframe' by done. by apply Hframe. }
    intros [|i] item success Hi Hp; simpl in *; simplify_eq; [|by eapply Hout].
    destruct success.
    + destruct Hdone0 as [c Hc].
      pose proof (progress_thread_map args client items backup_manager w1) as Hprog.
      rewrite Hmap in Hprog. destruct Hprog as (Hkeep & _). eauto.
    + specialize (Hframe' item Done Hfresh). simpl in Hframe'. by rewrite Hframe'.
Qed.

End Runs.

(** A run over pending tasks never raises, whatever the registry and the
    user do: every task gets one outcome, and a task is in done at the end
    of the run exactly when its outcome is [True].  The run loses and
    duplicates no task file: every file name is held by as many
    collections after the run as before, and the files of tasks that are
    not in the run stay where they are. *)
Theorem run_over_pending_tasks_returns
    {Remote Response : Type} (args : Dispatcher.arguments)
    (client : Dispatcher.CodeArtifactClient Remote Response)
    (items : list string) (backup_manager : bool) (w : Dispatcher.world Remote) :
  NoDup items ->
  (forall item, item ∈ items -> pending item (Dispatcher.the_workspace w)) ->
  exists proc w',
    Dispatcher.thread_map (Dispatcher.dispatch_task args client backup_manager)
      (map Dispatcher.handle items) w = (inr proc, w')
    /\ length proc = length items
    /\ (forall u, length (collections_holding u (Dispatcher.the_workspace w'))
                  = length (collections_holding u (Dispatcher.the_workspace w)))
    /\ (forall u d, u ∉ items ->
          files d (Dispatcher.the_workspace w') !! u
          = files d (Dispatcher.the_workspace w) !! u)
    /\ (forall i item (success : bool),
          items !! i = Some item -> proc !! i = Some success ->
          (success = true <-> is_Some (done_folder (Dispatcher.the_workspace w') !! item))).
Proof.
  intros Hnodup Hpending.
  destruct (thread_map_pending args client items backup_manager w Hnodup Hpending)
    as (proc & w' & Hmap & Hlen & Hcount & Hframe & Hout).
  exists proc, w'. split; [done|]. split; [done|]. split; [done|]. split; [done|].
  intros i item success Hi Hp. specialize (Hout i item success Hi Hp).
  destruct success.
  - split; done.
  - rewrite Hout. split; [done|]. by intros [? ?].
Qed.

Lemma summary_total proc :
  (Dispatcher.summary proc).1.1
  = (Dispatcher.summary proc).1.2 + (Dispatcher.summary proc).2
  /\ ((Dispatcher.summary proc).2 = 0 <-> Forall (fun success => success = true) proc).
Proof.
  unfold Dispatcher.summary. simpl. induction proc as [|[] proc [IH1 IH2]]; simpl.
  - split; [done|]. split; [by constructor | done].
  - split; [lia|]. rewrite IH2. split; [by constructor|]. by inversion 1.
  - split; [lia|]. split; [done|]. by inversion 1.
Qed.

Lemma holds_count u ws :
  length (collections_holding u ws)
  = (if holds Todo u ws then 1 else 0) + (if holds Error u ws then 1 else 0)
    + (if holds Done u ws then 1 else 0).
Proof.
  unfold collections_holding. simpl. by repeat case_match.
Qed.

(** In a workspace with disjoint folders the files of todo and those of
    error are pending. *)
Lemma listed_pending (listed : folder) item ws :
  disjoint_folders ws -> listed <> Done ->
  is_Some (files listed ws !! item) -> pending item ws.
Proof.
  intros Hdisjoint Hlisted Hin. specialize (Hdisjoint item).
  apply holds_true in Hin. rewrite holds_count in Hdisjoint.
  unfold pending, in_exactly_one. rewrite holds_count.
  rewrite <- (holds_false Done).
  destruct listed; [| |done]; rewrite Hin in *;
    destruct (holds Done item ws) eqn:HD;
    try destruct (holds Error item ws) eqn:HE;
    try destruct (holds Todo item ws) eqn:HT;
    simpl in *; try done; lia.
Qed.

Section CleanUp.
Import Dispatcher.
Context {Remote Response : Type}.
Variable args : arguments.
Variable client : CodeArtifactClient Remote Response.

Local Abbreviation world := (world Remote).

(** The folder the tasks of a run are listed from, and the other of todo
    and error. *)
Let listed : folder := if retry_failed args then Error else Todo.
Let other : folder := if retry_failed args then Todo else Error.

Lemma listed_other : listed <> Done /\ other <> Done /\ listed <> other.
Proof. unfold listed, other. by destruct (retry_failed args). Qed.

Lemma clean_iff ws :
  (done_folder ws <> ∅ /\ todo_folder ws = ∅ /\ error_folder ws = ∅)
  <-> (done_folder ws <> ∅ /\ files listed ws = ∅ /\ files other ws = ∅).
Proof. unfold listed, other. destruct (retry_failed args); simpl; tauto. Qed.

Lemma run_leaves_clean_workspace backup_manager (w w' : world) proc :
  disjoint_folders (the_workspace w) ->
  thread_map (dispatch_task args client backup_manager)
    (map handle (map fst (map_to_list (files listed (the_workspace w))))) w
    = (inr proc, w') ->
  (done_folder (the_workspace w') <> ∅ /\ todo_folder (the_workspace w') = ∅
   /\ error_folder (the_workspace w') = ∅)
  <-> (Forall (fun success => success = true) proc
       /\ files other (the_workspace w) = ∅
       /\ (proc <> [] \/ done_folder (the_workspace w) <> ∅)).
Proof.
  intros Hdisjoint Hmap.
  destruct listed_other as (Hlisted & Hother & Hne).
  set (ws := the_workspace w) in *.
  set (items := map fst (map_to_list (files listed ws))) in *.
  destruct (listing_spec (files listed ws)) as (Hnodup & Hitems & _).
  fold items in Hnodup, Hitems.
  destruct (thread_map_pending args client items backup_manager w Hnodup)
    as (proc0 & w0 & Hmap0 & Hlen & Hcount & Hframe & Hout).
  { intros item Hitem. apply (listed_pending listed); [done|done|]. by apply Hitems. }
  rewrite Hmap in Hmap0. simplify_eq.
  fold ws in Hcount, Hframe.
  set (ws' := the_workspace w0) in *.
  assert (forall u, pending u ws ->
            length (collections_holding u ws') = 1) as Hone.
  { intros u [Hu _]. by rewrite Hcount. }
  (* where the files of the run are afterwards *)
  assert (forall i item (success : bool),
            items !! i = Some item -> proc0 !! i = Some success ->
            if success
            then files listed ws' !! item = None /\ files other ws' !! item = None
            else is_Some (files listed ws' !! item) \/ is_Some (files other ws' !! item))
    as Hwhere.
  { intros i item success Hi Hp. specialize (Hout i item success Hi Hp).
    assert (pending item ws) as Hpend.
    { apply (listed_pending listed); [done|done|].
      apply Hitems. by eapply list_elem_of_lookup_2. }
    specialize (Hone item Hpend). rewrite holds_count in Hone.
    destruct success.
    - rewrite <- !holds_false.
      apply (holds_true Done) in Hout. rewrite Hout in Hone.
      destruct listed, other; try done;
        destruct (holds Todo item ws'), (holds Error item ws'); simpl in *;
        try done; lia.
    - rewrite <- !holds_true.
      apply (holds_false Done) in Hout. rewrite Hout in Hone.
      destruct listed, other; try done;
        destruct (holds Todo item ws'), (holds Error item ws'); simpl in *;
        eauto; lia. }
  rewrite clean_iff. split.
  - intros (Hdone & Hl & Ho). split; [|split].
    + apply Forall_lookup. intros i success Hp.
      destruct (lookup_lt_is_Some_2 items i) as [item Hi].
      { rewrite <- Hlen. by eapply lookup_lt_Some. }
      specialize (Hwhere i item success Hi Hp). destruct success; [done|].
      rewrite Hl, Ho, !lookup_empty in Hwhere. by destruct Hwhere as [[? ?]|[? ?]].
    + apply map_empty. intros u.
      destruct (files other ws !! u) as [c|] eqn:Hu; [|done].
      assert (u ∉ items) as Hnot.
      { intros Hin%Hitems. specialize (Hdisjoint u). rewrite holds_count in Hdisjoint.
        apply holds_true in Hin. assert (holds other u ws = true) as Ho'
          by (apply holds_true; eauto).
        destruct listed, other; try done; simpl in *; rewrite Hin, Ho' in Hdisjoint;
          destruct (holds Done u ws); simpl in *; lia. }
      rewrite <- (Hframe u other Hnot), Ho, lookup_empty in Hu. done.
    + destruct proc0 as [|success proc0]; [|by left]. right.
      destruct items; [|done].
      intros Hd. apply Hdone. apply map_empty. intros u.
      specialize (Hframe u Done). simpl in Hframe. rewrite Hframe by apply not_elem_of_nil.
      by rewrite Hd, lookup_empty.
  - intros (Hall & Ho & Hsome). split; [|split].
    + destruct Hsome as [Hproc|Hd].
      * destruct proc0 as [|success proc0]; [done|].
        destruct items as [|item items']; [done|].
        apply Forall_cons in Hall as [-> _].
        specialize (Hout 0 item true eq_refl eq_refl). simpl in Hout.
        intros Hempty. fold ws' in Hout. rewrite Hempty, lookup_empty in Hout.
        by destruct Hout.
      * intros Hempty. apply Hd. apply map_empty. intros u.
        destruct (done_folder ws !! u) as [c|] eqn:Hu; [|done].
        pose proof (progress_thread_map args client items backup_manager w) as Hprog.
        rewrite Hmap in Hprog. destruct Hprog as (Hkeep & _).
        specialize (Hkeep u c Hu). simpl in Hkeep. fold ws' in Hkeep.
        by rewrite Hempty, lookup_empty in Hkeep.
    + apply map_empty. intros u.
      destruct (decide (u ∈ items)) as [Hin|Hnot].
      * apply list_elem_of_lookup in Hin as [i Hi].
        destruct (lookup_lt_is_Some_2 proc0 i) as [success Hp].
        { rewrite Hlen. by eapply lookup_lt_Some. }
        rewrite Forall_lookup in Hall. rewrite (Hall i success Hp) in Hp.
        by destruct (Hwhere i u true Hi Hp).
      * rewrite (Hframe u listed Hnot).
        destruct (files listed ws !! u) as [c|] eqn:Hu; [|done].
        exfalso. apply Hnot, Hitems. eauto.
    + apply map_empty. intros u.
      destruct (decide (u ∈ items)) as [Hin|Hnot].
      * apply list_elem_of_lookup in Hin as [i Hi].
        destruct (lookup_lt_is_Some_2 proc0 i) as [success Hp].
        { rewrite Hlen. by eapply lookup_lt_Some. }
        rewrite Forall_lookup in Hall. rewrite (Hall i success Hp) in Hp.
        by destruct (Hwhere i u true Hi Hp).
      * rewrite (Hframe u other Hnot). by rewrite Ho, lookup_empty.
Qed.

End CleanUp.

(** On a workspace whose folders are disjoint, the processing part of
    [dispatch_work] never raises: it reports as many tasks as the folder it
    lists holds files (error for [--retry-failed], todo otherwise), each
    counted once as a success or as a failure, and it leaves the folders
    disjoint.  The [delete_workspace()] that ends the run removes the
    workspace exactly when no task failed or was declined, the folder that
    was not listed is empty, and some task is done. *)
Theorem dispatch_work_returns_and_cleans
    {Remote Response : Type} (args : Dispatcher.arguments)
    (client : Dispatcher.CodeArtifactClient Remote Response)
    (w : Dispatcher.world Remote) :
  disjoint_folders (Dispatcher.the_workspace w) ->
  let listed := if Dispatcher.retry_failed args then Error else Todo in
  let other := if Dispatcher.retry_failed args then Todo else Error in
  exists n s f w',
    Dispatcher.dispatch_work args client w = (inr (n, s, f), w')
    /\ n = size (files listed (Dispatcher.the_workspace w))
    /\ n = s + f
    /\ disjoint_folders (Dispatcher.the_workspace w')
    /\ (delete_workspace false (Some (Dispatcher.the_workspace w')) = (inr tt, None)
        <-> f = 0 /\ files other (Dispatcher.the_workspace w) = ∅
            /\ (n <> 0 \/ done_folder (Dispatcher.the_workspace w) <> ∅)).
Proof.
  intros Hdisjoint listed other.
  set (ws := Dispatcher.the_workspace w).
  set (items := map fst (map_to_list (files listed ws))).
  set (backup_manager := negb (Dispatcher.no_backup args || Dispatcher.restore args)).
  destruct (listing_spec (files listed ws)) as (Hnodup & Hitems & Hsize).
  destruct (thread_map_pending args client items backup_manager w Hnodup)
    as (proc & w' & Hmap & Hlen & Hcount & Hframe & Hout).
  { intros item Hitem. apply (listed_pending listed); [done| |by apply Hitems].
    unfold listed. by destruct (Dispatcher.retry_failed args). }
  destruct (summary_total proc) as [Htotal Hfail].
  exists (Dispatcher.summary proc).1.1, (Dispatcher.summary proc).1.2,
    (Dispatcher.summary proc).2, w'.
  split; [|split; [|split; [done|split]]].
  - unfold Dispatcher.dispatch_work, bind. rewrite task_generator_run.
    fold listed ws items backup_manager. rewrite Hmap. unfold ret.
    by destruct (Dispatcher.summary proc) as [[? ?] ?].
  - unfold Dispatcher.summary. simpl. by rewrite Hlen, <- Hsize.
  - intros u. rewrite Hcount. apply Hdisjoint.
  - rewrite delete_workspace_run. simpl.
    pose proof (run_leaves_clean_workspace args client backup_manager w w' proc
                  Hdisjoint Hmap) as Hclean.
    fold other in Hclean. rewrite Hfail.
    assert (proc <> [] <-> (Dispatcher.summary proc).1.1 <> 0) as Hnonempty.
    { unfold Dispatcher.summary. simpl. by destruct proc. }
    rewrite <- Hnonempty. unfold ws. rewrite <- Hclean.
    case_bool_decide; split; done.
Qed.

(** * Further properties of the backup recorder *)

Section BackupLog.
Import BackupManager.

Lemma step_extends b ev :
  writer_thread b <> Dead ->
  flushed b `prefix_of` target_file b ->
  target_file b `prefix_of` target_file (step b ev)
  /\ flushed b `prefix_of` flushed (step b ev)
  /\ flushed (step b ev) `prefix_of` target_file (step b ev)
  /\ writer_thread (step b ev) <> Dead.
Proof.
  intros Halive Hflushed. destruct ev as [package origin|]; simpl; [done|].
  unfold _writer_thread. destruct (writer_thread b) eqn:Hw; [| |done].
  - simpl. split; [by apply prefix_app_r|]. split; [done|].
    split; [by apply prefix_app_r | done].
  - destruct (task_queue b) as [|[package origin] rest]; [by rewrite Hw|].
    rewrite writerow_line. simpl.
    split; [by apply prefix_app_r|]. split; [by apply prefix_app_r|]. done.
Qed.

Lemma run_extends schedule b :
  writer_thread b <> Dead ->
  flushed b `prefix_of` target_file b ->
  target_file b `prefix_of` target_file (run schedule b)
  /\ flushed b `prefix_of` flushed (run schedule b)
  /\ flushed (run schedule b) `prefix_of` target_file (run schedule b)
  /\ writer_thread (run schedule b) <> Dead.
Proof.
  revert b. induction schedule as [|ev schedule IH]; intros b Halive Hflushed; [done|].
  destruct (step_extends b ev Halive Hflushed) as (Hfile & Hdisk & Hflushed' & Halive').
  destruct (IH (step b ev) Halive' Hflushed') as (Hfile' & Hdisk' & ? & ?).
  change (run (ev :: schedule) b) with (run schedule (step b ev)).
  split; [by etrans|]. split; [by etrans|]. done.
Qed.

Lemma writer_drains_in_loop b n :
  writer_thread b = InLoop ->
  length (task_queue b) <= n ->
  task_queue (run (replicate n WriterTurn) b) = []
  /\ writer_thread (run (replicate n WriterTurn) b) = InLoop.
Proof.
  revert b. induction n as [|n IH]; intros b Hw Hn.
  - simpl. split; [|done]. destruct (task_queue b); [done|simpl in Hn; lia].
  - change (run (replicate (S n) WriterTurn) b)
      with (run (replicate n WriterTurn) (_writer_thread b)).
    assert (writer_thread (_writer_thread b) = InLoop
            /\ length (task_queue (_writer_thread b)) <= n) as [Hw' Hn'].
    { unfold _writer_thread. rewrite Hw.
      destruct (task_queue b) as [|[package origin] rest] eqn:Hq.
      - rewrite Hq. simpl. split; [done|lia].
      - rewrite writerow_line. simpl in *. split; [done|lia]. }
    by apply IH.
Qed.

(** Enough turns of the writer thread empty the queue. *)
Lemma writer_drains b n :
  writer_thread b <> Dead ->
  length (task_queue b) < n ->
  task_queue (run (replicate n WriterTurn) b) = []
  /\ writer_thread (run (replicate n WriterTurn) b) = InLoop.
Proof.
  intros Halive Hn. destruct (writer_thread b) eqn:Hw; [| |done].
  - destruct n as [|n]; [lia|].
    change (run (replicate (S n) WriterTurn) b)
      with (run (replicate n WriterTurn) (_writer_thread b)).
    unfold _writer_thread. rewrite Hw.
    apply writer_drains_in_loop; [done|]. simpl. lia.
  - apply writer_drains_in_loop; [done|lia].
Qed.

End BackupLog.

(** The backup file is an append-only log and the writer thread never dies
    on a recorded tuple: whatever the threads do later, the rows written so
    far stay the first rows of the file, the rows that reached the disk
    stay the first rows on the disk, and the disk never holds a row that
    was not written. *)
Theorem backup_file_is_append_only (earlier later : list BackupManager.event) :
  let b1 := BackupManager.run earlier BackupManager.init_as_write in
  let b2 := BackupManager.run (earlier ++ later) BackupManager.init_as_write in
  BackupManager.target_file b1 `prefix_of` BackupManager.target_file b2
  /\ BackupManager.flushed b1 `prefix_of` BackupManager.flushed b2
  /\ BackupManager.flushed b2 `prefix_of` BackupManager.target_file b2
  /\ BackupManager.writer_thread b2 <> BackupManager.Dead.
Proof.
  intros b1 b2.
  assert (b2 = BackupManager.run later b1) as ->
    by (unfold b2, b1, BackupManager.run; by rewrite foldl_app).
  destruct (run_extends earlier BackupManager.init_as_write) as (_ & _ & Hflushed & Halive);
    [done | done |].
  fold b1 in Hflushed, Halive.
  destruct (run_extends later b1 Halive Hflushed) as (? & ? & ? & ?). done.
Qed.

Lemma recorded_app schedule schedule' :
  BackupManager.recorded (schedule ++ schedule')
  = BackupManager.recorded schedule ++ BackupManager.recorded schedule'.
Proof. unfold BackupManager.recorded. apply omap_app. Qed.

Lemma recorded_writer_turns schedule n :
  BackupManager.recorded (schedule ++ replicate n BackupManager.WriterTurn)
  = BackupManager.recorded schedule.
Proof.
  rewrite recorded_app.
  assert (BackupManager.recorded (replicate n BackupManager.WriterTurn) = []) as ->.
  { induction n as [|n IH]; [done|]. exact IH. }
  by rewrite app_nil_r.
Qed.

(** No recorded tuple is left out once the writer thread has had enough
    turns: after any schedule, more writer turns than tuples are waiting
    leave the queue empty and the file with the header and one row per
    recorded tuple, in the order of the calls; if a tuple was recorded, all
    of it is on the disk. *)
Theorem backup_completes_after_writer_turns
    (schedule : list BackupManager.event) (n : nat) :
  let b := BackupManager.run schedule BackupManager.init_as_write in
  length (BackupManager.task_queue b) < n ->
  let b' := BackupManager.run (schedule ++ replicate n BackupManager.WriterTurn)
              BackupManager.init_as_write in
  BackupManager.task_queue b' = []
  /\ BackupManager.target_file b'
     = CSV_HEADER :: map BackupManager.data_row (BackupManager.recorded schedule)
  /\ (BackupManager.recorded schedule <> [] ->
      BackupManager.flushed b' = BackupManager.target_file b').
Proof.
  intros b Hn b'.
  assert (b' = BackupManager.run (replicate n BackupManager.WriterTurn) b) as Hb'
    by (unfold b', b, BackupManager.run; by rewrite foldl_app).
  destruct (run_extends schedule BackupManager.init_as_write) as (_ & _ & _ & Halive);
    [done | done |].
  fold b in Halive.
  destruct (writer_drains b n Halive Hn) as [Hqueue Hloop].
  rewrite <- Hb' in Hqueue, Hloop.
  pose proof (backup_invariant_run (schedule ++ replicate n BackupManager.WriterTurn))
    as Hinv.
  fold b' in Hinv. unfold BackupManager.backup_invariant in Hinv.
  rewrite Hloop, recorded_writer_turns in Hinv.
  destruct Hinv as (consumed & Hrec & Hfile & Hflush).
  rewrite Hqueue, app_nil_r in Hrec. subst consumed.
  split; [done|]. split; [done|].
  intros Hne. by destruct Hflush as [?|[? _]].
Qed.

(** * Properties of the validation of the input *)

Lemma validate_line_accepts args_domain args_repository line line_number :
  Validation.validate_line args_domain args_repository line line_number = inr tt
  <-> Validation.valid_line args_domain args_repository line.
Proof.
  unfold Validation.validate_line, Validation.valid_line.
  repeat case_bool_decide; simpl; split; try done; intros (? & ? & ? & ?); done.
Qed.

Lemma validate_line_outcome args_domain args_repository line line_number :
  Validation.validate_line args_domain args_repository line line_number = inr tt
  \/ exists msg,
       Validation.validate_line args_domain args_repository line line_number
       = inl (Exception msg).
Proof.
  unfold Validation.validate_line. repeat case_bool_decide; simpl; eauto.
Qed.

(** [validate_line] accepts a record exactly when its domain and
    repository are the ones given on the command line and its two flags are
    [ALLOW] or [BLOCK]; format, namespace and package are not looked at.
    The loop of [validate_file] returns, with one more than the number of
    records, exactly when every record is accepted; otherwise it raises
    what [validate_line] raises for the first record that is not accepted,
    with the line number of that record (the header being line 1). *)
Theorem validate_lines_first_invalid_line
    (args_domain args_repository : string) (lines : list row) :
  (forall line n,
     Validation.validate_line args_domain args_repository line n = inr tt
     <-> Validation.valid_line args_domain args_repository line)
  /\ (Forall (Validation.valid_line args_domain args_repository) lines
      <-> Validation.validate_lines args_domain args_repository lines 1
          = inr (S (length lines)))
  /\ (forall before line after,
        lines = before ++ line :: after ->
        Forall (Validation.valid_line args_domain args_repository) before ->
        ~ Validation.valid_line args_domain args_repository line ->
        exists msg,
          Validation.validate_line args_domain args_repository line (2 + length before)
            = inl (Exception msg)
          /\ Validation.validate_lines args_domain args_repository lines 1
             = inl (Exception msg)).
Proof.
  assert (forall ls n,
            Forall (Validation.valid_line args_domain args_repository) ls
            <-> Validation.validate_lines args_domain args_repository ls n
                = inr (length ls + n)) as Hall.
  { induction ls as [|line ls IH]; intros n; simpl.
    - split; [done | by constructor].
    - pose proof (validate_line_accepts args_domain args_repository line (S n)) as Hline.
      destruct (Validation.validate_line args_domain args_repository line (S n))
        as [e|[]] eqn:Hv.
      + split; [|done]. intros [Hbad%Hline _]%Forall_cons. done.
      + rewrite Forall_cons, (IH (S n)).
        replace (length ls + S n) with (S (length ls + n)) by lia.
        split; [by intros [_ ?] | intros ?; split; [by apply Hline | done]]. }
  split; [intros line n; apply validate_line_accepts|]. split.
  - rewrite (Hall lines 1). by replace (length lines + 1) with (S (length lines)) by lia.
  - intros before line after -> Hbefore Hbad.
    assert (forall n,
              Validation.validate_lines args_domain args_repository
                (before ++ line :: after) n
              = match Validation.validate_line args_domain args_repository line
                        (S (length before + n)) with
                | inl e => inl e
                | inr _ => Validation.validate_lines args_domain args_repository after
                             (S (length before + n))
                end) as Hskip.
    { induction Hbefore as [|l before Hl _ IH]; intros n; [done|].
      simpl. apply (validate_line_accepts _ _ _ (S n)) in Hl. rewrite Hl.
      rewrite (IH (S n)). by replace (length before + S n) with (S (length before + n)) by lia. }
    destruct (validate_line_outcome args_domain args_repository line (2 + length before))
      as [Hok|[msg Hmsg]]; [by apply validate_line_accepts in Hok|].
    exists msg. split; [done|]. rewrite Hskip.
    replace (S (length before + 1)) with (2 + length before) by lia. by rewrite Hmsg.
Qed.

(** * Properties of the client and of the constructor of the backup manager *)

(** [get_restrictions] and [apply_restrictions] check the domain before
    they call the registry.  For a record of another domain both raise and
    the registry is left as it was.  For a record of the domain of the
    client, which every record accepted by [validate_line] for that domain
    is, neither raises on its own account: the outcome is the one of the
    registry call, made with the coordinates of the record, the namespace
    being passed only when it is not empty, and for [apply_restrictions]
    with the two flags of the record. *)
Theorem client_checks_domain_first
    {Remote Response : Type}
    (client : Dispatcher.CodeArtifactClient Remote Response)
    (kwargs : row) (w : Dispatcher.world Remote) :
  (domain kwargs <> Dispatcher.DOMAIN client ->
   (exists msg w',
      Dispatcher.get_restrictions client kwargs w = (inl (Exception msg), w')
      /\ Dispatcher.remote w' = Dispatcher.remote w)
   /\ (exists w',
         Dispatcher.apply_restrictions client kwargs w
           = (inl (Exception "Domain mismatch!"), w')
         /\ Dispatcher.remote w' = Dispatcher.remote w))
  /\ (forall args_repository line_number,
        Validation.validate_line (Dispatcher.DOMAIN client) args_repository kwargs
          line_number = inr tt ->
        let coordinates restrictions :=
          Dispatcher.Request (domain kwargs) (repository kwargs) (format kwargs)
            (package_name kwargs)
            (if bool_decide (namespace kwargs = "") then None else Some (namespace kwargs))
            restrictions in
        Dispatcher.get_restrictions client kwargs w
        = (let (res, rem) :=
             Dispatcher.describe_package (Dispatcher.codeartifact_client client)
               (coordinates None) (Dispatcher.remote w) in
           (res, Dispatcher.World (Dispatcher.the_workspace w) (Dispatcher.stdin w) rem
                   (Dispatcher.calls w ++ [Dispatcher.GetRestrictions kwargs])
                   (Dispatcher.the_backup w)))
        /\ Dispatcher.apply_restrictions client kwargs w
           = (let (res, rem) :=
                Dispatcher.put_package_origin_configuration
                  (Dispatcher.codeartifact_client client)
                  (coordinates (Some (upstream kwargs, publish kwargs)))
                  (Dispatcher.remote w) in
              (res, Dispatcher.World (Dispatcher.the_workspace w) (Dispatcher.stdin w) rem
                      (Dispatcher.calls w ++ [Dispatcher.ApplyRestrictions kwargs])
                      (Dispatcher.the_backup w)))
        /\ upstream kwargs ∈ ALLOWED_FLAG_VALUES /\ publish kwargs ∈ ALLOWED_FLAG_VALUES).
Proof.
  split.
  - intros Hforeign.
    unfold Dispatcher.get_restrictions, Dispatcher.apply_restrictions, bind,
      Dispatcher.entered, raise. simpl.
    rewrite bool_decide_eq_false_2 by done. simpl. split; eauto.
  - intros args_repository line_number (Hdomain & _ & Hup & Hpub)%validate_line_accepts.
    unfold Dispatcher.get_restrictions, Dispatcher.apply_restrictions, bind,
      Dispatcher.entered, Dispatcher.in_remote, Dispatcher.namespace_argument. simpl.
    rewrite bool_decide_eq_true_2 by done. simpl. done.
Qed.

(** The constructor of the backup manager empties an existing backup file
    unless it raises.  It reads a line of input only when the file exists
    and confirmation is enabled, and then it returns exactly when the
    answer is [Y] or [y]: on [N] or [n] it raises "User elected not to
    continue.", on any other answer or at the end of the input it raises
    too, and whenever it raises the file is left as it was. *)
Theorem backup_constructor_overwrites
    {Remote : Type} (backup_exists ask_confirmation : bool) (w : Dispatcher.world Remote) :
  let r := BackupManagerInit.__init__ backup_exists ask_confirmation w in
  (forall e, r.1 = inl e -> Dispatcher.the_backup r.2 = Dispatcher.the_backup w)
  /\ (r.1 = inr tt ->
      BackupManager.flushed (Dispatcher.the_backup r.2) = []
      /\ BackupManager.target_file (Dispatcher.the_backup r.2) = []
      /\ BackupManager.task_queue (Dispatcher.the_backup r.2)
         = BackupManager.task_queue (Dispatcher.the_backup w))
  /\ (backup_exists && ask_confirmation = false ->
      r.1 = inr tt /\ Dispatcher.stdin r.2 = Dispatcher.stdin w)
  /\ (backup_exists && ask_confirmation = true ->
      (r.1 = inr tt <->
       exists yes rest, Dispatcher.stdin w = yes :: rest /\ yes ∈ ["Y"; "y"])
      /\ (forall no rest, Dispatcher.stdin w = no :: rest -> no ∈ ["N"; "n"] ->
            r.1 = inl (Exception "User elected not to continue."))).
Proof.
  intros r. unfold r, BackupManagerInit.__init__,
    BackupManagerInit.ask_user_whether_to_overwrite_backup,
    BackupManagerInit.init_as_write, bind, Dispatcher.in_backup, ret, raise.
  destruct (backup_exists && ask_confirmation) eqn:Hask; simpl.
  2: { split; [done|]. split; [done|]. split; [done|]. done. }
  destruct (Dispatcher.stdin w) as [|answer rest] eqn:Hin.
  { unfold Dispatcher.get_user_confirmation, bind, Dispatcher.input. rewrite Hin. simpl.
    split; [done|]. split; [done|]. split; [done|]. intros _. split.
    - split; [done|]. by intros (? & ? & ? & _).
    - intros no rest' ?. done. }
  rewrite (get_user_confirmation_run w answer rest Hin).
  assert (forall s : string, s ∈ ["Y"; "y"] <-> s ∈ ["Y"; "y"; "N"; "n"] /\ s ∉ ["N"; "n"])
    as Hyes.
  { intros s. rewrite !elem_of_cons, !elem_of_nil. split.
    - intros [->|[->|[]]]; split; eauto; intros [?|[?|[]]]; discriminate.
    - intros [[?|[?|[?|[?|[]]]]] Hno]; eauto; exfalso; apply Hno; eauto. }
  repeat case_bool_decide; simpl.
  - split; [done|]. split; [done|]. split; [done|]. intros _. split.
    + split; [done|]. intros (yes & rest' & ? & Hy). simplify_eq.
      apply Hyes in Hy as [_ ?]. done.
    + done.
  - split; [done|]. split; [done|]. split; [done|]. intros _. split.
    + split; [|done]. intros _. exists answer, rest. split; [done|]. by apply Hyes.
    + intros no rest' ? ?. by simplify_eq.
  - split; [done|]. split; [done|]. split; [done|]. intros _. split.
    + split; [done|]. intros (yes & rest' & ? & Hy). simplify_eq.
      apply Hyes in Hy as [? _]. done.
    + intros no rest' ? Hno. simplify_eq. exfalso. by apply no_is_valid in Hno.
Qed.

(** * Properties of the parser of origin control flags *)

Lemma parse_section_returned section parsed yet_unparsed parsed' yet_unparsed' :
  Flags.parse_section section parsed yet_unparsed = inr (parsed', yet_unparsed') ->
  exists name value,
    name ∈ yet_unparsed /\ value ∈ ALLOWED_FLAG_VALUES
    /\ parsed' = <[name := Some value]> parsed
    /\ yet_unparsed' = Flags.remove name yet_unparsed.
Proof.
  unfold Flags.parse_section.
  destruct (Flags.split Flags.equals (Flags.strip Flags.space section))
    as [|name [|value [|? ?]]]; try done.
  repeat case_bool_decide; try done. intros [= <- <-].
  by exists name, value.
Qed.

(** Whenever [parse_poc_flags] returns, the configuration has a value for
    [upstream] and one for [publish], each [ALLOW] or [BLOCK], and no other
    key: a flag given twice, a flag left out, an unknown name or another
    value makes it raise.  It accepts the two flags in either order. *)
Theorem parse_poc_flags_gives_both_flags (origin_configuration : string) :
  (forall parsed,
     Flags.parse_poc_flags origin_configuration = inr parsed ->
     exists up pub,
       up ∈ ALLOWED_FLAG_VALUES /\ pub ∈ ALLOWED_FLAG_VALUES
       /\ parsed = <["upstream" := Some up]> (<["publish" := Some pub]> ∅))
  /\ (forall up pub,
        up ∈ ALLOWED_FLAG_VALUES -> pub ∈ ALLOWED_FLAG_VALUES ->
        Flags.parse_poc_flags ("upstream=" +:+ up +:+ ",publish=" +:+ pub)
          = inr (<["upstream" := Some up]> (<["publish" := Some pub]> ∅))
        /\ Flags.parse_poc_flags ("publish=" +:+ pub +:+ ",upstream=" +:+ up)
           = inr (<["upstream" := Some up]> (<["publish" := Some pub]> ∅))).
Proof.
  split.
  - intros parsed. unfold Flags.parse_poc_flags.
    destruct (Flags.split Flags.comma (Flags.strip Flags.space origin_configuration))
      as [|s1 [|s2 [|? ?]]]; try done.
    simpl.
    destruct (Flags.parse_section s1 _ _) as [e|[parsed1 yet1]] eqn:H1; [done|].
    destruct (Flags.parse_section s2 _ _) as [e|[parsed2 yet2]] eqn:H2; [done|].
    intros [= <-].
    apply parse_section_returned in H1 as (n1 & v1 & Hn1 & Hv1 & -> & ->).
    apply parse_section_returned in H2 as (n2 & v2 & Hn2 & Hv2 & -> & _).
    unfold Flags.FLAG_NAMES in Hn1.
    apply elem_of_cons in Hn1 as [->|Hn1]; [|apply list_elem_of_singleton in Hn1 as ->];
      simpl in Hn2; apply list_elem_of_singleton in Hn2 as ->.
    + exists v1, v2. split; [done|]. split; [done|].
      apply map_eq. intros k.
      destruct (decide (k = "upstream")) as [->|]; [by simplify_map_eq|].
      destruct (decide (k = "publish")) as [->|]; by simplify_map_eq.
    + exists v2, v1. split; [done|]. split; [done|].
      apply map_eq. intros k.
      destruct (decide (k = "upstream")) as [->|]; [by simplify_map_eq|].
      destruct (decide (k = "publish")) as [->|]; by simplify_map_eq.
  - intros up pub Hup Hpub. unfold ALLOWED_FLAG_VALUES in *.
    apply elem_of_cons in Hup as [->|Hup]; [|apply list_elem_of_singleton in Hup as ->];
      (apply elem_of_cons in Hpub as [->|Hpub];
       [|apply list_elem_of_singleton in Hpub as ->]);
      split; vm_compute; reflexivity.
Qed.

(** * Properties of the traversal of the upstream graph *)

Section UpstreamGraphTraversal.
Import UpstreamGraph.
Context {ExternalConnection : Type}.
Variable describe_repository : string -> exn + list string * list ExternalConnection.
Variable known : gset string.
Hypothesis Hclosed : closed_registry describe_repository known.
Variable start : string.

Local Abbreviation upstreams_of := (upstreams_of describe_repository).
Local Abbreviation visit := (_recursive_get_upstreams describe_repository).
Local Abbreviation reachable := (reachable describe_repository start).

Local Abbreviation traversal_state := (traversal_state describe_repository known start).
Local Abbreviation traversal_step := (traversal_step describe_repository known start).

Lemma traversal_step_trans V G V1 G1 V2 G2 :
  traversal_step V G V1 G1 -> traversal_step V1 G1 V2 G2 -> traversal_step V G V2 G2.
Proof.
  intros (HV & HG & _ & Hnew) (HV' & HG' & Hst & Hnew').
  split; [set_solver|]. split; [set_solver|]. split; [done|].
  intros x Hx2 Hx u Hu. destruct (decide (x ∈ V1)) as [Hx1|Hx1].
  - apply HG'. by apply (Hnew x).
  - by apply (Hnew' x).
Qed.

Lemma unvisited_le (V V' : gset string) :
  V ⊆ V' -> size (known ∖ V') <= size (known ∖ V).
Proof. intros HV. apply subseteq_size. set_solver. Qed.

Lemma unvisited_lt (V : gset string) r :
  r ∈ known -> r ∉ V -> size (known ∖ ({[r]} ∪ V)) < size (known ∖ V).
Proof.
  intros Hr HV. apply subset_size. apply strict_spec_alt. split; [set_solver|].
  intros Heq. assert (r ∈ known ∖ V) as Hin by set_solver.
  rewrite <- Heq in Hin. set_solver.
Qed.

Lemma for_upstreams_spec depth :
  (forall V G r,
     traversal_state V G -> r ∈ known -> reachable r -> size (known ∖ V) < depth ->
     exists V' G',
       visit depth V G r = Some (inr (V', G'))
       /\ traversal_step V G V' G' /\ r ∈ dom G') ->
  forall upstreams V G,
    traversal_state V G ->
    Forall (fun u => u ∈ known /\ reachable u) upstreams ->
    size (known ∖ V) < depth ->
    exists V' G',
      for_upstreams (visit depth) upstreams V G = Some (inr (V', G'))
      /\ traversal_step V G V' G'
      /\ forall u, u ∈ upstreams -> u ∈ dom G'.
Proof.
  intros Hvisit upstreams.
  induction upstreams as [|u upstreams IH]; intros V G Hst Hups Hsize.
  - exists V, G. split; [done|]. split; [|by intros u ?%elem_of_nil].
    split; [done|]. split; [done|]. split; [done|]. done.
  - apply Forall_cons in Hups as [[Hu Hreach] Hups].
    destruct (Hvisit V G u Hst Hu Hreach Hsize) as (V1 & G1 & Hrun & Hstep & Hin).
    destruct (IH V1 G1) as (V2 & G2 & Hloop & Hstep' & Hins).
    { by destruct Hstep as (_ & _ & ? & _). }
    { done. }
    { destruct Hstep as (HV & _). pose proof (unvisited_le V V1 HV). lia. }
    exists V2, G2. split; [simpl; by rewrite Hrun|].
    split; [by eapply traversal_step_trans|].
    intros u' [->|Hu']%elem_of_cons; [|by apply Hins].
    destruct Hstep' as (_ & HG & _). by apply HG.
Qed.

Lemma visit_spec depth V G r :
  traversal_state V G -> r ∈ known -> reachable r -> size (known ∖ V) < depth ->
  exists V' G',
    visit depth V G r = Some (inr (V', G'))
    /\ traversal_step V G V' G' /\ r ∈ dom G'.
Proof.
  revert V G r. induction depth as [|depth IH]; intros V G r Hst Hr Hreach Hsize; [lia|].
  destruct (Hclosed r Hr) as [(upstreams & ecs & Hget) Hups].
  assert (upstreams_of r = upstreams) as Hof
    by (unfold UpstreamGraph.upstreams_of; by rewrite Hget).
  destruct Hst as (HV & HG & Hentries & Hreached).
  simpl. rewrite Hget. case_bool_decide as Hvisited.
  - exists V, (<[r := upstreams]> G). split; [done|].
    split; [|set_solver]. split; [done|]. split; [set_solver|].
    split; [|intros x ? ?; done].
    split; [done|]. split; [set_solver|]. split; [|done].
    intros k v. destruct (decide (k = r)) as [->|].
    + rewrite lookup_insert_eq. intros [= <-]. done.
    + rewrite lookup_insert_ne by done. apply Hentries.
  - assert (traversal_state ({[r]} ∪ V) (<[r := upstreams]> G)) as Hst1.
    { split; [set_solver|]. split; [set_solver|]. split.
      - intros k v. destruct (decide (k = r)) as [->|].
        + rewrite lookup_insert_eq. intros [= <-]. done.
        + rewrite lookup_insert_ne by done. apply Hentries.
      - intros x [->%elem_of_singleton|?]%elem_of_union; eauto. }
    destruct (for_upstreams_spec depth IH upstreams ({[r]} ∪ V) (<[r := upstreams]> G))
      as (V' & G' & Hloop & Hstep & Hins).
    { done. }
    { apply Forall_forall. intros u Hu. rewrite <- Hof in Hu. split; [by apply Hups|].
      by eapply reachable_upstream. }
    { pose proof (unvisited_lt V r Hr Hvisited). lia. }
    exists V', G'. split; [done|].
    destruct Hstep as (HV' & HG' & Hst' & Hnew).
    split; [|set_solver].
    split; [set_solver|]. split; [set_solver|]. split; [done|].
    intros x Hx' Hx u Hu. destruct (decide (x = r)) as [->|Hxr].
    + apply Hins. by rewrite <- Hof.
    + apply (Hnew x); [done|set_solver|done].
Qed.

Lemma get_upstream_graph_spec depth :
  start ∈ known -> size known < depth ->
  exists upstream_graph,
    get_upstream_graph describe_repository depth start = Some (inr upstream_graph)
    /\ (forall repository,
          is_Some (upstream_graph !! repository) <-> reachable repository)
    /\ (forall repository upstreams,
          upstream_graph !! repository = Some upstreams ->
          upstreams = upstreams_of repository).
Proof.
  intros Hstart Hsize.
  destruct (visit_spec depth ∅ ∅ start) as (V' & G' & Hrun & Hstep & Hin).
  { split; [set_solver|]. split; [set_solver|]. split; [|set_solver].
    intros k v. by rewrite lookup_empty. }
  { done. }
  { apply reachable_start. }
  { assert (known ∖ ∅ = known) as -> by set_solver. done. }
  exists G'. split; [unfold get_upstream_graph; by rewrite Hrun|].
  destruct Hstep as (_ & _ & (HV' & HG' & Hentries & Hreached) & Hnew).
  split; [|done].
  intros repository. rewrite <- elem_of_dom. split.
  - intros Hk. apply Hreached. set_solver.
  - induction 1 as [|repository upstream _ IH Hup]; [done|].
    apply (Hnew repository); [set_solver|set_solver|done].
Qed.

End UpstreamGraphTraversal.

(** [get_upstream_graph] ends on any registry, cyclic or not: if the start
    is in a finite set of existing repositories that holds the upstreams
    of its members, a recursion depth above the size of the set is never
    exhausted, and the graph returned has as keys exactly the repositories
    that can be reached from the start along upstream links, each with its
    list of upstreams (without a first mention of itself). *)
Theorem get_upstream_graph_is_the_reachable_set
    {ExternalConnection : Type}
    (describe_repository : string -> exn + list string * list ExternalConnection)
    (known : gset string) (start : string) (depth : nat) :
  UpstreamGraph.closed_registry describe_repository known ->
  start ∈ known -> size known < depth ->
  exists upstream_graph,
    UpstreamGraph.get_upstream_graph describe_repository depth start
      = Some (inr upstream_graph)
    /\ (forall repository,
          is_Some (upstream_graph !! repository)
          <-> UpstreamGraph.reachable describe_repository start repository)
    /\ (forall repository upstreams,
          upstream_graph !! repository = Some upstreams ->
          upstreams = UpstreamGraph.upstreams_of describe_repository repository).
Proof.
  intros Hclosed Hstart Hdepth.
  by apply (get_upstream_graph_spec describe_repository known Hclosed).
Qed.

Lemma sample_registry_closed :
  UpstreamGraph.closed_registry sample_registry {["app"; "shared"]}.
Proof.
  intros repository [->%elem_of_singleton| ->%elem_of_singleton]%elem_of_union.
  - split; [eexists _, _; vm_compute; reflexivity|].
    intros upstream Hup. vm_compute in Hup.
    apply list_elem_of_singleton in Hup as ->. set_solver.
  - split; [eexists _, _; vm_compute; reflexivity|].
    intros upstream Hup. vm_compute in Hup.
    apply list_elem_of_singleton in Hup as ->. set_solver.
Qed.

Lemma get_upstream_graph_is_the_reachable_set_witness :
  exists upstream_graph,
    UpstreamGraph.get_upstream_graph sample_registry 3 "app" = Some (inr upstream_graph)
    /\ (forall repository,
          is_Some (upstream_graph !! repository)
          <-> UpstreamGraph.reachable sample_registry "app" repository).
Proof.
  destruct (get_upstream_graph_is_the_reachable_set sample_registry {["app"; "shared"]}
              "app" 3) as (upstream_graph & Hrun & Hkeys & _).
  - apply sample_registry_closed.
  - set_solver.
  - vm_compute. lia.
  - exists upstream_graph. split; assumption.
Defined.

Example sample_upstream_graph :
  UpstreamGraph.get_upstream_graph sample_registry 3 "app"
  = Some (inr (<["app" := ["shared"]]> (<["shared" := ["app"]]> ∅))).
Proof. vm_compute. reflexivity. Qed.

(** * Further properties of the set-up of the directories *)

Section SetupTwice.
Import Directories.

Lemma setup_workspace_fresh_tree home content_hash fs :
  isdir (removelast home) fs = true ->
  isdir (os_path_join home content_hash) fs = false ->
  (forall name, isdir (os_path_join (os_path_join home content_hash) name) fs = false) ->
  exists fs',
    let workspace_dir := os_path_join home content_hash in
    setup_workspace home content_hash fs
    = (inr (os_path_join workspace_dir "todo", os_path_join workspace_dir "error",
            os_path_join workspace_dir "done"), fs')
    /\ state_directories_exist home content_hash fs'
    /\ isdir home fs' = true /\ isdir workspace_dir fs' = true
    /\ fs ⊆ fs'.
Proof.
  intros Hparent Hws Hchildren.
  assert (exists fs0,
            try_except (os_mkdir home) pass_FileExistsError fs = (inr tt, fs0)
            /\ isdir home fs0 = true
            /\ (forall q, q <> home -> isdir q fs0 = isdir q fs)
            /\ fs ⊆ fs0) as (fs0 & Hrun & Hh0 & Hsame & Hsub).
  { unfold try_except, os_mkdir. destruct (isdir home fs) eqn:Hh.
    - exists fs. done.
    - rewrite Hparent. exists ({[home]} ∪ fs).
      split; [done|]. split; [apply isdir_new|]. split; [|set_solver].
      intros q Hq. by apply isdir_add_ne. }
  unfold setup_workspace. cbv zeta. unfold bind at 1. rewrite Hrun.
  pose (ws_dir := os_path_join home content_hash).
  assert (isdir ws_dir fs0 = false) as Hws0
    by (rewrite Hsame; [done | apply join_ne_self]).
  assert (forall name, isdir (os_path_join ws_dir name) fs0 = false) as Hch0
    by (intros name; rewrite Hsame; [done | apply join_ne_parent]).
  unfold bind, try_except, ret.
  rewrite (os_mkdir_new home content_hash fs0) by done. fold ws_dir.
  rewrite (os_mkdir_new ws_dir "todo");
    [| apply isdir_new | by rewrite isdir_add_ne by apply join_ne_self].
  rewrite (os_mkdir_new ws_dir "error");
    [| apply isdir_union, isdir_new
     | by rewrite !isdir_add_ne by (apply join_ne_self || by apply join_ne)].
  rewrite (os_mkdir_new ws_dir "done");
    [| do 2 apply isdir_union; apply isdir_new
     | by rewrite !isdir_add_ne by (apply join_ne_self || by apply join_ne)].
  eexists. split; [reflexivity|].
  unfold state_directories_exist. fold ws_dir.
  split; [|split; [|split]].
  - split; [|split].
    + do 2 apply isdir_union. apply isdir_new.
    + apply isdir_union. apply isdir_new.
    + apply isdir_new.
  - by do 4 apply isdir_union.
  - do 3 apply isdir_union. apply isdir_new.
  - set_solver.
Qed.

End SetupTwice.

(** [setup_workspace] is idempotent on a tree it has set up: on a tree
    without the workspace directory, where the parent of the home of the
    workspaces exists, it creates the three state directories and removes
    nothing, and a second call returns the same three paths and changes
    nothing.  The home is made with [os.mkdir]: when neither the home nor
    its parent exists, [FileNotFoundError] is raised and nothing is
    created. *)
Theorem setup_workspace_is_idempotent
    (home : Directories.path) (content_hash : string) (fs : gset Directories.path) :
  (Directories.isdir (removelast home) fs = true ->
   Directories.isdir (Directories.os_path_join home content_hash) fs = false ->
   (forall name,
      Directories.isdir
        (Directories.os_path_join (Directories.os_path_join home content_hash) name) fs
      = false) ->
   exists folders fs',
     Directories.setup_workspace home content_hash fs = (inr folders, fs')
     /\ Directories.state_directories_exist home content_hash fs'
     /\ fs ⊆ fs'
     /\ Directories.setup_workspace home content_hash fs' = (inr folders, fs'))
  /\ (Directories.isdir home fs = false ->
      Directories.isdir (removelast home) fs = false ->
      Directories.setup_workspace home content_hash fs = (inl FileNotFoundError, fs)).
Proof.
  split.
  - intros Hparent Hws Hchildren.
    destruct (setup_workspace_fresh_tree home content_hash fs Hparent Hws Hchildren)
      as (fs' & Hrun & Hdirs & Hhome & Hwsdir & Hsub).
    eexists _, fs'. split; [exact Hrun|]. split; [done|]. split; [done|].
    unfold Directories.setup_workspace, bind, try_except, ret, Directories.os_mkdir.
    cbv zeta. rewrite Hhome. simpl. rewrite Hwsdir. simpl. done.
  - intros Hhome Hparent.
    unfold Directories.setup_workspace, bind, try_except, Directories.os_mkdir.
    cbv zeta. by rewrite Hhome, Hparent.
Qed.

(** * Properties of the automatic mode of the generator *)

Section AutoModeFacts.
Import Generate.
Context {Package ExternalConnection : Type} `{EqDecision Package}.
Variable package_format : Package -> string.
Variable package_namespace : Package -> option string.
Variable package_of : Package -> string.
Variable packageFormat : ExternalConnection -> option string.
Variable list_packages_in_repository : string -> exn + list Package.

Lemma append_to_no_empty key upstream packages_map :
  no_empty_list packages_map -> no_empty_list (append_to key upstream packages_map).
Proof.
  unfold no_empty_list. induction 1 as [|[k v] rest Hv Hrest IH]; simpl.
  - by repeat constructor.
  - case_bool_decide.
    + constructor; [|done]. simpl. by intros [? ?]%app_eq_nil.
    + by constructor.
Qed.

Lemma record_packages_no_empty candidates upstream packages_list packages_map :
  no_empty_list packages_map ->
  no_empty_list (record_packages package_format package_namespace package_of candidates
                   upstream packages_list packages_map).
Proof.
  unfold record_packages. revert packages_map.
  induction packages_list as [|package packages_list IH]; intros packages_map Hm; [done|].
  simpl. apply IH. case_bool_decide; [by apply append_to_no_empty | done].
Qed.

Lemma collect_packages_no_empty candidates upstream_graph packages_map collected :
  no_empty_list packages_map ->
  collect_packages package_format package_namespace package_of
    list_packages_in_repository candidates upstream_graph packages_map = inr collected ->
  no_empty_list collected.
Proof.
  revert packages_map.
  induction upstream_graph as [|upstream rest IH]; intros packages_map Hm; simpl.
  - by intros [= <-].
  - destruct (list_packages_in_repository upstream) as [e|packages_list]; [done|].
    apply IH. by apply record_packages_no_empty.
Qed.

Lemma block_where_possible_no_empty args_repository packages_map ecs :
  no_empty_list packages_map ->
  block_where_possible packageFormat args_repository packages_map ecs
  = (map (fun item => entry_of args_repository item.1) packages_map, []).
Proof.
  induction 1 as [|[[[fmt ns] name] upstreams] rest Hv _ IH]; [done|].
  simpl in *. rewrite IH.
  case_bool_decide; [done|].
  rewrite bool_decide_eq_false_2; [done|]. by destruct upstreams.
Qed.

End AutoModeFacts.

(** [block_where_possible] sorts the keys of the map into two lists and
    keeps their order: a package goes to the restricted list exactly when
    the repository has no external connection of the format of the package
    and the list of repositories recorded for the package is empty; every
    other package goes to the list without restrictions. *)
Theorem block_where_possible_partitions
    {ExternalConnection : Type} (packageFormat : ExternalConnection -> option string)
    (args_repository : string)
    (packages_map : list (Generate.coordinate * list string))
    (current_repo_ecs : list ExternalConnection) :
  let blocked (item : Generate.coordinate * list string) :=
    ~ Exists (fun external_connection =>
                packageFormat external_connection = Some item.1.1.1) current_repo_ecs
    /\ item.2 = [] in
  Generate.block_where_possible packageFormat args_repository packages_map current_repo_ecs
  = (map (fun item => Generate.entry_of args_repository item.1)
       (filter (fun item => ~ blocked item) packages_map),
     map (fun item => Generate.entry_of args_repository item.1)
       (filter blocked packages_map)).
Proof.
  intros blocked.
  induction packages_map as [|[[[fmt ns] name] upstreams] rest IH]; [done|].
  simpl. rewrite IH. rewrite !filter_cons. unfold blocked at 1 3. simpl.
  destruct (decide (Exists (fun ec => packageFormat ec = Some fmt) current_repo_ecs))
    as [Hec|Hec].
  - rewrite bool_decide_eq_true_2 by done.
    rewrite decide_True by (by intros [? _]).
    by rewrite decide_False by (by intros [? _]).
  - rewrite bool_decide_eq_false_2 by done.
    destruct upstreams as [|upstream upstreams]; simpl.
    + rewrite decide_False by (intros Hnot; by apply Hnot).
      by rewrite decide_True by done.
    + rewrite decide_True by (by intros [_ ?]).
      by rewrite decide_False by (by intros [_ ?]).
Qed.

(** The automatic mode never restricts a package: the map built by the
    loops of [collect_repository_and_package_information] has a key only
    for a package found in some repository of the graph, so no key has an
    empty list, and [block_where_possible] puts every package of the map in
    the list without restrictions and none in the restricted list,
    whatever the external connections are. *)
Theorem automatic_mode_never_blocks
    {Package ExternalConnection : Type} `{EqDecision Package}
    (package_format : Package -> string) (package_namespace : Package -> option string)
    (package_of : Package -> string)
    (packageFormat : ExternalConnection -> option string)
    (list_packages_in_repository : string -> exn + list Package)
    (args_repository : string) (candidate_packages : list Package)
    (upstream_graph : list string) (current_repo_ecs : list ExternalConnection)
    (packages_map : list (Generate.coordinate * list string)) :
  Generate.collect_packages package_format package_namespace package_of
    list_packages_in_repository candidate_packages upstream_graph [] = inr packages_map ->
  Forall (fun item => item.2 <> []) packages_map
  /\ Generate.block_where_possible packageFormat args_repository packages_map
       current_repo_ecs
     = (map (fun item => Generate.entry_of args_repository item.1) packages_map, []).
Proof.
  intros Hcollect.
  assert (Generate.no_empty_list packages_map) as Hno.
  { apply (collect_packages_no_empty package_format package_namespace package_of
             list_packages_in_repository candidate_packages upstream_graph []);
      [by constructor | done]. }
  split; [done|]. by apply block_where_possible_no_empty.
Qed.

(** * The further properties on sample data *)

Example split_on_commas :
  Flags.split Flags.comma "a,b" = ["a"; "b"]
  /\ Flags.split Flags.comma "" = [""]
  /\ Flags.split Flags.comma "a," = ["a"; ""]
  /\ Flags.strip Flags.space "  a b " = "a b".
Proof. repeat split; reflexivity. Qed.

Example padded_flags :
  Flags.parse_poc_flags " publish=BLOCK , upstream=ALLOW "
  = inr (<["upstream" := Some "ALLOW"]> (<["publish" := Some "BLOCK"]> ∅))
  /\ Flags.parse_poc_flags "upstream=ALLOW,upstream=BLOCK"
     = inl (Exception "upstream not a valid origin control flag")
  /\ Flags.parse_poc_flags "upstream=ALLOW"
     = inl (Exception "Check number of arguments provided (should be 2)")
  /\ Flags.parse_poc_flags "upstream=ALLOW,publish" = inl ValueError
  /\ Flags.parse_poc_flags "upstream = ALLOW,publish=BLOCK"
     = inl (Exception "upstream  not a valid origin control flag").
Proof. repeat split; vm_compute; reflexivity. Qed.

Lemma one_task_workspace_disjoint : disjoint_folders one_task_workspace.
Proof.
  intros u. rewrite holds_count. unfold holds. simpl.
  rewrite !lookup_empty.
  rewrite !(bool_decide_eq_false_2 (is_Some None)) by (by intros [? ?]).
  case_bool_decide; simpl; lia.
Qed.

Lemma create_input_files_resumes_witness :
  exists ws1,
    create_input_files [sample_row] empty_workspace = (inr tt, ws1)
    /\ create_input_files [scoped_ab_c] ws1 = (inr tt, ws1).
Proof.
  destruct (create_input_files_resumes [sample_row] [scoped_ab_c] empty_workspace)
    as (ws1 & H1 & _ & H2 & _).
  - repeat split.
  - repeat constructor.
  - discriminate.
  - exists ws1. split; assumption.
Defined.

Lemma reader_after_transition_witness :
  (reader sample_item (transit MarkError sample_item one_task_workspace).2).1
  = (reader sample_item one_task_workspace).1.
Proof.
  apply (reader_after_transition MarkError sample_item sample_item one_task_workspace).
  left. discriminate.
Defined.

Lemma task_generators_list_their_folder_witness :
  reader sample_item one_task_workspace = (inr sample_row, one_task_workspace).
Proof.
  destruct (task_generators_list_their_folder one_task_workspace)
    as [(tasks & _ & _ & _ & _ & Hreader) _].
  apply Hreader. reflexivity.
Defined.

Lemma delete_workspace_only_when_clean_witness :
  delete_workspace false (Some one_task_workspace) = (inr tt, Some one_task_workspace).
Proof.
  destruct (delete_workspace_only_when_clean false one_task_workspace) as (_ & Hkeep & _).
  apply Hkeep. left. intros H. apply (f_equal (fun m => m !! sample_item)) in H.
  vm_compute in H. discriminate.
Defined.

Lemma run_over_pending_tasks_returns_witness :
  exists proc w',
    Dispatcher.thread_map (Dispatcher.dispatch_task dry_run_only sample_client false)
      (map Dispatcher.handle [sample_item]) (sample_world []) = (inr proc, w')
    /\ length proc = 1.
Proof.
  destruct (run_over_pending_tasks_returns dry_run_only sample_client [sample_item] false
              (sample_world [])) as (proc & w' & Hrun & Hlen & _).
  - apply NoDup_singleton.
  - intros item ->%list_elem_of_singleton. split; reflexivity.
  - exists proc, w'. split; assumption.
Defined.

Lemma dispatch_work_returns_and_cleans_witness :
  exists n s f w',
    Dispatcher.dispatch_work dry_run_only sample_client (sample_world [])
      = (inr (n, s, f), w')
    /\ n = s + f.
Proof.
  destruct (dispatch_work_returns_and_cleans dry_run_only sample_client (sample_world []))
    as (n & s & f & w' & Hrun & _ & Hsum & _).
  - apply one_task_workspace_disjoint.
  - exists n, s, f, w'. split; assumption.
Defined.

Lemma backup_completes_after_writer_turns_witness :
  BackupManager.target_file
    (BackupManager.run
       ([BackupManager.DoBackup sample_row sample_origin]
        ++ replicate 2 BackupManager.WriterTurn) BackupManager.init_as_write)
  = [CSV_HEADER;
     ["davide-test"; "nerv"; "pypi"; ""; "internetarchive"; "ALLOW"; "BLOCK"]].
Proof.
  destruct (backup_completes_after_writer_turns
              [BackupManager.DoBackup sample_row sample_origin] 2) as (_ & Hfile & _).
  - vm_compute. lia.
  - exact Hfile.
Defined.

Lemma validate_lines_first_invalid_line_witness :
  Validation.validate_lines "davide-test" "nerv" [sample_row] 1 = inr 2.
Proof.
  destruct (validate_lines_first_invalid_line "davide-test" "nerv" [sample_row])
    as (_ & Hall & _).
  apply Hall. repeat constructor.
Defined.

Lemma client_checks_domain_first_witness :
  Dispatcher.get_restrictions sample_client sample_row (sample_world [])
  = (inr sample_origin,
     Dispatcher.World one_task_workspace [] tt [Dispatcher.GetRestrictions sample_row]
       BackupManager.init_as_write).
Proof.
  destruct (client_checks_domain_first sample_client sample_row (sample_world []))
    as (_ & Hvalid).
  destruct (Hvalid "nerv" 2) as (Hget & _).
  - reflexivity.
  - exact Hget.
Defined.

Lemma backup_constructor_overwrites_witness :
  (BackupManagerInit.__init__ true true (sample_world ["N"])).1
  = inl (Exception "User elected not to continue.").
Proof.
  destruct (backup_constructor_overwrites true true (sample_world ["N"]))
    as (_ & _ & _ & Hasked).
  destruct Hasked as [_ Hno]; [reflexivity|].
  apply (Hno "N" []); [reflexivity | constructor].
Defined.

Lemma parse_poc_flags_gives_both_flags_witness :
  Flags.parse_poc_flags "upstream=ALLOW,publish=BLOCK"
  = inr (<["upstream" := Some "ALLOW"]> (<["publish" := Some "BLOCK"]> ∅)).
Proof.
  destruct (parse_poc_flags_gives_both_flags "") as (_ & Haccepts).
  destruct (Haccepts "ALLOW" "BLOCK") as (Hfirst & _).
  - constructor.
  - constructor. constructor.
  - exact Hfirst.
Defined.

Lemma automatic_mode_never_blocks_witness :
  Generate.block_where_possible (fun _ : unit => None) "app"
    [(("npm", None, "left-pad"), ["app"; "shared"])] []
  = ([Generate.PackageEntry "app" "npm" "left-pad" None], []).
Proof.
  destruct (automatic_mode_never_blocks fst (fun _ => None) snd (fun _ : unit => None)
              sample_listing "app" [sample_package] ["app"; "shared"] []
              [(("npm", None, "left-pad"), ["app"; "shared"])]) as (_ & Hblock).
  - reflexivity.
  - exact Hblock.
Defined.

Lemma setup_workspace_is_idempotent_witness :
  exists folders fs',
    Directories.setup_workspace Directories.WORKSPACES_HOME Directories.sample_hash ∅
      = (inr folders, fs')
    /\ Directories.setup_workspace Directories.WORKSPACES_HOME Directories.sample_hash fs'
       = (inr folders, fs').
Proof.
  destruct (setup_workspace_is_idempotent Directories.WORKSPACES_HOME
              Directories.sample_hash ∅) as (Hfresh & _).
  destruct Hfresh as (folders & fs' & Hrun & _ & _ & Hagain).
  - reflexivity.
  - reflexivity.
  - intros name. apply bool_decide_eq_false. intros [Hnil|Hin]; [done|set_solver].
  - exists folders, fs'. split; assumption.
Defined.
